(** * DeliCasa: the SQLite-to-PostgreSQL dump converters

    A shallow embedding of [convert-data-only.py] and
    [convert-to-postgres.py].  Both scripts read a whole file into one
    string, push it through a fixed list of [re.sub] calls and write the
    result.  The embedding therefore has three layers:

    - characters and the character classes of Python's [re] and [str];
    - the part of the [re] engine the scripts use (literals, greedy
      repetition of a character set, [\b], capturing groups), with
      [re.sub] on top of it;
    - the two scripts, rule by rule, and their [main] functions over an
      explicit file system, clock and time zone.

    Text is a list of characters with code points U+0000..U+00FF. *)

From stdpp Require Import gmap strings.
From Stdlib Require Import Ascii String ZArith NArith Lia Bool List.
Import ListNotations.

Local Open Scope list_scope.

(** ** Text and character classes *)

Definition text := list ascii.

Definition txt (s : string) : text := list_ascii_of_string s.
Arguments txt s%_string.

Definition code (c : ascii) : N := N_of_ascii c.

Definition in_range (lo hi : N) (c : ascii) : bool :=
  ((lo <=? code c) && (code c <=? hi))%N.

(** The double quote, the newline and the backtick. *)
Definition dq : ascii := "034"%char.
Definition nl : ascii := "010"%char.
Definition bt : ascii := "096"%char.

(** [str.isspace] and the class [\s] of a [str] pattern agree: on
    U+0000..U+00FF they hold of TAB..CR, FS..US, SPACE, NEL and NBSP. *)
Definition is_space (c : ascii) : bool :=
  in_range 9 13 c || in_range 28 32 c || (code c =? 133)%N || (code c =? 160)%N.

(** [[0-9]]. *)
Definition is_digit (c : ascii) : bool := in_range 48 57 c.

(** [\w] of a [str] pattern: alphanumeric characters and the underscore.
    On U+0000..U+00FF the alphanumerics are the ASCII digits and letters,
    the ordinal indicators, superscript digits, micro sign, vulgar
    fractions and the Latin-1 letters (all of U+00C0..U+00FF except the
    multiplication and division signs). *)
Definition is_word (c : ascii) : bool :=
  in_range 48 57 c || in_range 65 90 c || (code c =? 95)%N || in_range 97 122 c
  || (code c =? 170)%N || in_range 178 179 c || (code c =? 181)%N
  || in_range 185 186 c || in_range 188 190 c
  || in_range 192 214 c || in_range 216 246 c || in_range 248 255 c.

(** Case folding of [re.IGNORECASE] on the characters of [text],
    U+0000..U+00FF, restricted to what can equal an ASCII pattern letter:
    there only A..Z fold onto a..z.  The characters beyond U+00FF that
    [re.IGNORECASE] also takes for an ASCII letter (U+0130 and U+0131 for
    i, U+017F for s, U+212A for k) are not characters of [text]. *)
Definition lower (c : ascii) : ascii :=
  if in_range 65 90 c then ascii_of_N (code c + 32) else c.

Definition chr_eq (icase : bool) (p c : ascii) : bool :=
  if icase then Ascii.eqb (lower p) (lower c) else Ascii.eqb p c.

Definition not_chr (a : ascii) (c : ascii) : bool := negb (Ascii.eqb a c).

(** ** The regular-expression engine

    A pattern is the sequence of items [sre] compiles it to.  The scripts
    only repeat single-character sets, always greedily, and never nest
    groups. *)

Inductive item : Type :=
  | Lit (c : ascii)
  | Rep (p : ascii -> bool) (lo : nat) (hi : option nat)
  | Bound
  | GOpen
  | GClose.

Definition pattern := list item.

Definition lits (s : string) : pattern := map Lit (txt s).
Arguments lits s%_string.

(** A match object: [whole] is [group(0)], [groups] are [group(1)], ... *)
Record rmatch : Type := { whole : text; groups : list text }.

(** Matcher state: the characters consumed so far, the offset at which the
    open group started, and the groups closed so far. *)
Record mstate : Type := { taken : text; mark : nat; caps : list text }.

Definition mstart : mstate := {| taken := []; mark := 0; caps := [] |}.

Definition push (c : ascii) (st : mstate) : mstate :=
  {| taken := taken st ++ [c]; mark := mark st; caps := caps st |}.

Definition gopen (st : mstate) : mstate :=
  {| taken := taken st; mark := length (taken st); caps := caps st |}.

Definition gclose (st : mstate) : mstate :=
  {| taken := taken st; mark := mark st;
     caps := caps st ++ [skipn (mark st) (taken st)] |}.

Definition finish (st : mstate) : rmatch :=
  {| whole := taken st; groups := caps st |}.

Definition word_at (o : option ascii) : bool :=
  match o with Some c => is_word c | None => false end.

(** [\b]: exactly one of the two neighbours is a word character; a string
    edge counts as a non-word neighbour. *)
Definition at_boundary (prev next : option ascii) : bool :=
  xorb (word_at prev) (word_at next).

Definition may_take (hi : option nat) : bool :=
  match hi with Some 0 => false | _ => true end.

Definition less (hi : option nat) : option nat :=
  match hi with Some n => Some (pred n) | None => None end.

Definition cont := option ascii -> text -> mstate -> option rmatch.

(** Greedy repetition with backtracking: take one more character while the
    set and the upper bound allow it; when the rest of the pattern fails
    after that, give the character back and try the rest from here, which
    is allowed once the lower bound is met. *)
Fixpoint rep (p : ascii -> bool) (lo : nat) (hi : option nat) (k : cont)
    (prev : option ascii) (s : text) (st : mstate) : option rmatch :=
  let stop := match lo with 0 => k prev s st | S _ => None end in
  match s with
  | c :: s' =>
      if p c && may_take hi then
        match rep p (pred lo) (less hi) k (Some c) s' (push c st) with
        | Some m => Some m
        | None => stop
        end
      else stop
  | [] => stop
  end.

Fixpoint match_items (icase : bool) (pat : pattern) : cont :=
  match pat with
  | [] => fun _ _ st => Some (finish st)
  | Lit c :: pat' => fun _ s st =>
      match s with
      | c' :: s' =>
          if chr_eq icase c c' then match_items icase pat' (Some c') s' (push c' st)
          else None
      | [] => None
      end
  | Rep p lo hi :: pat' => rep p lo hi (match_items icase pat')
  | Bound :: pat' => fun prev s st =>
      if at_boundary prev (head s) then match_items icase pat' prev s st else None
  | GOpen :: pat' => fun prev s st => match_items icase pat' prev s (gopen st)
  | GClose :: pat' => fun prev s st => match_items icase pat' prev s (gclose st)
  end.

(** [pattern.match] at a position: [prev] is the character before it. *)
Definition match_at (icase : bool) (pat : pattern) (prev : option ascii) (s : text)
  : option rmatch :=
  match_items icase pat prev s mstart.

(** The left-to-right scan of [re.sub] and [re.finditer]: at each position
    not inside the previous match the pattern is tried; a match of [n]
    characters is reported and the next [n - 1] characters are skipped.
    No pattern of the two scripts matches the empty string (lemma
    [script_match_nonempty]); the engine's special treatment of empty
    matches is not modelled, an empty match counts as no match here. *)
Inductive seg : Type :=
  | Keep (c : ascii)
  | Hit (m : rmatch).

Fixpoint scan (icase : bool) (pat : pattern) (skip : nat) (prev : option ascii)
    (s : text) : list seg :=
  match s with
  | [] => []
  | c :: s' =>
      match skip with
      | S k => scan icase pat k (Some c) s'
      | 0 =>
          match match_at icase pat prev s with
          | Some m =>
              match length (whole m) with
              | S k => Hit m :: scan icase pat k (Some c) s'
              | 0 => Keep c :: scan icase pat 0 (Some c) s'
              end
          | None => Keep c :: scan icase pat 0 (Some c) s'
          end
      end
  end.

Definition finditer (icase : bool) (pat : pattern) (s : text) : list seg :=
  scan icase pat 0 None s.

(** A replacement template: literal characters and group references. *)
Inductive rtok : Type :=
  | RLit (c : ascii)
  | RGroup (n : nat).

Definition rlits (s : string) : list rtok := map RLit (txt s).
Arguments rlits s%_string.

Definition group (n : nat) (m : rmatch) : text :=
  match n with
  | 0 => whole m
  | S i => nth i (groups m) []
  end.

Definition expand (tpl : list rtok) (m : rmatch) : text :=
  flat_map (fun t => match t with RLit c => [c] | RGroup n => group n m end) tpl.

Definition seg_out (repl : rmatch -> text) (g : seg) : text :=
  match g with Keep c => [c] | Hit m => repl m end.

(** [re.sub(pattern, repl, s)] for a callable that cannot raise. *)
Definition sub_with (icase : bool) (pat : pattern) (repl : rmatch -> text) (s : text)
  : text :=
  flat_map (seg_out repl) (finditer icase pat s).

(** [re.sub(pattern, template, s)]. *)
Definition re_sub (pat : pattern) (tpl : list rtok) (s : text) : text :=
  sub_with false pat (expand tpl) s.

(** [re.sub(pattern, template, s, flags=re.IGNORECASE)]. *)
Definition re_sub_i (pat : pattern) (tpl : list rtok) (s : text) : text :=
  sub_with true pat (expand tpl) s.

(** ** String methods of [str] *)

(** [s.split(sep)] for a one-character separator: always at least one
    piece. *)
Fixpoint split (sep : ascii) (s : text) : list text :=
  match s with
  | [] => [[]]
  | c :: s' =>
      if Ascii.eqb c sep then [] :: split sep s'
      else match split sep s' with
           | l :: ls => (c :: l) :: ls
           | [] => [[c]]
           end
  end.

(** [sep.join(pieces)]. *)
Fixpoint join (sep : ascii) (ls : list text) : text :=
  match ls with
  | [] => []
  | [l] => l
  | l :: ls' => l ++ sep :: join sep ls'
  end.

Fixpoint lstrip (s : text) : text :=
  match s with
  | c :: s' => if is_space c then lstrip s' else s
  | [] => []
  end.

Definition rstrip (s : text) : text := rev (lstrip (rev s)).

(** [s.strip()]. *)
Definition strip (s : text) : text := rstrip (lstrip s).

(** [s.startswith(p)]. *)
Fixpoint startswith (p s : text) : bool :=
  match p, s with
  | [], _ => true
  | a :: p', c :: s' => Ascii.eqb a c && startswith p' s'
  | _ :: _, [] => false
  end.

(** ** Exceptions *)

Inductive exn : Type :=
  | ValueError
  | OSError
  | OverflowError
  | FileNotFoundError (path : string)
  | PermissionError (path : string)
  | IsADirectoryError (path : string).

Inductive result (A : Type) : Type :=
  | Ok (a : A)
  | Raise (e : exn).
Arguments Ok {A} a.
Arguments Raise {A} e.

#[global] Instance result_ret : MRet result := fun A a => Ok a.

#[global] Instance result_bind : MBind result := fun A B f r =>
  match r with Ok a => f a | Raise e => Raise e end.

(** ** [int(str)]

    Base-10 parsing as CPython does it: white space around the number is
    dropped (the C [isspace] set plus NEL and NBSP), one sign is allowed,
    digits may be separated by single underscores, and more than 4300
    digits are refused.  Every failure is a [ValueError]. *)

Definition int_space (c : ascii) : bool :=
  in_range 9 13 c || (code c =? 32)%N || (code c =? 133)%N || (code c =? 160)%N.

Fixpoint drop_while (p : ascii -> bool) (s : text) : text :=
  match s with
  | c :: s' => if p c then drop_while p s' else s
  | [] => []
  end.

Definition digit_val (c : ascii) : Z := Z.of_N (code c) - 48.

(** Digits with single underscores between them; [after_digit] tells
    whether the previous character was a digit. *)
Fixpoint int_digits (after_digit : bool) (acc : Z) (count : nat) (s : text)
  : option (Z * nat) :=
  match s with
  | [] => if after_digit then Some (acc, count) else None
  | c :: s' =>
      if is_digit c then int_digits true (10 * acc + digit_val c) (S count) s'
      else if Ascii.eqb c "_" && after_digit then
        match s' with
        | [] => None
        | _ :: _ => int_digits false acc count s'
        end
      else None
  end.

Definition max_str_digits : nat := 4300.

Definition py_int (s : text) : result Z :=
  let body := rev (drop_while int_space (rev (drop_while int_space s))) in
  let '(neg, ds) :=
    match body with
    | "-"%char :: r => (true, r)
    | "+"%char :: r => (false, r)
    | _ => (false, body)
    end in
  match ds with
  | [] => Raise ValueError
  | c :: _ =>
      if is_digit c then
        match int_digits false 0 0 ds with
        | Some (n, count) =>
            if Nat.ltb max_str_digits count then Raise ValueError
            else Ok (if neg then - n else n)%Z
        | None => Raise ValueError
        end
      else Raise ValueError
  end.

(** ** [datetime]

    The local time zone is part of the environment: [utcoffset t] is the
    offset from UTC, in seconds, that the zone database gives for the
    instant [t].  Calendar fields follow the proleptic Gregorian calendar,
    as C's [localtime] computes them. *)

Local Open Scope Z_scope.

Record datetime : Type :=
  { year : Z; month : Z; day : Z; hour : Z; minute : Z; second : Z }.

(** Days since 1970-01-01 to (year, month, day). *)
Definition civil_from_days (z0 : Z) : Z * Z * Z :=
  let z := z0 + 719468 in
  let era := z / 146097 in
  let doe := z - era * 146097 in
  let yoe := (doe - doe / 1460 + doe / 36524 - doe / 146096) / 365 in
  let y := yoe + era * 400 in
  let doy := doe - (365 * yoe + yoe / 4 - yoe / 100) in
  let mp := (5 * doy + 2) / 153 in
  let d := doy - (153 * mp + 2) / 5 + 1 in
  let m := if mp <? 10 then mp + 3 else mp - 9 in
  (if m <=? 2 then y + 1 else y, m, d).

(** The broken-down local time of the instant [t]. *)
Definition localtime (utcoffset : Z -> Z) (t : Z) : datetime :=
  let l := t + utcoffset t in
  let '(y, m, d) := civil_from_days (l / 86400) in
  let r := l mod 86400 in
  {| year := y; month := m; day := d;
     hour := r / 3600; minute := (r mod 3600) / 60; second := r mod 60 |}.

(** The platform has a 64-bit [time_t]: a value outside it is an
    [OverflowError]. *)
Definition time_t_of (t : Z) : result Z :=
  if (t <? - 2 ^ 63) || (2 ^ 63 <=? t) then Raise OverflowError else Ok t.

(** C's [localtime_r] as CPython calls it: an [OSError] when the year does
    not fit the [int] field [tm_year]. *)
Definition localtime_r (utcoffset : Z -> Z) (t : Z) : result datetime :=
  let dt := localtime utcoffset t in
  if (year dt - 1900 <? - 2 ^ 31) || (2 ^ 31 <=? year dt - 1900) then Raise OSError
  else Ok dt.

(** [utc_to_seconds] of the datetime module on the broken-down local time
    of [t]: a [ValueError] when the year is outside 1..9999, otherwise the
    count of local seconds.  The module only subtracts such counts from
    each other; they are taken from 1970 here. *)
Definition utc_to_seconds (utcoffset : Z -> Z) (t : Z) (dt : datetime) : result Z :=
  if (year dt <? 1) || (9999 <? year dt) then Raise ValueError
  else Ok (t + utcoffset t).

(** [local(u)] of the datetime module. *)
Definition local_seconds (utcoffset : Z -> Z) (u : Z) : result Z :=
  t ← time_t_of u;
  dt ← localtime_r utcoffset t;
  utc_to_seconds utcoffset t dt.

Definition max_fold_seconds : Z := 24 * 3600.

(** [datetime.fromtimestamp(t)] for an integer [t], as CPython computes it
    with glibc: the local time of [t], then the two probes that detect a
    repeated interval (one day before [t], and at the transition when
    there is one).  The probes only matter through the exceptions they can
    raise: the [fold] attribute they set is not printed by [strftime]. *)
Definition fromtimestamp (utcoffset : Z -> Z) (t : Z) : result datetime :=
  timet ← time_t_of t;
  dt ← localtime_r utcoffset timet;
  result_seconds ← utc_to_seconds utcoffset timet dt;
  probe_seconds ← local_seconds utcoffset (timet - max_fold_seconds);
  let transition := result_seconds - probe_seconds - max_fold_seconds in
  _ ← (if transition <? 0 then local_seconds utcoffset (timet + transition)
       else Ok probe_seconds);
  mret dt.

Definition digit_chr (n : Z) : ascii := ascii_of_N (Z.to_N (48 + n)).

(** Decimal digits of a non-negative number, most significant first;
    [fuel] bounds the number of digits. *)
Fixpoint dec_digits (fuel : nat) (n : Z) (acc : text) : text :=
  match fuel with
  | O => acc
  | S f =>
      let acc' := digit_chr (n mod 10) :: acc in
      if n <? 10 then acc' else dec_digits f (n / 10) acc'
  end.

(** [str(n)] for a non-negative number. *)
Definition str_of_Z (n : Z) : text := dec_digits (S (Z.to_nat (Z.log2 n))) n [].

(** C's [%02d] for a non-negative number: at least two digits. *)
Definition pad2 (n : Z) : text :=
  if n <? 10 then "0"%char :: str_of_Z n else str_of_Z n.

(** [dt.strftime('%Y-%m-%d %H:%M:%S')] with glibc, which prints [%Y]
    without padding. *)
Definition strftime (dt : datetime) : text :=
  str_of_Z (year dt) ++ "-"%char :: pad2 (month dt) ++ "-"%char :: pad2 (day dt)
  ++ " "%char :: pad2 (hour dt) ++ ":"%char :: pad2 (minute dt)
  ++ ":"%char :: pad2 (second dt).

Local Close Scope Z_scope.

(** [re.sub(pattern, function, s)] for a callable that may raise: the
    callable runs on the matches from left to right and the first
    exception leaves [re.sub]. *)
Fixpoint sub_segs (repl : rmatch -> result text) (gs : list seg) : result text :=
  match gs with
  | [] => Ok []
  | Keep c :: gs' => r ← sub_segs repl gs'; mret (c :: r)
  | Hit m :: gs' => h ← repl m; r ← sub_segs repl gs'; mret (h ++ r)
  end.

Definition sub_call (pat : pattern) (repl : rmatch -> result text) (s : text)
  : result text :=
  sub_segs repl (finditer false pat s).

(** ** The environment of a run *)

(** How the write to a path fails.  [AtOpen e]: [open(path, 'w')] raises
    [e] and nothing is created or changed; [e] is [PermissionError] for a
    protected file, [FileNotFoundError] for a missing directory,
    [IsADirectoryError] for a directory, [OSError] otherwise.
    [AfterOpen kept e]: [open] creates or truncates the file, and [write]
    or the closing of the file raises [e] when only the first [kept]
    characters have reached it. *)
Inductive write_failure : Type :=
  | AtOpen (e : exn)
  | AfterOpen (kept : nat) (e : exn).

(** [files]: the text files by path, as [read()] returns them; [locked]:
    the paths that cannot be written, and [failure]: how the write to such
    a path fails; [clock]: the epoch second [datetime.now()] reads;
    [utcoffset]: the local time zone. *)
Record world : Type :=
  { files : gmap string text;
    locked : gset string;
    failure : string -> write_failure;
    clock : Z;
    utcoffset : Z -> Z }.

(** What a function call leaves behind: the files, the lines printed on
    standard output, and [Ok tt] or the exception that left the call. *)
Record effect : Type :=
  { files_after : gmap string text;
    printed : list text;
    ended : result unit }.

(** What a process leaves behind; [reported] is the exception that [main]
    printed as [Error: ...] on standard error. *)
Record process : Type :=
  { fs : gmap string text;
    stdout : list text;
    reported : option exn;
    exit_code : Z }.

(** [open(path, 'r').read()]. *)
Definition read_file (w : world) (path : string) : result text :=
  match files w !! path with
  | Some content => Ok content
  | None => Raise (FileNotFoundError path)
  end.

(** [with open(path, 'w') as f: f.write(content)]: the files it leaves
    behind, and [Ok tt] or the exception that left the block. *)
Definition write_file (w : world) (path : string) (content : text)
  : gmap string text * result unit :=
  if decide (path ∈ locked w) then
    match failure w path with
    | AtOpen e => (files w, Raise e)
    | AfterOpen kept e => (<[path := firstn kept content]> (files w), Raise e)
    end
  else (<[path := content]> (files w), Ok tt).

(** ** Rules that both scripts contain *)

Definition name_chr (c : ascii) : bool :=
  negb (Ascii.eqb c dq || is_space c || Ascii.eqb c "("%char).

(** The pattern [INSERT INTO ([^Q\s(]+)] and its replacement
    [INSERT INTO Q\1Q], where Q stands for the double quote. *)
Definition insert_pattern : pattern :=
  lits "INSERT INTO " ++ [GOpen; Rep name_chr 1 None; GClose].

Definition insert_template : list rtok :=
  rlits "INSERT INTO " ++ [RLit dq; RGroup 1; RLit dq].

Definition quote_table_names : text -> text := re_sub insert_pattern insert_template.

(** [VALUES\(NULL,] becomes [VALUES(DEFAULT,]. *)
Definition null_to_default : text -> text :=
  re_sub (lits "VALUES(NULL,") (rlits "VALUES(DEFAULT,").

(** ** convert-data-only.py *)

Module DataOnly.

(** [\b(1[0-9]{9,12})\b]. *)
Definition ts_pattern : pattern :=
  [Bound; GOpen; Lit "1"; Rep is_digit 9 (Some 12); GClose; Bound].

Definition quoted (s : text) : text := "'"%char :: s ++ ["'"%char].

Definition unix_timestamp_to_postgres (utcoffset : Z -> Z) (m : rmatch) : result text :=
  let timestamp := group 1 m in
  let body :=
    timestamp_int ← py_int timestamp;
    let timestamp_int :=
      if (10 ^ 10 <? timestamp_int)%Z then (timestamp_int / 1000)%Z else timestamp_int in
    dt ← fromtimestamp utcoffset timestamp_int;
    mret (quoted (strftime dt)) in
  match body with
  | Raise ValueError | Raise OSError => Ok (quoted timestamp)
  | r => r
  end.

Definition convert_timestamps (utcoffset : Z -> Z) : text -> result text :=
  sub_call ts_pattern (unix_timestamp_to_postgres utcoffset).

(** The six boolean rules, in the order of the script. *)
Definition convert_booleans (content : text) : text :=
  let content := re_sub (lits ",0,") (rlits ",FALSE,") content in
  let content := re_sub (lits ",1,") (rlits ",TRUE,") content in
  let content := re_sub (lits "(0,") (rlits "(FALSE,") content in
  let content := re_sub (lits "(1,") (rlits "(TRUE,") content in
  let content := re_sub (lits ",0)") (rlits ",FALSE)") content in
  let content := re_sub (lits ",1)") (rlits ",TRUE)") content in
  content.

(** [QQ([^Q]+)QQ] becomes [Q\1Q], where Q stands for the double quote. *)
Definition undouble_pattern : pattern :=
  [Lit dq; Lit dq; GOpen; Rep (not_chr dq) 1 None; GClose; Lit dq; Lit dq].

Definition undouble_quotes : text -> text :=
  re_sub undouble_pattern [RLit dq; RGroup 1; RLit dq].

Definition is_insert_line (line : text) : bool :=
  startswith (txt "INSERT INTO") (strip line).

Definition insert_lines (content : text) : list text :=
  filter is_insert_line (split nl content).

(** The rewriting of the joined INSERT lines (the [re.sub] calls). *)
Definition rewrite (utcoffset : Z -> Z) (content : text) : result text :=
  let content := quote_table_names content in
  content ← convert_timestamps utcoffset content;
  let content := convert_booleans content in
  let content := null_to_default content in
  let content := undouble_quotes content in
  mret content.

Definition preamble (generated : text) : text :=
  txt "-- Data import for PostgreSQL (converted from SQLite)" ++ [nl]
  ++ txt "-- Generated on " ++ generated ++ [nl]
  ++ txt "SET client_encoding = 'UTF8';" ++ [nl]
  ++ txt "SET standard_conforming_strings = on;" ++ [nl]
  ++ [nl]
  ++ txt "-- Temporarily disable foreign key checks for data import" ++ [nl]
  ++ txt "SET session_replication_role = replica;" ++ [nl]
  ++ [nl].

Definition postamble : text :=
  [nl; nl] ++ txt "-- Re-enable foreign key checks" ++ [nl]
  ++ txt "SET session_replication_role = DEFAULT;" ++ [nl].

(** [datetime.now().strftime('%Y-%m-%d %H:%M:%S')]. *)
Definition now_text (w : world) : result text :=
  dt ← fromtimestamp (utcoffset w) (clock w); mret (strftime dt).

Definition no_inserts_message : text := txt "No INSERT statements found in input file".

Definition converted_message (n : nat) (input_file output_file : string) : text :=
  txt "Converted " ++ str_of_Z (Z.of_nat n) ++ txt " INSERT statements from "
  ++ txt input_file ++ txt " to " ++ txt output_file.

Definition raised (w : world) (e : exn) : effect :=
  {| files_after := files w; printed := []; ended := Raise e |}.

Definition convert_sqlite_data_to_postgres (w : world) (input_file output_file : string)
  : effect :=
  match read_file w input_file with
  | Raise e => raised w e
  | Ok content =>
      let lines := split nl content in
      let insert_lines := filter is_insert_line lines in
      match insert_lines with
      | [] =>
          {| files_after := files w; printed := [no_inserts_message]; ended := Ok tt |}
      | _ :: _ =>
          let content := join nl insert_lines in
          match rewrite (utcoffset w) content with
          | Raise e => raised w e
          | Ok content =>
              match now_text w with
              | Raise e => raised w e
              | Ok generated =>
                  let postgres_content := preamble generated ++ content ++ postamble in
                  match write_file w output_file postgres_content with
                  | (files', Raise e) =>
                      {| files_after := files'; printed := []; ended := Raise e |}
                  | (files', Ok _) =>
                      {| files_after := files';
                         printed :=
                           [converted_message (length insert_lines) input_file output_file];
                         ended := Ok tt |}
                  end
              end
          end
      end
  end.

Definition success_message : text := txt "Data conversion completed successfully!".

(** [main] after [argparse] has produced the two positional arguments. *)
Definition main (w : world) (input_file output_file : string) : process :=
  let r := convert_sqlite_data_to_postgres w input_file output_file in
  match ended r with
  | Ok _ =>
      {| fs := files_after r; stdout := printed r ++ [success_message];
         reported := None; exit_code := 0 |}
  | Raise e =>
      {| fs := files_after r; stdout := printed r; reported := Some e; exit_code := 1 |}
  end.

End DataOnly.

(** ** convert-to-postgres.py *)

Module ToPostgres.

(** [PRAGMA[^;]+;] is deleted. *)
Definition pragma_pattern : pattern :=
  lits "PRAGMA" ++ [Rep (not_chr ";") 1 None; Lit ";"].

Definition strip_pragmas : text -> text := re_sub pragma_pattern [].

(** A backtick, [([^`]+)], a backtick: the backticks become double
    quotes. *)
Definition backtick_pattern : pattern :=
  [Lit bt; GOpen; Rep (not_chr bt) 1 None; GClose; Lit bt].

Definition requote_backticks : text -> text :=
  re_sub backtick_pattern [RLit dq; RGroup 1; RLit dq].

(** [\bword\b]. *)
Definition whole_word (s : string) : pattern := Bound :: lits s ++ [Bound].
Arguments whole_word s%_string.

(** The four type keywords, matched without regard to case. *)
Definition upcase_types (content : text) : text :=
  let content := re_sub_i (whole_word "integer") (rlits "INTEGER") content in
  let content := re_sub_i (whole_word "text") (rlits "TEXT") content in
  let content := re_sub_i (whole_word "real") (rlits "REAL") content in
  let content := re_sub_i (whole_word "numeric") (rlits "NUMERIC") content in
  content.

Definition autoincrement_pattern : pattern :=
  whole_word "INTEGER PRIMARY KEY AUTOINCREMENT".

Definition serial_primary_key : text -> text :=
  re_sub_i autoincrement_pattern (rlits "SERIAL PRIMARY KEY").

Definition id_serial : text -> text :=
  re_sub (whole_word "id SERIAL PRIMARY KEY") (rlits "id SERIAL PRIMARY KEY").

Definition default_parenthesised : text -> text :=
  re_sub (lits "DEFAULT (CURRENT_TIMESTAMP)") (rlits "DEFAULT CURRENT_TIMESTAMP").

Definition default_plain : text -> text :=
  re_sub (lits "DEFAULT CURRENT_TIMESTAMP") (rlits "DEFAULT CURRENT_TIMESTAMP").

Definition upcase_booleans (content : text) : text :=
  let content := re_sub (whole_word "false") (rlits "FALSE") content in
  let content := re_sub (whole_word "true") (rlits "TRUE") content in
  content.

(** [INSERT INTO Q([^Q]+)Q VALUES\(NULL,] becomes
    [INSERT INTO Q\1Q VALUES(DEFAULT,], where Q stands for the double
    quote. *)
Definition insert_null_pattern : pattern :=
  lits "INSERT INTO " ++ [Lit dq; GOpen; Rep (not_chr dq) 1 None; GClose; Lit dq]
  ++ lits " VALUES(NULL,".

Definition insert_null_template : list rtok :=
  rlits "INSERT INTO " ++ [RLit dq; RGroup 1; RLit dq] ++ rlits " VALUES(DEFAULT,".

Definition insert_null_to_default : text -> text :=
  re_sub insert_null_pattern insert_null_template.

(** [REFERENCES ([^(]+)\(([^)]+)\)] becomes [REFERENCES Q\1Q(Q\2Q)]. *)
Definition references_pattern : pattern :=
  lits "REFERENCES " ++ [GOpen; Rep (not_chr "(") 1 None; GClose; Lit "("%char;
                         GOpen; Rep (not_chr ")") 1 None; GClose; Lit ")"%char].

Definition references_template : list rtok :=
  rlits "REFERENCES " ++ [RLit dq; RGroup 1; RLit dq; RLit "("%char;
                          RLit dq; RGroup 2; RLit dq; RLit ")"%char].

Definition quote_references : text -> text :=
  re_sub references_pattern references_template.

(** [\n\s*\n] becomes two newlines. *)
Definition blank_lines_pattern : pattern := [Lit nl; Rep is_space 0 None; Lit nl].

Definition collapse_blank_lines : text -> text :=
  re_sub blank_lines_pattern [RLit nl; RLit nl].

(** The [re.sub] calls of [convert_sqlite_to_postgres], in order. *)
Definition rewrite (content : text) : text :=
  let content := strip_pragmas content in
  let content := requote_backticks content in
  let content := upcase_types content in
  let content := serial_primary_key content in
  let content := id_serial content in
  let content := default_parenthesised content in
  let content := default_plain content in
  let content := upcase_booleans content in
  let content := quote_table_names content in
  let content := insert_null_to_default content in
  let content := null_to_default content in
  let content := quote_references content in
  let content := collapse_blank_lines content in
  content.

Definition preamble : text :=
  txt "-- Converted from SQLite to PostgreSQL" ++ [nl]
  ++ txt "SET client_encoding = 'UTF8';" ++ [nl]
  ++ txt "SET standard_conforming_strings = on;" ++ [nl]
  ++ [nl].

Definition converted_message (input_file output_file : string) : text :=
  txt "Converted " ++ txt input_file ++ txt " to " ++ txt output_file.

Definition raised (w : world) (e : exn) : effect :=
  {| files_after := files w; printed := []; ended := Raise e |}.

Definition convert_sqlite_to_postgres (w : world) (input_file output_file : string)
  : effect :=
  match read_file w input_file with
  | Raise e => raised w e
  | Ok content =>
      let content := rewrite content in
      match write_file w output_file (preamble ++ content) with
      | (files', Raise e) =>
          {| files_after := files'; printed := []; ended := Raise e |}
      | (files', Ok _) =>
          {| files_after := files';
             printed := [converted_message input_file output_file];
             ended := Ok tt |}
      end
  end.

Definition success_message : text := txt "Conversion completed successfully!".

Definition main (w : world) (input_file output_file : string) : process :=
  let r := convert_sqlite_to_postgres w input_file output_file in
  match ended r with
  | Ok _ =>
      {| fs := files_after r; stdout := printed r ++ [success_message];
         reported := None; exit_code := 0 |}
  | Raise e =>
      {| fs := files_after r; stdout := printed r; reported := Some e; exit_code := 1 |}
  end.

End ToPostgres.

(** * Vocabulary of the statements *)

(** ** The engine *)

(** The state after consuming [u]. *)
Definition pushes (u : text) (st : mstate) : mstate :=
  {| taken := taken st ++ u; mark := mark st; caps := caps st |}.

(** The character before the position reached after consuming [u]. *)
Fixpoint last_of (prev : option ascii) (u : text) : option ascii :=
  match u with
  | [] => prev
  | c :: u' => last_of (Some c) u'
  end.

(** A continuation only adds to what has been consumed, and what it adds
    is a prefix of its input. *)
Definition extends (k : cont) : Prop :=
  forall prev s st m, k prev s st = Some m ->
    exists u s', s = u ++ s' /\ whole m = taken st ++ u.

(** [lit_prefix icase w s]: the prefix of [s] that equals [w] (up to case
    when [icase]) and what follows it. *)
Fixpoint lit_prefix (icase : bool) (w s : text) : option (text * text) :=
  match w, s with
  | [], _ => Some ([], s)
  | a :: w', c :: s' =>
      if chr_eq icase a c then
        match lit_prefix icase w' s' with
        | Some (u, r) => Some (c :: u, r)
        | None => None
        end
      else None
  | _ :: _, [] => None
  end.

(** [n] repetitions respect the upper bound [hi]. *)
Definition fits (hi : option nat) (n : nat) : Prop :=
  match hi with Some h => n <= h | None => True end.

(** [s] is empty or starts outside the set [p]. *)
Definition stops (p : ascii -> bool) (s : text) : Prop :=
  match s with c :: _ => p c = false | [] => True end.

(** The longest prefix of [s] inside the set [p], and what follows it. *)
Fixpoint span (p : ascii -> bool) (s : text) : text * text :=
  match s with
  | c :: s' => if p c then let '(ds, r) := span p s' in (c :: ds, r) else ([], s)
  | [] => ([], [])
  end.

(** No literal and no set of [pat] accepts the character [c]. *)
Definition rejects (icase : bool) (c : ascii) (pat : pattern) : Prop :=
  Forall (fun it => match it with
                    | Lit a => chr_eq icase a c = false
                    | Rep p _ _ => p c = false
                    | _ => True
                    end) pat.

(** The first item of [pat] that can consume takes at least one character,
    so [pat] cannot match the empty string. *)
Fixpoint consumes (pat : pattern) : bool :=
  match pat with
  | [] => false
  | Lit _ :: _ => true
  | Rep _ lo _ :: _ => negb (Nat.eqb lo 0)
  | _ :: pat' => consumes pat'
  end.

(** Every pattern the two scripts pass to [re.sub]. *)
Definition script_patterns : list pattern :=
  [ insert_pattern; DataOnly.ts_pattern;
    lits ",0,"; lits ",1,"; lits "(0,"; lits "(1,"; lits ",0)"; lits ",1)";
    lits "VALUES(NULL,"; DataOnly.undouble_pattern;
    ToPostgres.pragma_pattern; ToPostgres.backtick_pattern;
    ToPostgres.whole_word "integer"; ToPostgres.whole_word "text";
    ToPostgres.whole_word "real"; ToPostgres.whole_word "numeric";
    ToPostgres.autoincrement_pattern; ToPostgres.whole_word "id SERIAL PRIMARY KEY";
    lits "DEFAULT (CURRENT_TIMESTAMP)"; lits "DEFAULT CURRENT_TIMESTAMP";
    ToPostgres.whole_word "false"; ToPostgres.whole_word "true";
    ToPostgres.insert_null_pattern; ToPostgres.references_pattern;
    ToPostgres.blank_lines_pattern ].

(** ** The Schema-and-Data Converter *)

(** The pipeline of [convert_sqlite_to_postgres] with the two rules that
    replace a text by itself left out. *)
Definition rewrite_without_identity_rules (content : text) : text :=
  let content := ToPostgres.strip_pragmas content in
  let content := ToPostgres.requote_backticks content in
  let content := ToPostgres.upcase_types content in
  let content := ToPostgres.serial_primary_key content in
  let content := ToPostgres.default_parenthesised content in
  let content := ToPostgres.upcase_booleans content in
  let content := quote_table_names content in
  let content := ToPostgres.insert_null_to_default content in
  let content := null_to_default content in
  let content := ToPostgres.quote_references content in
  let content := ToPostgres.collapse_blank_lines content in
  content.

Definition autoincrement_idiom : text := txt "INTEGER PRIMARY KEY AUTOINCREMENT".

(** [u] is [w] up to the case of letters. *)
Definition same_ignoring_case (w u : text) : Prop :=
  Forall2 (fun a c => chr_eq true a c = true) w u.

(** An occurrence of [w] could run from a non-word character at offset
    [j] of [w] into another occurrence of [w] only if [w] has a non-word
    character at [j] and goes on after it the way it begins. *)
Definition junction_possible (w : text) (j : nat) : bool :=
  negb (is_word (nth j w "000"%char))
  && match skipn (S j) w with
     | [] => true
     | a :: _ => Ascii.eqb (lower a) (lower (nth 0 w "000"%char))
     end.

(** ** Timestamps *)

(** The digit sequences the timestamp pattern takes: a 1 followed by 9 to
    12 digits. *)
Definition ts_digits (d : text) : bool :=
  match d with
  | "1"%char :: ds => forallb is_digit ds && (9 <=? length ds) && (length ds <=? 12)
  | _ => false
  end.

(** The number a digit sequence denotes. *)
Fixpoint digits_value (acc : Z) (d : text) : Z :=
  match d with
  | [] => acc
  | c :: d' => digits_value (10 * acc + digit_val c)%Z d'
  end.

(** The epoch second a digit sequence stands for: values above 10^10 are
    milliseconds. *)
Definition epoch_seconds (d : text) : Z :=
  let n := digits_value 0 d in
  if (10 ^ 10 <? n)%Z then (n / 1000)%Z else n.

(** The text has the form YYYY-MM-DD HH:MM:SS. *)
Definition timestamp_shape (s : text) : bool :=
  match s with
  | [y1; y2; y3; y4; a; m1; m2; b; d1; d2; c; h1; h2; e; n1; n2; f; s1; s2] =>
      forallb is_digit [y1; y2; y3; y4; m1; m2; d1; d2; h1; h2; n1; n2; s1; s2]
      && forallb (Ascii.eqb "-") [a; b] && Ascii.eqb " " c && forallb (Ascii.eqb ":") [e; f]
  | _ => false
  end.

(** The text is two, respectively four, digits. *)
Definition two_digits (s : text) : bool :=
  match s with
  | [a; b] => is_digit a && is_digit b
  | _ => false
  end.

Definition four_digits (s : text) : bool :=
  match s with
  | [a; b; c; d] => is_digit a && is_digit b && is_digit c && is_digit d
  | _ => false
  end.

(** [f] holds of the [n] integers from [z] on. *)
Fixpoint all_from (n : nat) (z : Z) (f : Z -> bool) : bool :=
  match n with
  | 0 => true
  | S n' => f z && all_from n' (z + 1)%Z f
  end.

(** The text ends, respectively starts, at a word boundary for whatever
    is put next to it. *)
Definition ends_nonword (s : text) : Prop := word_at (last_of None s) = false.

Definition starts_nonword (s : text) : Prop := word_at (head s) = false.

(** The replacement the callback produces when it does not raise. *)
Definition ts_replacement (tz : Z -> Z) (m : rmatch) : text :=
  match DataOnly.unix_timestamp_to_postgres tz m with
  | Ok t => t
  | Raise _ => []
  end.

(** ** Lines of the data-only output *)

(** The text without its double quotes. *)
Definition unquote (s : text) : text := filter (fun c => negb (Ascii.eqb c dq)) s.

(** What the rules before the doubled-quote cleanup make of one line. *)
Definition rewrite_line (tz : Z -> Z) (line : text) : text :=
  null_to_default
    (DataOnly.convert_booleans
       (sub_with false DataOnly.ts_pattern (ts_replacement tz) (quote_table_names line))).

(** ** Runs and sample inputs *)

(** Two runs start from the same files. *)
Definition same_files (w1 w2 : world) : Prop :=
  files w1 = files w2 /\ locked w1 = locked w2.

(** The claim of determinism for a converter: whatever else differs
    between two runs, the same files going in give the same files coming
    out. *)
Definition input_determined (run : world -> string -> string -> process) : Prop :=
  forall w1 w2 input_file output_file,
    same_files w1 w2 ->
    fs (run w1 input_file output_file) = fs (run w2 input_file output_file).

(** A dump with one INSERT line, and a dump without INSERT lines (its
    second line only mentions one in a comment). *)
Definition one_insert : text := txt "INSERT INTO t VALUES(1);".

Definition no_insert : text :=
  txt "CREATE TABLE t (id INTEGER);" ++ nl :: txt "-- INSERT INTO t VALUES(1);".

(** A dump with a table definition, two INSERT lines (one indented) and a
    comment. *)
Definition small_dump : text :=
  txt "CREATE TABLE t (a, b);" ++ nl :: txt "INSERT INTO t VALUES(1,0);" ++ nl
  :: txt "-- rows of u" ++ nl :: txt "  INSERT INTO u VALUES(NULL,1609459200);".

(** The environment in which [dump.sql] holds [content], every path can
    be written, the clock reads [now] and the time zone is [offset]. *)
Definition world_at (content : text) (now : Z) (offset : Z -> Z) : world :=
  {| files := {[ "dump.sql"%string := content ]};
     locked := ∅;
     failure := fun path => AtOpen (PermissionError path);
     clock := now;
     utcoffset := offset |}.

(** ** Keywords *)

(** The text [w] occurs in [s]. *)
Fixpoint occurs (w s : text) : bool :=
  startswith w s || match s with [] => false | _ :: s' => occurs w s' end.

(** No proper, non-empty end of [w] is also a beginning of [w]: two
    occurrences of [w] cannot overlap. *)
Definition border_free (w : text) : bool :=
  forallb (fun k => negb (startswith (skipn k w) w)) (seq 1 (length w - 1)).

(** ** What a rule leaves alone *)

(** The text with its backticks turned into double quotes. *)
Definition backticks_as_quotes (s : text) : text :=
  map (fun c => if Ascii.eqb c bt then dq else c) s.

(** The text without its white space. *)
Definition unspace (s : text) : text := filter (fun c => negb (is_space c)) s.

(** ** Further runs and rules *)

(** The environment of [world_at] in which the write to [out.sql] fails
    the way [how] says. *)
Definition world_locked (content : text) (how : write_failure) (now : Z)
    (offset : Z -> Z) : world :=
  {| files := {[ "dump.sql"%string := content ]};
     locked := {[ "out.sql"%string ]};
     failure := fun _ => how;
     clock := now;
     utcoffset := offset |}.

(** The environment of [world_at] with a second file, [notes.txt], beside
    the dump. *)
Definition world_beside (content notes : text) (now : Z) (offset : Z -> Z) : world :=
  {| files := {[ "dump.sql"%string := content; "notes.txt"%string := notes ]};
     locked := ∅;
     failure := fun path => AtOpen (PermissionError path);
     clock := now;
     utcoffset := offset |}.

(** The exception a failing write raises, and the text it leaves under
    the path: none when [open] failed, the beginning of the content when
    the failure came later. *)
Definition error_of (how : write_failure) : exn :=
  match how with AtOpen e | AfterOpen _ e => e end.

Definition left_behind (how : write_failure) (content : text) : option text :=
  match how with
  | AtOpen _ => None
  | AfterOpen kept _ => Some (firstn kept content)
  end.

(** The file system [m] after a run that stored [t] under [path]
    ([Some t]) or wrote nothing ([None]). *)
Definition stored (path : string) (upd : option text) (m : gmap string text)
  : gmap string text :=
  match upd with Some t => <[path := t]> m | None => m end.

(** Two runs, in the environments [w1] and [w2], came out alike: both
    stored the same text under the output path or both wrote nothing, no
    other file was touched, and they printed the same lines, reported the
    same error and ended with the same exit code. *)
Definition same_outcome (output_file : string) (w1 w2 : world) (p1 p2 : process) : Prop :=
  (exists upd, fs p1 = stored output_file upd (files w1) /\
               fs p2 = stored output_file upd (files w2)) /\
  stdout p1 = stdout p2 /\ reported p1 = reported p2 /\ exit_code p1 = exit_code p2.

(** The line begins, after white space, with INSERT INTO. *)
Definition insert_statement (line : text) : Prop :=
  exists ws rest, Forall (fun c => is_space c = true) ws /\
                  line = ws ++ txt "INSERT INTO" ++ rest.

(** [kept] holds, in their order, exactly the members of [ls] that
    satisfy [P]. *)
Inductive selection {A : Type} (P : A -> Prop) : list A -> list A -> Prop :=
  | selection_nil : selection P [] []
  | selection_keep x ls kept :
      P x -> selection P ls kept -> selection P (x :: ls) (x :: kept)
  | selection_drop x ls kept :
      ~ P x -> selection P ls kept -> selection P (x :: ls) kept.

(** [b] is [a], or an upper-case ASCII letter written in its place. *)
Definition upcased (a b : ascii) : Prop := b = a \/ in_range 65 90 b = true.

(** The rules of [ToPostgres.rewrite] that come after the rule for the
    autoincrement idiom. *)
Definition rules_after_autoincrement (content : text) : text :=
  let content := ToPostgres.id_serial content in
  let content := ToPostgres.default_parenthesised content in
  let content := ToPostgres.default_plain content in
  let content := ToPostgres.upcase_booleans content in
  let content := quote_table_names content in
  let content := ToPostgres.insert_null_to_default content in
  let content := null_to_default content in
  let content := ToPostgres.quote_references content in
  let content := ToPostgres.collapse_blank_lines content in
  content.

(** [ToPostgres.rewrite] without the rule for [INSERT INTO Q..Q VALUES(NULL,]. *)
Definition rewrite_without_insert_null (content : text) : text :=
  let content := ToPostgres.strip_pragmas content in
  let content := ToPostgres.requote_backticks content in
  let content := ToPostgres.upcase_types content in
  let content := ToPostgres.serial_primary_key content in
  let content := ToPostgres.id_serial content in
  let content := ToPostgres.default_parenthesised content in
  let content := ToPostgres.default_plain content in
  let content := ToPostgres.upcase_booleans content in
  let content := quote_table_names content in
  let content := null_to_default content in
  let content := ToPostgres.quote_references content in
  let content := ToPostgres.collapse_blank_lines content in
  content.

(** The text up to the VALUES keyword of an INSERT statement for the
    quoted table [name]. *)
Definition insert_head (name : text) : text :=
  txt "INSERT INTO " ++ dq :: name ++ [dq; " "%char].

(** The word the boolean rules write for the digit [d]. *)
Definition boolean_word (d : ascii) : text :=
  if Ascii.eqb d "0" then txt "FALSE" else txt "TRUE".

(** ** Tactics *)

(** Case analysis on the eight bits of a character. *)
Ltac each_char c :=
  destruct c as [[] [] [] [] [] [] [] []]; vm_compute in *; try congruence.

(** Proves that a character does not occur in a literal text. *)
Ltac no_nl :=
  cbn [txt list_ascii_of_string]; rewrite ?elem_of_cons, elem_of_nil;
  let H := fresh in intros H; repeat (destruct H as [H|H]; [discriminate H|]); done.

(** * Properties of the engine *)

Section Engine.

Implicit Types (k : cont) (pat : pattern) (s u : text) (st : mstate)
  (prev : option ascii) (m : rmatch).

Lemma pushes_nil st : pushes [] st = st.
Proof. destruct st; unfold pushes; simpl. by rewrite app_nil_r. Qed.

Lemma pushes_cons c u st : pushes u (push c st) = pushes (c :: u) st.
Proof. unfold pushes, push; simpl. by rewrite <- app_assoc. Qed.

Lemma last_of_app prev u v : last_of prev (u ++ v) = last_of (last_of prev u) v.
Proof. revert prev; induction u; intros; simpl; auto. Qed.

Lemma last_of_snoc prev u c : last_of prev (u ++ [c]) = Some c.
Proof. by rewrite last_of_app. Qed.

(** ** What a match consumes is a prefix of the input *)

Lemma rep_extends p k : extends k -> forall lo hi, extends (rep p lo hi k).
Proof.
  intros Hk lo hi prev s. revert lo hi prev.
  induction s as [|c s IH]; intros lo hi prev st m H; simpl in H.
  - destruct lo; [by eapply Hk | discriminate].
  - assert (Hstop : match lo with 0 => k prev (c :: s) st | S _ => None end = Some m ->
                    exists u s', c :: s = u ++ s' /\ whole m = taken st ++ u).
    { destruct lo; [by eapply Hk | discriminate]. }
    destruct (p c && may_take hi); [|by apply Hstop].
    destruct (rep p (pred lo) (less hi) k (Some c) s (push c st)) as [m'|] eqn:E;
      [|by apply Hstop].
    injection H as ->. apply IH in E as (u & s' & -> & Hw).
    exists (c :: u), s'. split; [done|]. rewrite Hw; simpl. by rewrite <- app_assoc.
Qed.

Lemma match_items_extends icase pat : extends (match_items icase pat).
Proof.
  induction pat as [|it pat IH]; simpl.
  - intros prev s st m [= <-]. exists [], s. simpl. by rewrite app_nil_r.
  - destruct it as [a|p lo hi| | |].
    + intros prev [|c s] st m H; [discriminate|].
      destruct (chr_eq icase a c); [|discriminate].
      apply IH in H as (u & s' & -> & Hw). exists (c :: u), s'.
      split; [done|]. rewrite Hw; simpl. by rewrite <- app_assoc.
    + by apply rep_extends.
    + intros prev s st m H. destruct (at_boundary prev (head s)); [|discriminate].
      by apply IH in H.
    + intros prev s st m H. by apply IH in H.
    + intros prev s st m H. by apply IH in H.
Qed.

Lemma match_at_prefix icase pat prev s m :
  match_at icase pat prev s = Some m -> exists s', s = whole m ++ s'.
Proof.
  intros H. apply match_items_extends in H as (u & s' & -> & Hw).
  simpl in Hw. subst u. by exists s'.
Qed.

(** ** Literal runs *)

Lemma match_lits icase w pat prev s st :
  match_items icase (map Lit w ++ pat) prev s st =
  match lit_prefix icase w s with
  | Some (u, r) => match_items icase pat (last_of prev u) r (pushes u st)
  | None => None
  end.
Proof.
  revert prev s st. induction w as [|a w IH]; intros prev s st; simpl.
  - by rewrite pushes_nil.
  - destruct s as [|c s]; [done|]. destruct (chr_eq icase a c); [|done].
    rewrite IH. destruct (lit_prefix icase w s) as [[u r]|]; [|done].
    by rewrite pushes_cons.
Qed.

Lemma lit_prefix_spec icase w s u r :
  lit_prefix icase w s = Some (u, r) ->
  s = u ++ r /\ Forall2 (fun a c => chr_eq icase a c = true) w u.
Proof.
  revert s u r. induction w as [|a w IH]; intros s u r H; simpl in H.
  - injection H as <- <-. split; [done | constructor].
  - destruct s as [|c s]; [discriminate|].
    destruct (chr_eq icase a c) eqn:E; [|discriminate].
    destruct (lit_prefix icase w s) as [[u' r']|] eqn:E'; [|discriminate].
    injection H as <- <-. apply IH in E' as [-> HF]. split; [done|].
    by constructor.
Qed.

Lemma lit_prefix_intro icase w u r :
  Forall2 (fun a c => chr_eq icase a c = true) w u ->
  lit_prefix icase w (u ++ r) = Some (u, r).
Proof.
  induction 1 as [|a c w u Hac _ IH]; simpl; [done|]. by rewrite Hac, IH.
Qed.

Lemma chr_eq_exact a c : chr_eq false a c = true -> a = c.
Proof. unfold chr_eq. by intros ?%Ascii.eqb_eq. Qed.

Lemma lit_prefix_exact w s u r : lit_prefix false w s = Some (u, r) -> u = w /\ s = w ++ r.
Proof.
  intros [-> HF]%lit_prefix_spec.
  assert (u = w) as ->; [|done].
  induction HF as [|a c w u Hac _ IH]; [done|].
  apply chr_eq_exact in Hac. by subst.
Qed.

Lemma lit_prefix_same w r : lit_prefix false w (w ++ r) = Some (w, r).
Proof.
  apply lit_prefix_intro. induction w; constructor; [|done].
  unfold chr_eq. apply Ascii.eqb_refl.
Qed.

(** ** Greedy repetition *)

(** When the whole run [ds] may be taken and the rest of the pattern
    succeeds after it, that is the match. *)
Lemma rep_greedy p k ds : forall lo hi prev post st m,
  Forall (fun c => p c = true) ds -> stops p post ->
  lo <= length ds -> fits hi (length ds) ->
  k (last_of prev ds) post (pushes ds st) = Some m ->
  rep p lo hi k prev (ds ++ post) st = Some m.
Proof.
  induction ds as [|c ds IH]; intros lo hi prev post st m Hds Hpost Hlo Hhi Hk; simpl in *.
  - rewrite pushes_nil in Hk. assert (lo = 0) as -> by lia.
    destruct post as [|c post]; simpl; [done|]. by rewrite Hpost.
  - inversion Hds as [|? ? Hc Hds']; subst.
    assert (may_take hi = true) as ->.
    { destruct hi as [[|h]|]; simpl in *; [lia|done|done]. }
    rewrite Hc; simpl.
    rewrite (IH (pred lo) (less hi) (Some c) post (push c st) m); auto.
    + lia.
    + destruct hi as [h|]; simpl in *; [lia|done].
    + by rewrite pushes_cons.
Qed.

Lemma span_spec p s : forall ds r, span p s = (ds, r) ->
  s = ds ++ r /\ Forall (fun c => p c = true) ds /\ stops p r.
Proof.
  induction s as [|c s IH]; intros ds r H; simpl in H.
  - injection H as <- <-. by repeat split.
  - destruct (p c) eqn:E.
    + destruct (span p s) as [ds' r'] eqn:E'. injection H as <- <-.
      destruct (IH _ _ eq_refl) as (-> & HF & Hr). repeat split; auto.
    + injection H as <- <-. repeat split; auto.
Qed.

Lemma span_intro p ds r :
  Forall (fun c => p c = true) ds -> stops p r -> span p (ds ++ r) = (ds, r).
Proof.
  induction 1 as [|c ds Hc _ IH]; intros Hr; simpl.
  - destruct r as [|c r]; [done|]. simpl in *. by rewrite Hr.
  - by rewrite Hc, IH.
Qed.

(** Whatever a repetition returns comes from taking some run inside the
    set and within the bounds. *)
Lemma rep_sound p k : forall s lo hi prev st m,
  rep p lo hi k prev s st = Some m ->
  exists ds r, s = ds ++ r /\ Forall (fun c => p c = true) ds /\
    lo <= length ds /\ fits hi (length ds) /\
    k (last_of prev ds) r (pushes ds st) = Some m.
Proof.
  induction s as [|c s IH]; intros lo hi prev st m H; simpl in H.
  - destruct lo; [|discriminate]. exists [], []. rewrite pushes_nil.
    repeat split; auto. destruct hi; simpl; lia.
  - assert (Hstop : match lo with 0 => k prev (c :: s) st | S _ => None end = Some m ->
      exists ds r, c :: s = ds ++ r /\ Forall (fun c => p c = true) ds /\
        lo <= length ds /\ fits hi (length ds) /\
        k (last_of prev ds) r (pushes ds st) = Some m).
    { destruct lo; [|discriminate]. intros Hk. exists [], (c :: s). rewrite pushes_nil.
      repeat split; auto. destruct hi; simpl; lia. }
    destruct (p c) eqn:Hc; [|by apply Hstop].
    destruct (may_take hi) eqn:Hhi; [|by apply Hstop]. simpl in H.
    destruct (rep p (pred lo) (less hi) k (Some c) s (push c st)) as [m'|] eqn:E;
      [|by apply Hstop].
    injection H as ->. apply IH in E as (ds & r & -> & Hds & Hlo & Hfit & Hk).
    exists (c :: ds), r. rewrite pushes_cons in Hk. simpl.
    repeat split; auto; [lia|].
    destruct hi as [[|h]|]; simpl in *; [discriminate | lia | done].
Qed.

(** With no upper bound and a rest of the pattern that cannot start at a
    character of the set, the run taken is the longest one: there is
    nothing to backtrack to. *)
Lemma rep_longest p k :
  (forall prev c s st, p c = true -> k prev (c :: s) st = None) ->
  forall s lo prev st,
  rep p lo None k prev s st =
  let '(ds, r) := span p s in
  if lo <=? length ds then k (last_of prev ds) r (pushes ds st) else None.
Proof.
  intros Hk. induction s as [|c s IH]; intros lo prev st; simpl.
  - rewrite pushes_nil. by destruct lo.
  - destruct (p c) eqn:E; simpl.
    + rewrite IH. destruct (span p s) as [ds r]; simpl.
      rewrite pushes_cons.
      destruct lo as [|lo]; simpl.
      * destruct (k (last_of (Some c) ds) r (pushes (c :: ds) st)); [done|].
        by rewrite Hk.
      * destruct (lo <=? length ds); [|done].
        by destruct (k (last_of (Some c) ds) r (pushes (c :: ds) st)).
    + rewrite pushes_nil. by destruct lo.
Qed.

(** The same when the rest of the pattern always succeeds. *)
Lemma rep_total p k :
  (forall prev s st, k prev s st <> None) ->
  forall s lo prev st,
  rep p lo None k prev s st =
  let '(ds, r) := span p s in
  if lo <=? length ds then k (last_of prev ds) r (pushes ds st) else None.
Proof.
  intros Hk. induction s as [|c s IH]; intros lo prev st; simpl.
  - rewrite pushes_nil. by destruct lo.
  - destruct (p c) eqn:E; simpl.
    + rewrite IH. destruct (span p s) as [ds r]; simpl.
      rewrite pushes_cons.
      destruct lo as [|lo]; simpl.
      * destruct (k (last_of (Some c) ds) r (pushes (c :: ds) st)) eqn:E'; [done|].
        by apply Hk in E'.
      * destruct (lo <=? length ds); [|done].
        by destruct (k (last_of (Some c) ds) r (pushes (c :: ds) st)).
    + rewrite pushes_nil. by destruct lo.
Qed.

(** ** The character before a position only matters to [\b] *)

Lemma rep_prev p k :
  (forall p1 p2 s st, word_at p1 = word_at p2 -> k p1 s st = k p2 s st) ->
  forall s lo hi p1 p2 st, word_at p1 = word_at p2 ->
  rep p lo hi k p1 s st = rep p lo hi k p2 s st.
Proof.
  intros Hk. induction s as [|c s IH]; intros lo hi p1 p2 st Hp; simpl.
  - destruct lo; [by apply Hk | done].
  - rewrite (Hk p1 p2 (c :: s) st Hp). done.
Qed.

Lemma match_items_prev icase pat : forall p1 p2 s st,
  word_at p1 = word_at p2 ->
  match_items icase pat p1 s st = match_items icase pat p2 s st.
Proof.
  induction pat as [|it pat IH]; simpl; [done|].
  destruct it as [a|p lo hi| | |]; intros p1 p2 s st Hp.
  - done.
  - by apply rep_prev.
  - unfold at_boundary. rewrite Hp. destruct (xorb _ _); [by apply IH | done].
  - by apply IH.
  - by apply IH.
Qed.

(** ** A character no item accepts cuts the input

    When no literal and no set of the pattern accepts [c], and [c] is not
    a word character, a match attempt that starts before an occurrence of
    [c] sees that occurrence as the end of the string. *)

Lemma rep_cut p k1 k2 c rest :
  p c = false ->
  (forall b prev st, k1 prev (b ++ c :: rest) st = k2 prev b st) ->
  forall b lo hi prev st,
  rep p lo hi k1 prev (b ++ c :: rest) st = rep p lo hi k2 prev b st.
Proof.
  intros Hc Hk. induction b as [|a b IH]; intros lo hi prev st; simpl.
  - rewrite Hc; simpl. destruct lo; [apply (Hk []) | done].
  - rewrite IH. rewrite (Hk (a :: b)). done.
Qed.

Lemma match_cut icase c pat rest :
  rejects icase c pat -> is_word c = false ->
  forall b prev st,
  match_items icase pat prev (b ++ c :: rest) st = match_items icase pat prev b st.
Proof.
  intros Hrej Hw. induction Hrej as [|it pat Hit _ IH]; simpl; [done|].
  destruct it as [a|p lo hi| | |]; intros b prev st.
  - destruct b as [|x b]; simpl; [by rewrite Hit|].
    destruct (chr_eq icase a x); [apply IH | done].
  - by apply rep_cut.
  - assert (word_at (head (b ++ c :: rest)) = word_at (head b)) as Hh.
    { destruct b; simpl; [done|done]. }
    unfold at_boundary. rewrite Hh. destruct (xorb _ _); [apply IH | done].
  - apply IH.
  - apply IH.
Qed.

(** ** The scan *)

Lemma scan_skip icase pat u : forall prev s,
  scan icase pat (length u) prev (u ++ s) = scan icase pat 0 (last_of prev u) s.
Proof. induction u as [|c u IH]; intros prev s; simpl; [done | apply IH]. Qed.

Lemma scan_skip_all icase pat s : forall n prev,
  length s <= n -> scan icase pat n prev s = [].
Proof.
  induction s as [|c s IH]; intros n prev Hn; simpl in *; [done|].
  destruct n; [lia|]. apply IH. lia.
Qed.

(** A match of [u] at the current position is reported, and the scan goes
    on after [u]. *)
Lemma scan_hit icase pat prev u s m :
  match_at icase pat prev (u ++ s) = Some m -> whole m = u -> u <> [] ->
  scan icase pat 0 prev (u ++ s) = Hit m :: scan icase pat 0 (last_of prev u) s.
Proof.
  intros Hm Hw Hu. destruct u as [|c u]; [done|].
  change ((c :: u) ++ s) with (c :: (u ++ s)) in *.
  cbn [scan]. rewrite Hm, Hw. cbn [length]. by rewrite scan_skip.
Qed.

(** No match at the current position: the character is kept. *)
Lemma scan_keep icase pat prev c s :
  match_at icase pat prev (c :: s) = None ->
  scan icase pat 0 prev (c :: s) = Keep c :: scan icase pat 0 (Some c) s.
Proof. intros Hm. cbn [scan]. by rewrite Hm. Qed.

Lemma scan_prev icase pat s : forall n p1 p2,
  word_at p1 = word_at p2 -> scan icase pat n p1 s = scan icase pat n p2 s.
Proof.
  destruct s as [|c s]; intros n p1 p2 Hp; [done|]. cbn [scan].
  destruct n; [|done]. unfold match_at. by rewrite (match_items_prev _ _ p1 p2).
Qed.

(** At a character the pattern rejects, nothing is reported. *)
Lemma scan_rejected icase pat c prev s :
  rejects icase c pat -> is_word c = false ->
  scan icase pat 0 prev (c :: s) = Keep c :: scan icase pat 0 (Some c) s.
Proof.
  intros Hrej Hw. cbn [scan]. unfold match_at.
  pose proof (match_cut icase c pat s Hrej Hw [] prev mstart) as Hcut.
  simpl app in Hcut. rewrite Hcut.
  destruct (match_items icase pat prev [] mstart) as [m|] eqn:E; [|done].
  apply match_items_extends in E as (u & s' & Hs & Hm).
  symmetry in Hs. apply app_eq_nil in Hs as [-> ->]. simpl in Hm. by rewrite Hm.
Qed.

(** The scan of [b ++ c :: rest] is the scan of [b], then [c], then the
    scan of [rest]. *)
Lemma scan_cut icase pat c rest :
  rejects icase c pat -> is_word c = false ->
  forall b n prev, n <= length b ->
  scan icase pat n prev (b ++ c :: rest) =
  scan icase pat n prev b ++ Keep c :: scan icase pat 0 (Some c) rest.
Proof.
  intros Hrej Hw. induction b as [|a b IH]; intros n prev Hn.
  - simpl in Hn. assert (n = 0) as -> by lia. simpl app. by apply scan_rejected.
  - change ((a :: b) ++ c :: rest) with (a :: (b ++ c :: rest)). cbn [scan].
    destruct n as [|n]; [|simpl in Hn; rewrite IH; [done | lia]].
    unfold match_at.
    pose proof (match_cut icase c pat rest Hrej Hw (a :: b) prev mstart) as Hcut.
    simpl app in Hcut. rewrite Hcut.
    destruct (match_items icase pat prev (a :: b) mstart) as [m|] eqn:E;
      [|rewrite IH; [done | lia]].
    destruct (length (whole m)) as [|j] eqn:El; [rewrite IH; [done | lia]|].
    apply match_at_prefix in E as [s' Hs].
    assert (j <= length b).
    { apply (f_equal (@length ascii)) in Hs. rewrite length_app in Hs. simpl in Hs. lia. }
    by rewrite IH.
Qed.

(** ** [re.sub] *)

Lemma sub_with_segs icase pat repl n prev s :
  (forall prev' s' m, match_at icase pat prev' s' = Some m -> repl m = whole m) ->
  flat_map (seg_out repl) (scan icase pat n prev s) = skipn n s.
Proof.
  intros Hrepl. revert n prev. induction s as [|c s IH]; intros n prev.
  - by destruct n.
  - cbn [scan]. destruct n as [|n]; [|apply IH].
    destruct (match_at icase pat prev (c :: s)) as [m|] eqn:E;
      [|simpl; by rewrite IH].
    destruct (length (whole m)) as [|j] eqn:El; [simpl; by rewrite IH|].
    simpl. rewrite IH, (Hrepl _ _ _ E).
    apply match_at_prefix in E as [s' Hs].
    destruct (whole m) as [|x u]; [discriminate|].
    simpl in Hs, El. injection Hs as <- ->. injection El as <-.
    by rewrite skipn_app, skipn_all, Nat.sub_diag.
Qed.

(** A substitution whose replacement always equals the matched text
    changes nothing. *)
Lemma sub_with_id icase pat repl s :
  (forall prev' s' m, match_at icase pat prev' s' = Some m -> repl m = whole m) ->
  sub_with icase pat repl s = s.
Proof. intros H. unfold sub_with, finditer. by rewrite sub_with_segs. Qed.

End Engine.

(** * No pattern of the scripts matches the empty string *)

Lemma consumes_grows icase pat :
  consumes pat = true ->
  forall prev s st m, match_items icase pat prev s st = Some m ->
  length (taken st) < length (whole m).
Proof.
  induction pat as [|it pat IH]; intros Hc prev s st m H; [discriminate|].
  destruct it as [a|p lo hi| | |]; simpl in Hc, H.
  - destruct s as [|c s]; [discriminate|].
    destruct (chr_eq icase a c); [|discriminate].
    apply match_items_extends in H as (u & s' & _ & Hw).
    rewrite Hw. simpl. rewrite !length_app. simpl. lia.
  - apply rep_sound in H as (ds & r & _ & _ & Hlo & _ & Hk).
    apply match_items_extends in Hk as (u & s' & _ & Hw).
    rewrite Hw. simpl. rewrite !length_app.
    destruct lo; [discriminate|]. lia.
  - destruct (at_boundary prev (head s)); [|discriminate]. by apply (IH Hc) in H.
  - by apply (IH Hc) in H.
  - by apply (IH Hc) in H.
Qed.

Lemma script_patterns_consume :
  Forall (fun pat => consumes pat = true) script_patterns.
Proof. repeat constructor. Qed.

Lemma script_match_nonempty icase pat prev s m :
  In pat script_patterns -> match_at icase pat prev s = Some m -> whole m <> [].
Proof.
  intros Hin Hm. pose proof script_patterns_consume as Hall.
  rewrite Forall_forall in Hall.
  apply (consumes_grows icase pat (Hall pat Hin)) in Hm. simpl in Hm.
  destruct (whole m); [simpl in Hm; lia | done].
Qed.

(** * Literal rules *)

Lemma expand_rlits w m : expand (rlits w) m = txt w.
Proof.
  unfold expand, rlits. induction (txt w) as [|c l IH]; simpl; [done|]. by rewrite IH.
Qed.

(** A case-sensitive literal pattern only matches its own text. *)
Lemma lits_match_whole w prev s m :
  match_at false (lits w) prev s = Some m -> whole m = txt w.
Proof.
  unfold match_at, lits. rewrite <- (app_nil_r (map Lit (txt w))), match_lits.
  destruct (lit_prefix false (txt w) s) as [[u r]|] eqn:E; [|discriminate].
  apply lit_prefix_exact in E as [-> _]. by intros [= <-].
Qed.

Lemma whole_word_match_whole w prev s m :
  match_at false (ToPostgres.whole_word w) prev s = Some m -> whole m = txt w.
Proof.
  unfold match_at, ToPostgres.whole_word, lits. simpl.
  destruct (at_boundary prev (head s)); [|discriminate].
  rewrite match_lits.
  destruct (lit_prefix false (txt w) s) as [[u r]|] eqn:E; [|discriminate].
  apply lit_prefix_exact in E as [-> _]. simpl.
  destruct (at_boundary _ _); [|discriminate]. by intros [= <-].
Qed.

Lemma id_serial_id s : ToPostgres.id_serial s = s.
Proof.
  apply sub_with_id. intros prev s' m H.
  rewrite expand_rlits. symmetry. by apply whole_word_match_whole in H.
Qed.

Lemma default_plain_id s : ToPostgres.default_plain s = s.
Proof.
  apply sub_with_id. intros prev s' m H.
  rewrite expand_rlits. symmetry. by apply lits_match_whole in H.
Qed.

(** C9: the rule that replaces [id SERIAL PRIMARY KEY] by itself and the
    rule that replaces [DEFAULT CURRENT_TIMESTAMP] by itself leave every
    string unchanged, so the pipeline of the Schema-and-Data Converter
    without these two rules computes the same function as the full
    pipeline. *)
Theorem identity_rules_removable (content : text) :
  ToPostgres.id_serial content = content /\
  ToPostgres.default_plain content = content /\
  rewrite_without_identity_rules content = ToPostgres.rewrite content.
Proof.
  split; [apply id_serial_id|]. split; [apply default_plain_id|].
  unfold rewrite_without_identity_rules, ToPostgres.rewrite.
  by rewrite id_serial_id, default_plain_id.
Qed.

(** * The boolean rules on adjacent values *)

(** C3: in [(5,0,0,5)] both zeros stand between two commas, yet only the
    first becomes FALSE: the match of [,0,] consumes the comma the second
    zero needs in front of it, and [re.sub] does not look at consumed
    text again.  The same happens to [,1,1,].  The two examples of the
    specification come out as it says. *)
Theorem adjacent_booleans_second_kept :
  DataOnly.convert_booleans (txt "(5,0,0,5)") = txt "(5,FALSE,0,5)" /\
  DataOnly.convert_booleans (txt "(5,1,1,5)") = txt "(5,TRUE,1,5)" /\
  DataOnly.rewrite (fun _ => 0%Z) (txt "INSERT INTO t VALUES(5,0,0,5);")
  = Ok (txt "INSERT INTO " ++ dq :: txt "t" ++ dq :: txt " VALUES(5,FALSE,0,5);") /\
  DataOnly.convert_booleans (txt "(1,0,5)") = txt "(TRUE,FALSE,5)" /\
  DataOnly.convert_booleans (txt "(10,21)") = txt "(10,21)".
Proof. repeat split; vm_compute; reflexivity. Qed.

(** * Foreign-key references that are already quoted *)

(** C7: a reference whose names are written with backticks has them
    turned into double quotes by the backtick rule, and the REFERENCES
    rule then wraps the quoted names once more; names that arrive in
    double quotes are wrapped a second time as well.  Bare names get one
    layer. *)
Theorem quoted_references_quoted_twice :
  ToPostgres.rewrite (txt "REFERENCES `users`(`id`)")
  = txt "REFERENCES " ++ [dq; dq] ++ txt "users" ++ [dq; dq]
    ++ txt "(" ++ [dq; dq] ++ txt "id" ++ [dq; dq] ++ txt ")" /\
  ToPostgres.quote_references
    (txt "REFERENCES " ++ dq :: txt "users" ++ dq :: txt "(" ++ dq :: txt "id" ++ dq :: txt ")")
  = txt "REFERENCES " ++ [dq; dq] ++ txt "users" ++ [dq; dq]
    ++ txt "(" ++ [dq; dq] ++ txt "id" ++ [dq; dq] ++ txt ")" /\
  ToPostgres.rewrite (txt "REFERENCES users(id)")
  = txt "REFERENCES " ++ dq :: txt "users" ++ dq :: txt "(" ++ dq :: txt "id" ++ dq :: txt ")".
Proof. repeat split; vm_compute; reflexivity. Qed.

(** * The runs as functions of their environment *)

Lemma localtime_ext tz1 tz2 t :
  (forall x, tz1 x = tz2 x) -> localtime tz1 t = localtime tz2 t.
Proof. intros H. unfold localtime. by rewrite H. Qed.

Lemma local_seconds_ext tz1 tz2 u :
  (forall x, tz1 x = tz2 x) -> local_seconds tz1 u = local_seconds tz2 u.
Proof.
  intros H. unfold local_seconds, localtime_r, utc_to_seconds.
  destruct (time_t_of u) as [t|]; simpl; [|done].
  by rewrite (localtime_ext tz1 tz2 t H), H.
Qed.

Lemma fromtimestamp_ext tz1 tz2 t :
  (forall x, tz1 x = tz2 x) -> fromtimestamp tz1 t = fromtimestamp tz2 t.
Proof.
  intros H. unfold fromtimestamp.
  destruct (time_t_of t) as [timet|]; simpl; [|done].
  unfold localtime_r. rewrite (localtime_ext tz1 tz2 timet H).
  destruct (_ || _); simpl; [done|].
  unfold utc_to_seconds. rewrite H. destruct (_ || _); simpl; [done|].
  rewrite (local_seconds_ext tz1 tz2 _ H).
  destruct (local_seconds tz2 _) as [probe|]; simpl; [|done].
  destruct (_ <? 0)%Z; [|done]. by rewrite (local_seconds_ext tz1 tz2 _ H).
Qed.

Lemma callback_ext tz1 tz2 m :
  (forall x, tz1 x = tz2 x) ->
  DataOnly.unix_timestamp_to_postgres tz1 m = DataOnly.unix_timestamp_to_postgres tz2 m.
Proof.
  intros H. unfold DataOnly.unix_timestamp_to_postgres.
  destruct (py_int (group 1 m)) as [n|e]; simpl; [|done].
  by rewrite (fromtimestamp_ext tz1 tz2 _ H).
Qed.

Lemma sub_segs_ext f g gs : (forall m, f m = g m) -> sub_segs f gs = sub_segs g gs.
Proof.
  intros H. induction gs as [|[c|m] gs IH]; simpl; [done | by rewrite IH |].
  by rewrite H, IH.
Qed.

Lemma data_rewrite_ext tz1 tz2 s :
  (forall x, tz1 x = tz2 x) -> DataOnly.rewrite tz1 s = DataOnly.rewrite tz2 s.
Proof.
  intros H. unfold DataOnly.rewrite, DataOnly.convert_timestamps, sub_call.
  by rewrite (sub_segs_ext _ (DataOnly.unix_timestamp_to_postgres tz2))
    by (intros; by apply callback_ext).
Qed.

(** C5: when the input has no line that starts, after trimming, with
    INSERT INTO, the Data-Only Converter prints the message, leaves every
    file as it was (the output file is neither written nor created), and
    the process exits with code 0. *)
Theorem no_inserts_no_output (w : world) (input_file output_file : string) (content : text) :
  files w !! input_file = Some content ->
  DataOnly.insert_lines content = [] ->
  DataOnly.convert_sqlite_data_to_postgres w input_file output_file
  = {| files_after := files w;
       printed := [txt "No INSERT statements found in input file"];
       ended := Ok tt |} /\
  fs (DataOnly.main w input_file output_file) = files w /\
  stdout (DataOnly.main w input_file output_file)
  = [txt "No INSERT statements found in input file";
     txt "Data conversion completed successfully!"] /\
  reported (DataOnly.main w input_file output_file) = None /\
  exit_code (DataOnly.main w input_file output_file) = 0%Z.
Proof.
  intros Hread Hnone.
  assert (DataOnly.convert_sqlite_data_to_postgres w input_file output_file
          = {| files_after := files w;
               printed := [txt "No INSERT statements found in input file"];
               ended := Ok tt |}) as Hconv.
  { unfold DataOnly.convert_sqlite_data_to_postgres, read_file. rewrite Hread.
    unfold DataOnly.insert_lines in Hnone. by rewrite Hnone. }
  split; [done|]. unfold DataOnly.main. rewrite Hconv. by simpl.
Qed.

Lemma no_inserts_no_output_witness :
  files (world_at no_insert 1700000000 (fun _ => 0%Z)) !! "dump.sql"%string = Some no_insert /\
  DataOnly.insert_lines no_insert = [] /\
  fs (DataOnly.main (world_at no_insert 1700000000 (fun _ => 0%Z)) "dump.sql" "out.sql")
  = files (world_at no_insert 1700000000 (fun _ => 0%Z)) /\
  exit_code (DataOnly.main (world_at no_insert 1700000000 (fun _ => 0%Z)) "dump.sql" "out.sql")
  = 0%Z.
Proof.
  assert (files (world_at no_insert 1700000000 (fun _ => 0%Z)) !! "dump.sql"%string
          = Some no_insert) as H1 by reflexivity.
  assert (DataOnly.insert_lines no_insert = []) as H2 by (vm_compute; reflexivity).
  destruct (no_inserts_no_output _ "dump.sql" "out.sql" _ H1 H2) as (_ & H3 & _ & _ & H4).
  exact (conj H1 (conj H2 (conj H3 H4))).
Defined.

(** C4, as stated, fails for the Data-Only Converter: its preamble carries
    the line [-- Generated on] followed by the current local time, so two
    runs on the same file at clock readings one day apart write different
    output. *)
Lemma data_only_output_follows_clock :
  same_files (world_at one_insert 0 (fun _ => 0%Z)) (world_at one_insert 86400 (fun _ => 0%Z)) /\
  fs (DataOnly.main (world_at one_insert 0 (fun _ => 0%Z)) "dump.sql" "out.sql")
  <> fs (DataOnly.main (world_at one_insert 86400 (fun _ => 0%Z)) "dump.sql" "out.sql") /\
  ~ input_determined DataOnly.main.
Proof.
  assert (fs (DataOnly.main (world_at one_insert 0 (fun _ => 0%Z)) "dump.sql" "out.sql")
          <> fs (DataOnly.main (world_at one_insert 86400 (fun _ => 0%Z)) "dump.sql" "out.sql"))
    as Hne.
  { intros H. apply (f_equal (fun m => m !! "out.sql"%string)) in H.
    vm_compute in H. discriminate H. }
  split; [by split|]. split; [done|].
  intros Hdet. apply Hne, Hdet. by split.
Qed.

(** What a run of the Schema-and-Data Converter leaves behind is read off
    the text under the input path. *)
Lemma schema_run_outcome w input_file output_file :
  output_file ∉ locked w ->
  ToPostgres.main w input_file output_file =
  match files w !! input_file with
  | Some content =>
      {| fs := <[output_file := ToPostgres.preamble ++ ToPostgres.rewrite content]> (files w);
         stdout := [ToPostgres.converted_message input_file output_file;
                    ToPostgres.success_message];
         reported := None; exit_code := 0 |}
  | None =>
      {| fs := files w; stdout := []; reported := Some (FileNotFoundError input_file);
         exit_code := 1 |}
  end.
Proof.
  intros Hfree.
  unfold ToPostgres.main, ToPostgres.convert_sqlite_to_postgres, ToPostgres.raised,
    read_file, write_file.
  destruct (files w !! input_file) as [content|]; [|done].
  by destruct (decide (output_file ∈ locked w)).
Qed.

(** The text a run of the Data-Only Converter stores, if any, what it
    prints and how it ends, as a function of the text under the input
    path, the clock reading and the time zone. *)
Lemma data_run_outcome w input_file output_file :
  output_file ∉ locked w ->
  exists upd out err code,
    DataOnly.main w input_file output_file
    = {| fs := stored output_file upd (files w); stdout := out; reported := err;
         exit_code := code |} /\
    forall w', files w' !! input_file = files w !! input_file ->
      output_file ∉ locked w' -> clock w' = clock w ->
      (forall t, utcoffset w' t = utcoffset w t) ->
      DataOnly.main w' input_file output_file
      = {| fs := stored output_file upd (files w'); stdout := out; reported := err;
           exit_code := code |}.
Proof.
  intros Hfree.
  unfold DataOnly.main, DataOnly.convert_sqlite_data_to_postgres, DataOnly.raised,
    DataOnly.now_text, read_file, write_file.
  destruct (files w !! input_file) as [content|] eqn:Hread.
  2:{ exists None, [], (Some (FileNotFoundError input_file)), 1%Z. split; [done|].
      intros w' Hin _ _ _. by rewrite Hin. }
  destruct (filter DataOnly.is_insert_line (split nl content)) as [|l ls] eqn:Hsel.
  { exists None, [DataOnly.no_inserts_message; DataOnly.success_message], None, 0%Z.
    split; [done|]. intros w' Hin _ _ _. by rewrite Hin, Hsel. }
  destruct (DataOnly.rewrite (utcoffset w) (join nl (l :: ls))) as [body|e] eqn:Hbody.
  2:{ exists None, [], (Some e), 1%Z. split; [done|].
      intros w' Hin _ _ Htz. rewrite Hin, Hsel.
      by rewrite (data_rewrite_ext _ _ _ Htz), Hbody. }
  destruct (fromtimestamp (utcoffset w) (clock w)) as [dt|e] eqn:Hnow; simpl.
  2:{ exists None, [], (Some e), 1%Z. split; [done|].
      intros w' Hin _ Hc Htz. rewrite Hin, Hsel.
      rewrite (data_rewrite_ext _ _ _ Htz), Hbody, Hc.
      by rewrite (fromtimestamp_ext _ _ _ Htz), Hnow. }
  destruct (decide (output_file ∈ locked w)); [done|].
  exists (Some (DataOnly.preamble (strftime dt) ++ body ++ DataOnly.postamble)),
    [DataOnly.converted_message (length (l :: ls)) input_file output_file;
     DataOnly.success_message], None, 0%Z.
  split; [done|]. intros w' Hin Hfree' Hc Htz. rewrite Hin, Hsel.
  rewrite (data_rewrite_ext _ _ _ Htz), Hbody, Hc.
  rewrite (fromtimestamp_ext _ _ _ Htz), Hnow. simpl.
  by destruct (decide (output_file ∈ locked w')).
Qed.

(** C4, amended: what the Schema-and-Data Converter writes is a function
    of the text of the input file alone.  Two runs whose input path holds
    the same text and whose output path can be written store the same text
    under the output path (or both store nothing), touch no other file,
    print the same lines and end alike, whatever else the two file systems
    hold.  For the Data-Only Converter this holds between runs that also
    agree on the clock reading, which goes into the [Generated on] line,
    and on the local time zone, in which that line and the timestamps are
    rendered. *)
Theorem runs_determined (w1 w2 : world) (input_file output_file : string) :
  files w1 !! input_file = files w2 !! input_file ->
  output_file ∉ locked w1 -> output_file ∉ locked w2 ->
  same_outcome output_file w1 w2
    (ToPostgres.main w1 input_file output_file)
    (ToPostgres.main w2 input_file output_file) /\
  (clock w1 = clock w2 -> (forall t, utcoffset w1 t = utcoffset w2 t) ->
   same_outcome output_file w1 w2
     (DataOnly.main w1 input_file output_file)
     (DataOnly.main w2 input_file output_file)).
Proof.
  intros Hin H1 H2. split.
  - rewrite !schema_run_outcome by done. rewrite Hin.
    destruct (files w2 !! input_file) as [content|].
    + split; [|done].
      by exists (Some (ToPostgres.preamble ++ ToPostgres.rewrite content)).
    + split; [|done]. by exists None.
  - intros Hc Htz.
    destruct (data_run_outcome w1 input_file output_file H1)
      as (upd & out & err & code & Hw1 & Hall).
    rewrite Hw1, (Hall w2) by done. split; [|done]. by exists upd.
Qed.

Lemma runs_determined_witness :
  files (world_at one_insert 0 (fun _ => 0%Z)) !! "dump.sql"%string
  = files (world_beside one_insert (txt "other") 0 (fun t => (t - t)%Z)) !! "dump.sql"%string /\
  ("out.sql"%string ∉ locked (world_at one_insert 0 (fun _ => 0%Z))) /\
  ("out.sql"%string ∉ locked (world_beside one_insert (txt "other") 0 (fun t => (t - t)%Z))) /\
  same_outcome "out.sql"
    (world_at one_insert 0 (fun _ => 0%Z))
    (world_beside one_insert (txt "other") 0 (fun t => (t - t)%Z))
    (ToPostgres.main (world_at one_insert 0 (fun _ => 0%Z)) "dump.sql" "out.sql")
    (ToPostgres.main (world_beside one_insert (txt "other") 0 (fun t => (t - t)%Z))
       "dump.sql" "out.sql") /\
  same_outcome "out.sql"
    (world_at one_insert 0 (fun _ => 0%Z))
    (world_beside one_insert (txt "other") 0 (fun t => (t - t)%Z))
    (DataOnly.main (world_at one_insert 0 (fun _ => 0%Z)) "dump.sql" "out.sql")
    (DataOnly.main (world_beside one_insert (txt "other") 0 (fun t => (t - t)%Z))
       "dump.sql" "out.sql").
Proof.
  assert (files (world_at one_insert 0 (fun _ => 0%Z)) !! "dump.sql"%string
          = files (world_beside one_insert (txt "other") 0 (fun t => (t - t)%Z))
              !! "dump.sql"%string) as H0 by reflexivity.
  assert ("out.sql"%string ∉ locked (world_at one_insert 0 (fun _ => 0%Z))) as H1
    by apply not_elem_of_empty.
  assert ("out.sql"%string
          ∉ locked (world_beside one_insert (txt "other") 0 (fun t => (t - t)%Z))) as H2
    by apply not_elem_of_empty.
  destruct (runs_determined _ _ "dump.sql" "out.sql" H0 H1 H2) as [H3 H4].
  refine (conj H0 (conj H1 (conj H2 (conj H3 (H4 eq_refl _))))).
  intros t; simpl; lia.
Defined.

(** * Characters *)

Lemma digit_is_word c : is_digit c = true -> is_word c = true.
Proof. intros H. each_char c. Qed.

Lemma nonword_not_digit c : is_word c = false -> is_digit c = false.
Proof. intros H. each_char c. Qed.

Lemma nonword_not_one c : is_word c = false -> Ascii.eqb "1" c = false.
Proof. intros H. each_char c. Qed.

Lemma digit_not_int_space c : is_digit c = true -> int_space c = false.
Proof. intros H. each_char c. Qed.

Lemma digit_val_range c : is_digit c = true -> (0 <= digit_val c <= 9)%Z.
Proof.
  intros H. destruct c as [[] [] [] [] [] [] [] []];
    try (vm_compute in H; discriminate H); unfold digit_val; simpl; lia.
Qed.

Lemma digit_no_sign c (r : text) (A : Type) (x y z : A) :
  is_digit c = true ->
  match c :: r with
  | "-"%char :: _ => x
  | "+"%char :: _ => y
  | _ => z
  end = z.
Proof. intros H. each_char c. Qed.

Lemma digit_not_underscore c : is_digit c = true -> Ascii.eqb c "_" = false.
Proof. intros H. each_char c. Qed.

(** * Checking a range of integers by evaluation *)

Lemma all_from_spec n : forall z f, all_from n z f = true ->
  forall x, (z <= x < z + Z.of_nat n)%Z -> f x = true.
Proof.
  induction n as [|n IH]; intros z f H x Hx; [lia|].
  simpl in H. apply andb_prop in H as [Hz Hrest].
  destruct (Z.eq_dec x z) as [->|Hne]; [done|].
  apply (IH (z + 1)%Z f Hrest). lia.
Qed.

(** * The timestamp rule *)

Lemma ts_match_inv prev s m :
  match_at false DataOnly.ts_pattern prev s = Some m ->
  exists ds r, s = "1"%char :: ds ++ r /\ Forall (fun c => is_digit c = true) ds /\
    9 <= length ds <= 12 /\ whole m = "1"%char :: ds /\ groups m = ["1"%char :: ds].
Proof.
  unfold match_at, DataOnly.ts_pattern. cbn [match_items].
  destruct (at_boundary prev (head s)); [|discriminate].
  destruct s as [|c s]; [discriminate|].
  destruct (chr_eq false "1" c) eqn:Hc; [|discriminate].
  apply chr_eq_exact in Hc as <-.
  intros (ds & r & -> & Hds & Hlo & Hhi & Hk)%rep_sound.
  destruct (at_boundary _ (head r)); [|discriminate].
  injection Hk as <-. exists ds, r. simpl in *. repeat split; auto.
Qed.

Lemma forallb_Forall (p : ascii -> bool) l :
  forallb p l = true -> Forall (fun c => p c = true) l.
Proof.
  induction l as [|c l IH]; simpl; [constructor|].
  intros [? ?]%andb_prop. constructor; auto.
Qed.

Lemma ts_digits_inv d :
  ts_digits d = true ->
  exists ds, d = "1"%char :: ds /\ Forall (fun c => is_digit c = true) ds /\
    9 <= length ds <= 12.
Proof.
  destruct d as [|c ds]; [discriminate|].
  destruct (Ascii.eqb_spec c "1") as [->|Hne].
  - unfold ts_digits. cbv beta iota.
    intros H. apply andb_prop in H as [H H3]. apply andb_prop in H as [H1 H2].
    exists ds. split; [done|]. split; [by apply forallb_Forall|].
    apply Nat.leb_le in H2, H3. lia.
  - intros H. exfalso. revert H. each_char c.
Qed.

Lemma last_digit_word prev ds :
  Forall (fun c => is_digit c = true) ds -> word_at prev = true ->
  word_at (last_of prev ds) = true.
Proof.
  intros H. revert prev. induction H as [|c ds Hc _ IH]; intros prev Hp; simpl; [done|].
  apply IH. simpl. by apply digit_is_word.
Qed.

Lemma ts_match_intro prev d post :
  word_at prev = false -> ts_digits d = true -> starts_nonword post ->
  match_at false DataOnly.ts_pattern prev (d ++ post) = Some {| whole := d; groups := [d] |}.
Proof.
  intros Hprev (ds & -> & Hds & Hlen)%ts_digits_inv Hpost.
  unfold match_at, DataOnly.ts_pattern. cbn [match_items]. simpl app. simpl head.
  unfold at_boundary at 1. rewrite Hprev. simpl.
  apply rep_greedy; auto.
  - destruct post as [|c post]; simpl; [done|]. by apply nonword_not_digit.
  - lia.
  - simpl; lia.
  - cbn [match_items]. unfold at_boundary.
    rewrite (last_digit_word (Some "1"%char) ds Hds eq_refl).
    unfold starts_nonword in Hpost. rewrite Hpost. simpl. done.
Qed.
(** ** Parsing and converting the digits *)

Lemma drop_while_head p (s : text) :
  match s with c :: _ => p c = false | [] => True end -> drop_while p s = s.
Proof. destruct s as [|c s]; simpl; [done|]. by intros ->. Qed.

Lemma int_digits_all ds : Forall (fun c => is_digit c = true) ds ->
  forall b acc count, ds <> [] \/ b = true ->
  int_digits b acc count ds = Some (digits_value acc ds, count + length ds).
Proof.
  induction 1 as [|c ds Hc _ IH]; intros b acc count Hb; simpl.
  - destruct Hb as [?| ->]; [done|]. by rewrite Nat.add_0_r.
  - rewrite Hc, IH by auto. do 2 f_equal. lia.
Qed.

Lemma py_int_digits d :
  d <> [] -> Forall (fun c => is_digit c = true) d -> length d <= 4300 ->
  py_int d = Ok (digits_value 0 d).
Proof.
  intros Hne Hd Hlen. unfold py_int.
  assert (rev (drop_while int_space (rev (drop_while int_space d))) = d) as ->.
  { rewrite (drop_while_head _ d).
    - rewrite drop_while_head; [apply rev_involutive|].
      apply Forall_rev in Hd. destruct Hd as [|c l Hc _]; [done|].
      by apply digit_not_int_space.
    - destruct Hd as [|c l Hc _]; [done|]. by apply digit_not_int_space. }
  destruct Hd as [|c ds Hc Hds]; [done|].
  rewrite (digit_no_sign c ds _ _ _ _ Hc). rewrite Hc.
  rewrite (int_digits_all (c :: ds)) by (by constructor || by left).
  simpl length in *. unfold max_str_digits.
  destruct (Nat.ltb_spec 4300 (0 + S (length ds))); [lia | done].
Qed.

Lemma digits_value_bounds d : Forall (fun c => is_digit c = true) d ->
  forall acc, (0 <= acc)%Z ->
  (acc * 10 ^ Z.of_nat (length d) <= digits_value acc d
   < (acc + 1) * 10 ^ Z.of_nat (length d))%Z.
Proof.
  induction 1 as [|c d Hc _ IH]; intros acc Hacc.
  - simpl. lia.
  - cbn [digits_value length]. apply digit_val_range in Hc.
    specialize (IH (10 * acc + digit_val c)%Z ltac:(lia)).
    rewrite Nat2Z.inj_succ, Z.pow_succ_r by lia.
    assert (0 < 10 ^ Z.of_nat (length d))%Z by (apply Z.pow_pos_nonneg; lia).
    nia.
Qed.

Lemma ts_value_range d :
  ts_digits d = true ->
  (10 ^ 9 <= digits_value 0 d < 2 * 10 ^ 12)%Z /\ py_int d = Ok (digits_value 0 d).
Proof.
  intros (ds & -> & Hds & Hlen)%ts_digits_inv. split.
  - change (digits_value 0 ("1"%char :: ds)) with (digits_value 1 ds).
    pose proof (digits_value_bounds ds Hds 1 ltac:(lia)) as Hb.
    assert (10 ^ 9 <= 10 ^ Z.of_nat (length ds))%Z by (apply Z.pow_le_mono_r; lia).
    assert (10 ^ Z.of_nat (length ds) <= 10 ^ 12)%Z by (apply Z.pow_le_mono_r; lia).
    lia.
  - apply py_int_digits; [done | by constructor | simpl; lia].
Qed.

Lemma epoch_seconds_range d :
  ts_digits d = true -> (10 ^ 7 <= epoch_seconds d <= 10 ^ 10)%Z.
Proof.
  intros [Hr _]%ts_value_range. unfold epoch_seconds.
  destruct (Z.ltb_spec (10 ^ 10) (digits_value 0 d)).
  - split.
    + apply Z.div_le_lower_bound; lia.
    + assert (digits_value 0 d / 1000 < 2 * 10 ^ 9)%Z; [|lia].
      apply Z.div_lt_upper_bound; lia.
  - lia.
Qed.

(** The callback on a match whose group is such a digit sequence. *)
Lemma callback_unfold tz m d :
  group 1 m = d -> ts_digits d = true ->
  DataOnly.unix_timestamp_to_postgres tz m =
  match fromtimestamp tz (epoch_seconds d) with
  | Ok dt => Ok (DataOnly.quoted (strftime dt))
  | Raise ValueError | Raise OSError => Ok (DataOnly.quoted d)
  | Raise e => Raise e
  end.
Proof.
  intros Hg Hd. unfold DataOnly.unix_timestamp_to_postgres. rewrite Hg.
  destruct (ts_value_range d Hd) as [_ ->]. simpl.
  fold (epoch_seconds d).
  by destruct (fromtimestamp tz (epoch_seconds d)) as [dt|[]].
Qed.

(** ** The rendered timestamp *)

Local Open Scope Z_scope.

(** Day numbers from April 1970 to November 2286 fall on dates of those
    years. *)
Lemma civil_bounds z0 y m d :
  100 <= z0 < 115743 ->
  civil_from_days z0 = (y, m, d) ->
  1970 <= y <= 2286 /\ 1 <= m <= 12 /\ 1 <= d <= 31.
Proof.
  intros Hz. unfold civil_from_days.
  set (z := z0 + 719468).
  set (era := z / 146097).
  set (doe := z - era * 146097).
  set (yoe := (doe - doe / 1460 + doe / 36524 - doe / 146096) / 365).
  set (doy := doe - (365 * yoe + yoe / 4 - yoe / 100)).
  set (mp := (5 * doy + 2) / 153).
  intros H.
  assert (0 <= doe <= 146096) as Hdoe by (subst doe era z; Z.div_mod_to_equations; lia).
  assert (4 <= era <= 5) as Hera by (subst era z; Z.div_mod_to_equations; lia).
  assert (0 <= yoe <= 399) as Hyoe by (subst yoe; Z.div_mod_to_equations; lia).
  assert (0 <= doy <= 365) as Hdoy by (subst doy yoe; Z.div_mod_to_equations; lia).
  assert (0 <= mp <= 11) as Hmp by (subst mp; Z.div_mod_to_equations; lia).
  assert (1 <= doy - (153 * mp + 2) / 5 + 1 <= 31) as Hd
    by (subst mp; Z.div_mod_to_equations; lia).
  destruct (mp <? 10) eqn:E1; destruct (_ <=? 2) eqn:E2; injection H as <- <- <-;
    try apply Z.ltb_lt in E1; try apply Z.ltb_ge in E1;
    try apply Z.leb_le in E2; try apply Z.leb_gt in E2.
  all: split; [|lia].
  all: subst doy mp yoe doe era z; Z.div_mod_to_equations; lia.
Qed.

Lemma pad2_two n : 0 <= n <= 99 -> two_digits (pad2 n) = true.
Proof.
  intros Hn. apply (all_from_spec 100 0 (fun n => two_digits (pad2 n))); [|lia].
  vm_compute. reflexivity.
Qed.

Lemma year_four y : 1970 <= y <= 2286 -> four_digits (str_of_Z y) = true.
Proof.
  intros Hy. apply (all_from_spec 317 1970 (fun y => four_digits (str_of_Z y))); [|lia].
  vm_compute. reflexivity.
Qed.

Local Close Scope Z_scope.

Lemma shape_of_parts y mo d h mi s :
  four_digits y = true -> two_digits mo = true -> two_digits d = true ->
  two_digits h = true -> two_digits mi = true -> two_digits s = true ->
  timestamp_shape (y ++ "-"%char :: mo ++ "-"%char :: d ++ " "%char :: h
                   ++ ":"%char :: mi ++ ":"%char :: s) = true.
Proof.
  destruct y as [|? [|? [|? [|? [|? ?]]]]]; try discriminate.
  destruct mo as [|? [|? [|? ?]]]; try discriminate.
  destruct d as [|? [|? [|? ?]]]; try discriminate.
  destruct h as [|? [|? [|? ?]]]; try discriminate.
  destruct mi as [|? [|? [|? ?]]]; try discriminate.
  destruct s as [|? [|? [|? ?]]]; try discriminate.
  cbn [app two_digits four_digits timestamp_shape forallb].
  rewrite !andb_true_iff. intuition reflexivity.
Qed.

(** In a time zone whose offset is less than a day the local time of an
    instant near the range of the timestamp rule lies between 1970 and
    2286 and prints in the form YYYY-MM-DD HH:MM:SS. *)
Lemma localtime_shape tz u :
  (forall x, - 86400 < tz x < 86400)%Z -> (10 ^ 7 - 3 * 86400 <= u <= 10 ^ 10)%Z ->
  (1970 <= year (localtime tz u) <= 2286)%Z /\
  timestamp_shape (strftime (localtime tz u)) = true.
Proof.
  intros Htz Hu. pose proof (Htz u) as Ho.
  assert (100 <= (u + tz u) / 86400 < 115743)%Z as Hday.
  { split; [apply Z.div_le_lower_bound; lia | apply Z.div_lt_upper_bound; lia]. }
  assert (0 <= (u + tz u) mod 86400 < 86400)%Z as Hsec by (apply Z.mod_pos_bound; lia).
  unfold strftime, localtime.
  destruct (civil_from_days ((u + tz u) / 86400)) as [[y m] d] eqn:E.
  destruct (civil_bounds _ _ _ _ Hday E) as (Hy & Hm & Hd).
  cbn [year month day hour minute second]. split; [done|].
  apply shape_of_parts.
  - by apply year_four.
  - apply pad2_two; lia.
  - apply pad2_two; lia.
  - apply pad2_two. split; [apply Z.div_pos; lia | ].
    assert ((u + tz u) mod 86400 / 3600 < 24)%Z; [apply Z.div_lt_upper_bound; lia | lia].
  - apply pad2_two. pose proof (Z.mod_pos_bound ((u + tz u) mod 86400) 3600 ltac:(lia)).
    split; [apply Z.div_pos; lia | ].
    assert (((u + tz u) mod 86400) mod 3600 / 60 < 60)%Z;
      [apply Z.div_lt_upper_bound; lia | lia].
  - apply pad2_two. pose proof (Z.mod_pos_bound ((u + tz u) mod 86400) 60 ltac:(lia)). lia.
Qed.

Lemma time_t_of_ok u : (- 2 ^ 63 <= u < 2 ^ 63)%Z -> time_t_of u = Ok u.
Proof.
  intros Hu. unfold time_t_of.
  destruct (Z.ltb_spec u (- 2 ^ 63)); [lia|].
  by destruct (Z.leb_spec (2 ^ 63) u); [lia|].
Qed.

Lemma localtime_r_ok tz u :
  (1970 <= year (localtime tz u) <= 2286)%Z -> localtime_r tz u = Ok (localtime tz u).
Proof.
  intros Hy. unfold localtime_r.
  destruct (Z.ltb_spec (year (localtime tz u) - 1900) (- 2 ^ 31)); [lia|].
  by destruct (Z.leb_spec (2 ^ 31) (year (localtime tz u) - 1900)); [lia|].
Qed.

Lemma utc_to_seconds_ok tz u dt :
  (1970 <= year dt <= 2286)%Z -> utc_to_seconds tz u dt = Ok (u + tz u)%Z.
Proof.
  intros Hy. unfold utc_to_seconds.
  destruct (Z.ltb_spec (year dt) 1); [lia|].
  by destruct (Z.ltb_spec 9999 (year dt)); [lia|].
Qed.

Lemma local_seconds_ok tz u :
  (forall x, - 86400 < tz x < 86400)%Z -> (10 ^ 7 - 3 * 86400 <= u <= 10 ^ 10)%Z ->
  local_seconds tz u = Ok (u + tz u)%Z.
Proof.
  intros Htz Hu. destruct (localtime_shape tz u Htz Hu) as [Hy _].
  unfold local_seconds. rewrite time_t_of_ok by lia. simpl.
  rewrite localtime_r_ok by done. simpl. by apply utc_to_seconds_ok.
Qed.

(** In such a time zone every epoch second the timestamp rule can produce
    converts to its local time. *)
Lemma fromtimestamp_ok tz t :
  (forall x, - 86400 < tz x < 86400)%Z -> (10 ^ 7 <= t <= 10 ^ 10)%Z ->
  fromtimestamp tz t = Ok (localtime tz t).
Proof.
  intros Htz Ht. destruct (localtime_shape tz t Htz ltac:(lia)) as [Hy _].
  pose proof (Htz t). pose proof (Htz (t - max_fold_seconds)%Z).
  unfold fromtimestamp. rewrite time_t_of_ok by lia. simpl.
  rewrite localtime_r_ok by done. simpl.
  rewrite utc_to_seconds_ok by done. simpl.
  rewrite local_seconds_ok by (done || (unfold max_fold_seconds; lia)). simpl.
  destruct (_ <? 0)%Z eqn:E; [|done].
  rewrite local_seconds_ok; [done | done |]. unfold max_fold_seconds in *. lia.
Qed.

Lemma fromtimestamp_shape tz t :
  (forall x, - 86400 < tz x < 86400)%Z -> (10 ^ 7 <= t <= 10 ^ 10)%Z ->
  exists dt, fromtimestamp tz t = Ok dt /\ timestamp_shape (strftime dt) = true.
Proof.
  intros Htz Ht. exists (localtime tz t). split; [by apply fromtimestamp_ok|].
  by apply localtime_shape; [|lia].
Qed.

Lemma callback_ok tz m d :
  (forall x, - 86400 < tz x < 86400)%Z ->
  group 1 m = d -> ts_digits d = true ->
  exists t, DataOnly.unix_timestamp_to_postgres tz m = Ok t.
Proof.
  intros Htz Hg Hd. rewrite (callback_unfold tz m d Hg Hd).
  rewrite (fromtimestamp_ok tz _ Htz (epoch_seconds_range d Hd)). by eexists.
Qed.

(** ** The rule never raises *)

Lemma ts_hit_group prev s m :
  match_at false DataOnly.ts_pattern prev s = Some m ->
  ts_digits (group 1 m) = true /\ whole m = group 1 m.
Proof.
  intros (ds & r & -> & Hds & Hlen & Hw & Hg)%ts_match_inv.
  unfold group. rewrite Hg, Hw. simpl nth. split; [|done].
  unfold ts_digits. cbv beta iota.
  apply andb_true_intro; split; [apply andb_true_intro; split|].
  - apply forallb_forall. intros c Hc. rewrite Forall_forall in Hds. by apply Hds.
  - apply Nat.leb_le; lia.
  - apply Nat.leb_le; lia.
Qed.

Lemma ts_segs_ok tz s :
  (forall x, - 86400 < tz x < 86400)%Z -> forall n prev,
  sub_segs (DataOnly.unix_timestamp_to_postgres tz) (scan false DataOnly.ts_pattern n prev s)
  = Ok (flat_map (seg_out (ts_replacement tz)) (scan false DataOnly.ts_pattern n prev s)).
Proof.
  intros Htz. induction s as [|c s IH]; intros n prev; [done|]. cbn [scan].
  destruct n as [|n]; [|apply IH].
  destruct (match_at false DataOnly.ts_pattern prev (c :: s)) as [m|] eqn:E;
    [|simpl; by rewrite IH].
  destruct (length (whole m)) as [|j]; [simpl; by rewrite IH|].
  apply ts_hit_group in E as [Hd _].
  destruct (callback_ok tz m _ Htz eq_refl Hd) as [t Ht].
  simpl. unfold ts_replacement. rewrite Ht, IH. by simpl.
Qed.

(** In a time zone whose offset is less than a day the timestamp rule
    returns a result, and so does the whole rewriting. *)
Lemma convert_timestamps_ok tz s :
  (forall x, - 86400 < tz x < 86400)%Z ->
  DataOnly.convert_timestamps tz s = Ok (sub_with false DataOnly.ts_pattern (ts_replacement tz) s).
Proof. intros Htz. by apply ts_segs_ok. Qed.

Lemma data_rewrite_ok tz s :
  (forall x, - 86400 < tz x < 86400)%Z ->
  DataOnly.rewrite tz s =
  Ok (DataOnly.undouble_quotes (null_to_default (DataOnly.convert_booleans
        (sub_with false DataOnly.ts_pattern (ts_replacement tz) (quote_table_names s))))).
Proof. intros Htz. unfold DataOnly.rewrite. by rewrite convert_timestamps_ok. Qed.

(** ** Where the rule looks *)

Lemma ts_rejects c : is_word c = false -> rejects false c DataOnly.ts_pattern.
Proof.
  intros Hc. unfold rejects, DataOnly.ts_pattern.
  repeat constructor; [by apply nonword_not_one | by apply nonword_not_digit].
Qed.

Lemma text_last_case (s : text) : s = [] \/ exists b c, s = b ++ [c].
Proof.
  destruct (rev s) as [|c r] eqn:E.
  - left. by rewrite <- (rev_involutive s), E.
  - right. exists (rev r), c. by rewrite <- (rev_involutive s), E.
Qed.

(** A text that ends outside a word is scanned on its own. *)
Lemma ts_scan_split pre rest :
  ends_nonword pre ->
  scan false DataOnly.ts_pattern 0 None (pre ++ rest) =
  scan false DataOnly.ts_pattern 0 None pre
  ++ scan false DataOnly.ts_pattern 0 (last_of None pre) rest.
Proof.
  intros Hpre. destruct (text_last_case pre) as [->|(b & c & ->)]; [done|].
  unfold ends_nonword in Hpre. rewrite last_of_snoc in *. simpl in Hpre.
  rewrite <- app_assoc. simpl app.
  rewrite !(scan_cut false _ c _ (ts_rejects c Hpre) Hpre b 0 None) by lia.
  by rewrite <- app_assoc.
Qed.

(** A text that starts outside a word is scanned the same whatever
    precedes it. *)
Lemma ts_scan_start p1 p2 post :
  starts_nonword post ->
  scan false DataOnly.ts_pattern 0 p1 post = scan false DataOnly.ts_pattern 0 p2 post.
Proof.
  destruct post as [|c post]; [done|]. intros Hc. unfold starts_nonword in Hc; simpl in Hc.
  by rewrite !(scan_rejected false _ c _ _ (ts_rejects c Hc) Hc).
Qed.

Lemma ts_scan_around pre d post :
  ts_digits d = true -> ends_nonword pre -> starts_nonword post ->
  scan false DataOnly.ts_pattern 0 None (pre ++ d ++ post) =
  scan false DataOnly.ts_pattern 0 None pre
  ++ Hit {| whole := d; groups := [d] |} :: scan false DataOnly.ts_pattern 0 None post.
Proof.
  intros Hd Hpre Hpost. rewrite ts_scan_split by done. f_equal.
  rewrite (scan_hit false _ _ d post {| whole := d; groups := [d] |}).
  - f_equal. by apply ts_scan_start.
  - by apply ts_match_intro.
  - done.
  - by destruct d.
Qed.

(** C2: in the timestamp rule of the Data-Only Converter, a sequence of
    10 to 13 digits that begins with 1 and is delimited by word boundaries
    is replaced by a single-quoted timestamp of the form
    YYYY-MM-DD HH:MM:SS: the digits are read as a number n, n is divided
    by 1000 (rounding down) when it exceeds 10^10, and the result is
    rendered as local time.  What stands before and after the sequence is
    rewritten on its own.  The local time zone is any whose offset from
    UTC is less than a day.  In particular 1609459200 and 1609459200000
    yield the same timestamp, which in UTC is 2021-01-01 00:00:00. *)
Theorem timestamps_rewritten (tz : Z -> Z) (pre d post : text) :
  (forall x, - 86400 < tz x < 86400)%Z ->
  ts_digits d = true -> ends_nonword pre -> starts_nonword post ->
  (exists dt out_pre out_post,
     fromtimestamp tz (epoch_seconds d) = Ok dt /\
     timestamp_shape (strftime dt) = true /\
     DataOnly.convert_timestamps tz pre = Ok out_pre /\
     DataOnly.convert_timestamps tz post = Ok out_post /\
     DataOnly.convert_timestamps tz (pre ++ d ++ post)
     = Ok (out_pre ++ DataOnly.quoted (strftime dt) ++ out_post)) /\
  DataOnly.convert_timestamps tz (txt "1609459200")
  = DataOnly.convert_timestamps tz (txt "1609459200000") /\
  DataOnly.convert_timestamps (fun _ => 0%Z) (txt "(1609459200,1609459200000)")
  = Ok (txt "('2021-01-01 00:00:00','2021-01-01 00:00:00')").
Proof.
  intros Htz Hd Hpre Hpost.
  assert (forall e, ts_digits e = true ->
            exists dt, fromtimestamp tz (epoch_seconds e) = Ok dt /\
              timestamp_shape (strftime dt) = true /\
              DataOnly.convert_timestamps tz e = Ok (DataOnly.quoted (strftime dt)))
    as Hone.
  { intros e He.
    destruct (fromtimestamp_shape tz (epoch_seconds e) Htz (epoch_seconds_range e He))
      as (dt & Hdt & Hshape).
    exists dt. split; [done|]. split; [done|].
    rewrite convert_timestamps_ok by done. unfold sub_with, finditer.
    pose proof (ts_scan_around [] e [] He eq_refl eq_refl) as Hs.
    rewrite app_nil_r in Hs. simpl app in Hs. rewrite Hs. simpl.
    unfold ts_replacement.
    rewrite (callback_unfold tz {| whole := e; groups := [e] |} e eq_refl He), Hdt.
    by rewrite app_nil_r. }
  split; [|split].
  - destruct (Hone d Hd) as (dt & Hdt & Hshape & _).
    exists dt, (sub_with false DataOnly.ts_pattern (ts_replacement tz) pre),
      (sub_with false DataOnly.ts_pattern (ts_replacement tz) post).
    split; [done|]. split; [done|].
    rewrite !convert_timestamps_ok by done. split; [done|]. split; [done|].
    f_equal. unfold sub_with, finditer.
    rewrite ts_scan_around by done. rewrite flat_map_app. simpl. f_equal. f_equal.
    unfold ts_replacement.
    by rewrite (callback_unfold tz {| whole := d; groups := [d] |} d eq_refl Hd), Hdt.
  - destruct (Hone (txt "1609459200") eq_refl) as (dt1 & Hdt1 & _ & ->).
    destruct (Hone (txt "1609459200000") eq_refl) as (dt2 & Hdt2 & _ & ->).
    change (epoch_seconds (txt "1609459200000")) with (epoch_seconds (txt "1609459200")) in Hdt2.
    rewrite Hdt1 in Hdt2. by injection Hdt2 as ->.
  - vm_compute. reflexivity.
Qed.

Lemma timestamps_rewritten_witness :
  (forall x : Z, - 86400 < 3600 < 86400)%Z /\
  ts_digits (txt "1609459200") = true /\
  ends_nonword (txt "VALUES(") /\ starts_nonword (txt ",5);") /\
  DataOnly.convert_timestamps (fun _ => 3600%Z) (txt "1609459200")
  = DataOnly.convert_timestamps (fun _ => 3600%Z) (txt "1609459200000").
Proof.
  assert (forall x : Z, - 86400 < 3600 < 86400)%Z as H1 by (intros; lia).
  assert (ts_digits (txt "1609459200") = true) as H2 by reflexivity.
  assert (ends_nonword (txt "VALUES(")) as H3 by reflexivity.
  assert (starts_nonword (txt ",5);")) as H4 by reflexivity.
  destruct (timestamps_rewritten (fun _ => 3600%Z) _ _ _ H1 H2 H3 H4) as (_ & H5 & _).
  exact (conj H1 (conj H2 (conj H3 (conj H4 H5)))).
Defined.

Lemma py_int_raises s e : py_int s = Raise e -> e = ValueError.
Proof.
  unfold py_int.
  destruct (rev (drop_while int_space (rev (drop_while int_space s)))) as [|c body].
  - by intros [= <-].
  - destruct (match c :: body with
              | "-"%char :: r => (true, r)
              | "+"%char :: r => (false, r)
              | _ => (false, c :: body)
              end) as [neg [|x ds]]; [by intros [= <-]|].
    destruct (is_digit x); [|by intros [= <-]].
    destruct (int_digits false 0 0 (x :: ds)) as [[n count]|]; [|by intros [= <-]].
    destruct (Nat.ltb max_str_digits count); [by intros [= <-] | discriminate].
Qed.

(** C8: when parsing the digits fails, or building the calendar timestamp
    fails with one of the two exceptions the callback catches, the
    callback returns the original digits in single quotes.  On a digit
    sequence the timestamp pattern matches, in a time zone whose offset is
    less than a day, the callback always returns a result, so the
    rewriting of the Data-Only Converter returns a result for every input:
    no exception of the timestamp rule ends the run. *)
Theorem timestamp_failure_falls_back (tz : Z -> Z) (m : rmatch) :
  (forall x, - 86400 < tz x < 86400)%Z ->
  ((exists e, py_int (group 1 m) = Raise e) \/
   (exists n e, py_int (group 1 m) = Ok n /\ (e = ValueError \/ e = OSError) /\
      fromtimestamp tz (if (10 ^ 10 <? n)%Z then (n / 1000)%Z else n) = Raise e)) ->
  DataOnly.unix_timestamp_to_postgres tz m = Ok (DataOnly.quoted (group 1 m)) /\
  (forall prev s m', match_at false DataOnly.ts_pattern prev s = Some m' ->
     exists t, DataOnly.unix_timestamp_to_postgres tz m' = Ok t) /\
  (forall content, exists out, DataOnly.rewrite tz content = Ok out).
Proof.
  intros Htz Hfail. split; [|split].
  - unfold DataOnly.unix_timestamp_to_postgres.
    destruct Hfail as [[e He]|(n & e & Hn & He & Hts)].
    + rewrite He. apply py_int_raises in He as ->. done.
    + rewrite Hn. simpl. rewrite Hts. by destruct He as [-> | ->].
  - intros prev s m' Hm. apply ts_hit_group in Hm as [Hd _].
    by apply (callback_ok tz m' _ Htz eq_refl).
  - intros content. rewrite data_rewrite_ok by done. by eexists.
Qed.

Lemma timestamp_failure_falls_back_witness :
  (forall x : Z, - 86400 < 0 < 86400)%Z /\
  py_int (txt "100000000000000000") = Ok (10 ^ 17)%Z /\
  fromtimestamp (fun _ => 0%Z) (10 ^ 14) = Raise ValueError /\
  DataOnly.unix_timestamp_to_postgres (fun _ => 0%Z)
    {| whole := txt "100000000000000000"; groups := [txt "100000000000000000"] |}
  = Ok (txt "'100000000000000000'").
Proof.
  assert (forall x : Z, - 86400 < 0 < 86400)%Z as H1 by (intros; lia).
  assert (py_int (txt "100000000000000000") = Ok (10 ^ 17)%Z) as H2
    by (vm_compute; reflexivity).
  assert (fromtimestamp (fun _ => 0%Z) (10 ^ 14) = Raise ValueError) as H3
    by (vm_compute; reflexivity).
  destruct (timestamp_failure_falls_back (fun _ => 0%Z)
              {| whole := txt "100000000000000000"; groups := [txt "100000000000000000"] |}
              H1) as [H4 _].
  - right. exists (10 ^ 17)%Z, ValueError. split; [exact H2|]. split; [by left|].
    vm_compute. reflexivity.
  - exact (conj H1 (conj H2 (conj H3 H4))).
Defined.

(** * Quoting the table name after INSERT INTO *)

Lemma scan_prev_free icase pat :
  (forall p1 p2 s, match_at icase pat p1 s = match_at icase pat p2 s) ->
  forall s n p1 p2, scan icase pat n p1 s = scan icase pat n p2 s.
Proof.
  intros H. induction s as [|c s IH]; intros n p1 p2; [done|]. cbn [scan].
  destruct n; [|done]. by rewrite (H p1 p2).
Qed.

(** What the pattern matches: the keyword, then the longest non-empty
    run of name characters. *)
Lemma insert_match prev s :
  match_at false insert_pattern prev s =
  match lit_prefix false (txt "INSERT INTO ") s with
  | Some (_, r) =>
      let '(name, _) := span name_chr r in
      if 1 <=? length name
      then Some {| whole := txt "INSERT INTO " ++ name; groups := [name] |}
      else None
  | None => None
  end.
Proof.
  unfold match_at, insert_pattern, lits. rewrite match_lits.
  destruct (lit_prefix false (txt "INSERT INTO ") s) as [[u r]|] eqn:E; [|done].
  apply lit_prefix_exact in E as [-> _]. cbn [match_items].
  rewrite rep_total by done.
  destruct (span name_chr r) as [name rest]. destruct (1 <=? length name); [|done].
  cbn [match_items]. unfold finish, gclose, gopen, pushes. cbn [taken mark caps mstart].
  rewrite !app_nil_l. by rewrite drop_app_length.
Qed.

Lemma insert_prev_free p1 p2 s :
  match_at false insert_pattern p1 s = match_at false insert_pattern p2 s.
Proof. by rewrite !insert_match. Qed.

Lemma insert_scan_prev s n p1 p2 :
  scan false insert_pattern n p1 s = scan false insert_pattern n p2 s.
Proof. apply scan_prev_free. apply insert_prev_free. Qed.

Lemma name_chr_not_dq c : name_chr c = true -> c <> dq.
Proof. intros H ->. discriminate H. Qed.

Lemma name_chr_not_space c : name_chr c = true -> Ascii.eqb " " c = false.
Proof. intros H. each_char c. Qed.

(** One step of the scan: either nothing matches here and the character
    is copied, or the text starts with the keyword and a name, which is
    put in quotes. *)
Lemma quote_step c s :
  (match_at false insert_pattern None (c :: s) = None /\
   quote_table_names (c :: s) = c :: quote_table_names s) \/
  (exists name rest,
     c :: s = txt "INSERT INTO " ++ name ++ rest /\
     name <> [] /\ Forall (fun x => name_chr x = true) name /\ stops name_chr rest /\
     quote_table_names (c :: s)
     = txt "INSERT INTO " ++ dq :: name ++ dq :: quote_table_names rest).
Proof.
  unfold quote_table_names, re_sub, sub_with, finditer.
  destruct (match_at false insert_pattern None (c :: s)) as [m|] eqn:E.
  - right. pose proof E as E'. rewrite insert_match in E.
    destruct (lit_prefix false (txt "INSERT INTO ") (c :: s)) as [[u r]|] eqn:El;
      [|discriminate].
    apply lit_prefix_exact in El as [-> Hs].
    destruct (span name_chr r) as [name rest] eqn:Es.
    apply span_spec in Es as (-> & Hname & Hrest).
    destruct (Nat.leb_spec 1 (length name)); [|discriminate].
    injection E as <-. exists name, rest.
    split; [done|]. split; [by destruct name; [simpl in *; lia|]|].
    split; [done|]. split; [done|].
    rewrite Hs, app_assoc.
    rewrite (scan_hit false _ None (txt "INSERT INTO " ++ name) rest
               {| whole := txt "INSERT INTO " ++ name; groups := [name] |}).
    + cbn [flat_map seg_out]. rewrite (insert_scan_prev rest 0 _ None).
      unfold expand, insert_template. simpl. by rewrite <- !app_assoc.
    + by rewrite <- app_assoc, <- Hs.
    + done.
    + done.
  - left. split; [done|]. by rewrite scan_keep, (insert_scan_prev s 0 _ None).
Qed.
Lemma lit_prefix_mismatch icase i : forall w s a c,
  nth_error w i = Some a -> nth_error s i = Some c -> chr_eq icase a c = false ->
  lit_prefix icase w s = None.
Proof.
  induction i as [|i IH]; intros [|x w] [|y s] a c Hw Hs Hac; try discriminate.
  - injection Hw as ->. injection Hs as ->. simpl. by rewrite Hac.
  - simpl in *. destruct (chr_eq icase x y); [|done]. by rewrite (IH w s a c).
Qed.

(** Nothing matches inside a name that is followed by a double quote. *)
Lemma no_keyword_in_name w X :
  Forall (fun x => name_chr x = true) w ->
  lit_prefix false (txt "INSERT INTO ") (w ++ dq :: X) = None.
Proof.
  intros Hw.
  destruct w as [|a0 [|a1 [|a2 [|a3 [|a4 [|a5 [|a6 w]]]]]]].
  1: by apply (lit_prefix_mismatch false 0 _ _ "I"%char dq).
  1: by apply (lit_prefix_mismatch false 1 _ _ "N"%char dq).
  1: by apply (lit_prefix_mismatch false 2 _ _ "S"%char dq).
  1: by apply (lit_prefix_mismatch false 3 _ _ "E"%char dq).
  1: by apply (lit_prefix_mismatch false 4 _ _ "R"%char dq).
  1: by apply (lit_prefix_mismatch false 5 _ _ "T"%char dq).
  1: by apply (lit_prefix_mismatch false 6 _ _ " "%char dq).
  apply (lit_prefix_mismatch false 6 _ _ " "%char a6); [done | done |].
  do 6 (apply Forall_inv_tail in Hw). apply Forall_inv in Hw.
  by apply name_chr_not_space.
Qed.

Lemma scan_name w X prev :
  Forall (fun x => name_chr x = true) w ->
  scan false insert_pattern 0 prev (w ++ dq :: X)
  = map Keep (w ++ [dq]) ++ scan false insert_pattern 0 None X.
Proof.
  intros Hw. revert prev. induction Hw as [|c w Hc Hw IH]; intros prev.
  - simpl app. rewrite scan_keep; [by rewrite (insert_scan_prev X 0 _ None)|].
    rewrite insert_match. pose proof (no_keyword_in_name [] X ltac:(constructor)) as H.
    simpl app in H. by rewrite H.
  - change ((c :: w) ++ dq :: X) with (c :: (w ++ dq :: X)).
    rewrite scan_keep; [by rewrite IH|].
    rewrite insert_match.
    pose proof (no_keyword_in_name (c :: w) X ltac:(by constructor)) as H.
    simpl app in H. by rewrite H.
Qed.

Lemma flat_map_keep repl (u : text) : flat_map (seg_out repl) (map Keep u) = u.
Proof. induction u as [|c u IH]; simpl; [done | by rewrite IH]. Qed.

(** A table name that is already quoted is left alone. *)
Lemma quoted_name_kept name X :
  Forall (fun x => name_chr x = true) name ->
  quote_table_names (txt "INSERT INTO " ++ dq :: name ++ dq :: X)
  = txt "INSERT INTO " ++ dq :: name ++ dq :: quote_table_names X.
Proof.
  intros Hname. unfold quote_table_names, re_sub, sub_with, finditer.
  cbn [txt list_ascii_of_string app].
  do 13 (rewrite scan_keep by (rewrite insert_match; reflexivity)).
  rewrite scan_name by done. cbn [flat_map seg_out app].
  rewrite flat_map_app, flat_map_keep, <- app_assoc. done.
Qed.

Lemma prefix_before (t u : text) x Y :
  t `prefix_of` (u ++ x :: Y) -> x ∉ t -> t `prefix_of` u.
Proof.
  revert t. induction u as [|a u IH]; intros [|b t] Hp Hx;
    try apply prefix_nil.
  - exfalso. apply prefix_cons_inv_1 in Hp as ->. apply Hx. by left.
  - simpl in Hp. pose proof (prefix_cons_inv_1 _ _ _ _ Hp) as ->.
    apply prefix_cons, IH; [by apply prefix_cons_inv_2 in Hp|].
    intros Hin. apply Hx. by right.
Qed.

(** A text without double quotes that starts the output also starts the
    input. *)
Lemma quote_prefix s : forall t,
  dq ∉ t -> t `prefix_of` quote_table_names s -> t `prefix_of` s.
Proof.
  induction s as [|c s IH]; intros t Ht Hp; [done|].
  destruct (quote_step c s) as [[_ Hq]|(name & rest & Hs & _ & _ & _ & Hq)];
    rewrite Hq in Hp.
  - destruct t as [|x t]; [apply prefix_nil|].
    pose proof (prefix_cons_inv_1 _ _ _ _ Hp) as ->.
    apply prefix_cons, IH; [|by apply prefix_cons_inv_2 in Hp].
    intros Hin. apply Ht. by right.
  - rewrite Hs. apply prefix_app_r. by apply (prefix_before t _ dq _ Hp).
Qed.

(** The pattern matches exactly where the keyword is followed by a name
    character. *)
Lemma insert_match_some prev s :
  match_at false insert_pattern prev s <> None <->
  exists n Z, s = txt "INSERT INTO " ++ n :: Z /\ name_chr n = true.
Proof.
  rewrite insert_match. split.
  - destruct (lit_prefix false (txt "INSERT INTO ") s) as [[u r]|] eqn:E; [|done].
    apply lit_prefix_exact in E as [_ ->].
    destruct r as [|n Z]; [done|]. simpl span.
    destruct (name_chr n) eqn:En; [|done]. intros _. by exists n, Z.
  - intros (n & Z & -> & Hn). rewrite lit_prefix_same. simpl span. rewrite Hn.
    by destruct (span name_chr Z).
Qed.

Lemma keyword_no_dq : dq ∉ txt "INSERT INTO ".
Proof.
  cbn [txt list_ascii_of_string]. rewrite !elem_of_cons, elem_of_nil. unfold dq.
  intros H. repeat (destruct H as [H|H]; [discriminate H|]). done.
Qed.

Lemma quote_keeps_no_match c s :
  match_at false insert_pattern None (c :: s) = None ->
  match_at false insert_pattern None (c :: quote_table_names s) = None.
Proof.
  intros Hnone.
  destruct (match_at false insert_pattern None (c :: quote_table_names s)) as [m|] eqn:E;
    [|done].
  exfalso.
  assert (match_at false insert_pattern None (c :: quote_table_names s) <> None) as Hsome
    by (by rewrite E).
  apply insert_match_some in Hsome as (n & Z & Hs & Hn).
  destruct (quote_step c s) as [[_ Hq]|(name & rest & Hs' & Hne & Hname & _ & _)].
  - assert ((txt "INSERT INTO " ++ [n]) `prefix_of` (c :: s)) as [Z' HZ].
    { apply quote_prefix.
      - rewrite elem_of_app, list_elem_of_singleton.
        intros [Hin|Heq]; [by apply keyword_no_dq|].
        by apply name_chr_not_dq in Hn.
      - rewrite Hq, Hs. exists Z. by rewrite <- app_assoc. }
    assert (match_at false insert_pattern None (c :: s) <> None) as Hc; [|done].
    apply insert_match_some. exists n, Z'. split; [|done]. by rewrite HZ, <- app_assoc.
  - assert (match_at false insert_pattern None (c :: s) <> None) as Hc; [|done].
    apply insert_match_some. destruct name as [|x name]; [done|].
    exists x, (name ++ rest). split; [done|]. by apply Forall_inv in Hname.
Qed.

(** C10: quoting the table name after INSERT INTO a second time changes
    nothing, and a name that begins with a double quote is never
    matched. *)
Theorem quote_table_names_idempotent (s : text) :
  quote_table_names (quote_table_names s) = quote_table_names s /\
  (forall prev r, match_at false insert_pattern prev (txt "INSERT INTO " ++ dq :: r) = None).
Proof.
  split.
  - remember (length s) as n eqn:Hn. revert s Hn.
    induction n as [n IH] using lt_wf_ind. intros [|c s] Hn; [done|].
    destruct (quote_step c s) as [[Hnone Hq]|(name & rest & Hs & Hne & Hname & _ & Hq)];
      rewrite Hq.
    + destruct (quote_step c (quote_table_names s)) as [[_ Hq']|(? & ? & Hs' & ? & Hname' & _)].
      * rewrite Hq'. f_equal. apply (IH (length s)); [simpl in Hn; lia | done].
      * exfalso. pose proof (quote_keeps_no_match c s Hnone) as Hk.
        assert (match_at false insert_pattern None (c :: quote_table_names s) <> None) as Hc;
          [|done].
        apply insert_match_some. destruct x as [|y x]; [done|].
        exists y, (x ++ x0). split; [done|]. by apply Forall_inv in Hname'.
    + rewrite quoted_name_kept by done. do 4 f_equal.
      apply (IH (length rest)); [|done].
      apply (f_equal (@length ascii)) in Hs. rewrite !length_app in Hs. simpl in Hs, Hn.
      destruct name; [done|]. simpl in Hs. lia.
  - intros prev r. rewrite insert_match, lit_prefix_same. by simpl.
Qed.

(** * Backticks *)

(** A pattern that begins with a literal is not found where that literal
    does not occur. *)
Lemma scan_without_first a pat u X : forall prev,
  a ∉ u ->
  scan false (Lit a :: pat) 0 prev (u ++ X)
  = map Keep u ++ scan false (Lit a :: pat) 0 (last_of prev u) X.
Proof.
  induction u as [|c u IH]; intros prev Hu; [done|].
  change ((c :: u) ++ X) with (c :: (u ++ X)).
  rewrite scan_keep.
  - simpl. f_equal. apply IH. intros Hin. apply Hu. by right.
  - unfold match_at. cbn [match_items].
    destruct (chr_eq false a c) eqn:E; [|done].
    apply chr_eq_exact in E as ->. exfalso. apply Hu. by left.
Qed.

Lemma not_chr_Forall a (u : text) : a ∉ u -> Forall (fun c => not_chr a c = true) u.
Proof.
  intros Hu. apply Forall_forall. intros c Hc. unfold not_chr.
  destruct (Ascii.eqb_spec a c) as [->|]; [|done].
  exfalso. apply Hu. by apply list_elem_of_In.
Qed.

Lemma backtick_match prev id post :
  id <> [] -> bt ∉ id ->
  match_at false ToPostgres.backtick_pattern prev (bt :: id ++ bt :: post)
  = Some {| whole := bt :: id ++ [bt]; groups := [id] |}.
Proof.
  intros Hne Hid. unfold match_at, ToPostgres.backtick_pattern. cbn [match_items].
  change (chr_eq false bt bt) with true. cbv iota.
  apply rep_greedy.
  - by apply not_chr_Forall.
  - done.
  - destruct id; [done | simpl; lia].
  - done.
  - cbn [match_items]. change (chr_eq false bt bt) with true. cbv iota.
    unfold finish, push, gclose, pushes, gopen. cbn [taken mark caps mstart].
    rewrite !app_nil_l. done.
Qed.

Lemma rep_prev_free p k :
  (forall p1 p2 s st, k p1 s st = k p2 s st) ->
  forall s lo hi p1 p2 st, rep p lo hi k p1 s st = rep p lo hi k p2 s st.
Proof.
  intros Hk. induction s as [|c s IH]; intros lo hi p1 p2 st; simpl.
  - destruct lo; [apply Hk | done].
  - by rewrite (Hk p1 p2 (c :: s) st).
Qed.

(** Without [\b] in the pattern the character before a position plays
    no role. *)
Lemma match_items_prev_free icase pat :
  Forall (fun it => it <> Bound) pat ->
  forall p1 p2 s st, match_items icase pat p1 s st = match_items icase pat p2 s st.
Proof.
  induction 1 as [|it pat Hit _ IH]; simpl; [done|].
  destruct it as [a|p lo hi| | |]; intros p1 p2 s st;
    [done | by apply rep_prev_free | done | apply IH | apply IH].
Qed.

Lemma backtick_prev_free p1 p2 s :
  match_at false ToPostgres.backtick_pattern p1 s
  = match_at false ToPostgres.backtick_pattern p2 s.
Proof. apply match_items_prev_free. repeat constructor; discriminate. Qed.

(** The first backtick-wrapped identifier of a text is re-emitted in
    double quotes, and the rule goes on after it. *)
Lemma requote_first pre id post :
  bt ∉ pre -> id <> [] -> bt ∉ id ->
  ToPostgres.requote_backticks (pre ++ bt :: id ++ bt :: post)
  = pre ++ dq :: id ++ dq :: ToPostgres.requote_backticks post.
Proof.
  intros Hpre Hne Hid.
  unfold ToPostgres.requote_backticks, re_sub, sub_with, finditer.
  unfold ToPostgres.backtick_pattern at 1.
  rewrite scan_without_first by done.
  fold ToPostgres.backtick_pattern.
  rewrite flat_map_app, flat_map_keep. f_equal.
  pose proof (scan_hit false ToPostgres.backtick_pattern (last_of None pre)
                (bt :: id ++ [bt]) post {| whole := bt :: id ++ [bt]; groups := [id] |})
    as Hhit.
  simpl app in Hhit. rewrite <- app_assoc in Hhit. simpl app in Hhit.
  rewrite Hhit; [|by apply backtick_match | done | done].
  cbn [flat_map seg_out].
  rewrite (scan_prev_free false _ backtick_prev_free post 0 _ None).
  unfold expand at 1. cbn [flat_map group nth groups].
  rewrite app_nil_r. simpl. by rewrite <- app_assoc.
Qed.
(** * The autoincrement idiom *)

Lemma word_lower c : is_word (lower c) = is_word c.
Proof. each_char c. Qed.

Lemma chr_eq_word a c : chr_eq true a c = true -> is_word a = is_word c.
Proof.
  unfold chr_eq. intros H%Ascii.eqb_eq.
  by rewrite <- (word_lower a), <- (word_lower c), H.
Qed.

Lemma chr_eq_lower a c : chr_eq true a c = true -> lower a = lower c.
Proof. unfold chr_eq. by intros H%Ascii.eqb_eq. Qed.

(** What a pattern of the form [\bword\b] matches. *)
Lemma whole_word_match icase w prev s :
  match_at icase (ToPostgres.whole_word w) prev s =
  if at_boundary prev (head s) then
    match lit_prefix icase (txt w) s with
    | Some (u, r) =>
        if at_boundary (last_of prev u) (head r)
        then Some {| whole := u; groups := [] |} else None
    | None => None
    end
  else None.
Proof.
  unfold match_at, ToPostgres.whole_word, lits. cbn [match_items].
  destruct (at_boundary prev (head s)); [|done]. rewrite match_lits.
  destruct (lit_prefix icase (txt w) s) as [[u r]|]; [|done]. cbn [match_items].
  destruct (at_boundary _ _); [|done].
  unfold finish, pushes. cbn [taken caps mstart]. by rewrite app_nil_l.
Qed.

(** When every match attempt inside [pre] sees the same with and without
    [rest] behind it, the scan of [pre ++ rest] is the scan of [pre]
    followed by the scan of [rest]. *)
Lemma scan_local icase pat rest : forall pre n prev,
  n <= length pre ->
  (forall a b, pre = a ++ b -> b <> [] ->
     match_at icase pat (last_of prev a) (b ++ rest)
     = match_at icase pat (last_of prev a) b) ->
  scan icase pat n prev (pre ++ rest)
  = scan icase pat n prev pre ++ scan icase pat 0 (last_of prev pre) rest.
Proof.
  induction pre as [|c pre IH]; intros n prev Hn H.
  - simpl in Hn. by assert (n = 0) as -> by lia.
  - assert (forall a b, pre = a ++ b -> b <> [] ->
              match_at icase pat (last_of (Some c) a) (b ++ rest)
              = match_at icase pat (last_of (Some c) a) b) as H'.
    { intros a b -> Hb. by apply (H (c :: a) b). }
    change ((c :: pre) ++ rest) with (c :: (pre ++ rest)). cbn [scan].
    destruct n as [|n]; [|simpl in Hn; rewrite IH; [done | lia | done]].
    pose proof (H [] (c :: pre) eq_refl ltac:(done)) as H0. simpl in H0. rewrite H0.
    destruct (match_at icase pat prev (c :: pre)) as [m|] eqn:E;
      [|rewrite IH; [done | lia | done]].
    destruct (length (whole m)) as [|j] eqn:El; [rewrite IH; [done | lia | done]|].
    apply match_at_prefix in E as [s' Hs].
    assert (j <= length pre).
    { apply (f_equal (@length ascii)) in Hs. rewrite length_app in Hs. simpl in Hs. lia. }
    by rewrite IH.
Qed.

Lemma lit_prefix_length icase w s u r :
  lit_prefix icase w s = Some (u, r) -> length u = length w.
Proof. intros [_ HF]%lit_prefix_spec. symmetry. by apply Forall2_length in HF. Qed.

(** A comparison that fits inside [b] does not see what follows [b]. *)
Lemma lit_prefix_inside icase w : forall b x,
  length w <= length b ->
  lit_prefix icase w (b ++ x) =
  match lit_prefix icase w b with
  | Some (u, r) => Some (u, r ++ x)
  | None => None
  end.
Proof.
  induction w as [|a w IH]; intros b x Hl; [done|].
  destruct b as [|c b]; [simpl in Hl; lia|]. simpl.
  destruct (chr_eq icase a c); [|done].
  rewrite IH by (simpl in Hl; lia).
  by destruct (lit_prefix icase w b) as [[u r]|].
Qed.

Lemma no_junction j : j < 33 -> junction_possible autoincrement_idiom j = false.
Proof.
  intros Hj.
  assert (forallb (fun i => negb (junction_possible autoincrement_idiom i)) (seq 0 33) = true)
    as H by (vm_compute; reflexivity).
  rewrite forallb_forall in H. apply negb_true_iff, H, in_seq. lia.
Qed.

(** No occurrence of the idiom runs across a non-word character into the
    beginning of another occurrence, or ends on a non-word character. *)
Lemma idiom_not_across x c y :
  is_word c = false -> length x < 33 ->
  match y with [] => True | o :: _ => chr_eq true "I" o = true end ->
  lit_prefix true autoincrement_idiom (x ++ c :: y) = None.
Proof.
  intros Hc Hx Hy.
  destruct (lit_prefix true autoincrement_idiom (x ++ c :: y)) as [[u r]|] eqn:E; [|done].
  exfalso. pose proof (lit_prefix_length _ _ _ _ _ E) as Hlen.
  apply lit_prefix_spec in E as [Hs HF].
  change (length autoincrement_idiom) with 33 in Hlen.
  assert (exists u', u = x ++ c :: u' /\ y = u' ++ r) as (u' & -> & ->).
  { apply app_eq_inv in Hs as [(k & -> & Hk)|(k & -> & Hk)].
    - rewrite length_app in Hx. lia.
    - destruct k as [|c' k]; [rewrite app_nil_r in Hlen; lia|].
      simpl in Hk. injection Hk as -> ->. by exists k. }
  apply Forall2_app_inv_r in HF as (w1 & w2' & Hw1 & Hw2 & Hw).
  apply Forall2_cons_inv_r in Hw2 as (a & w2 & Ha & Hw2 & ->).
  pose proof (Forall2_length Hw1) as Hl1.
  pose proof (no_junction (length w1) ltac:(lia)) as Hno.
  unfold junction_possible in Hno. rewrite Hw in Hno.
  rewrite nth_middle in Hno.
  rewrite (chr_eq_word a c Ha), Hc in Hno. simpl negb in Hno. rewrite andb_true_l in Hno.
  replace (skipn (S (length w1)) (w1 ++ a :: w2)) with w2 in Hno.
  2:{ change (a :: w2) with ([a] ++ w2). rewrite app_assoc.
      rewrite drop_app_length'; [done|]. rewrite length_app. simpl. lia. }
  destruct w2 as [|a' w2]; [discriminate|].
  apply Forall2_cons_inv_l in Hw2 as (o & u'' & Ho & _ & ->).
  cbn [app] in Hy. rewrite <- Hw in Hno.
  change (nth 0 autoincrement_idiom "000"%char) with "I"%char in Hno.
  apply chr_eq_lower in Ho, Hy. rewrite Ho, <- Hy in Hno.
  by rewrite Ascii.eqb_refl in Hno.
Qed.
Lemma idiom_head occ :
  same_ignoring_case autoincrement_idiom occ ->
  exists o r, occ = o :: r /\ chr_eq true "I" o = true.
Proof.
  intros H. unfold autoincrement_idiom in H. cbn [txt list_ascii_of_string] in H.
  apply Forall2_cons_inv_l in H as (o & r & Ho & _ & ->). by exists o, r.
Qed.

Lemma idiom_last occ prev :
  same_ignoring_case autoincrement_idiom occ -> word_at (last_of prev occ) = true.
Proof.
  intros H.
  change autoincrement_idiom with (txt "INTEGER PRIMARY KEY AUTOINCREMEN" ++ ["T"%char]) in H.
  apply Forall2_app_inv_l in H as (u1 & u2 & _ & H2 & ->).
  apply Forall2_cons_inv_l in H2 as (t & u3 & Ht & H3 & ->).
  apply Forall2_nil_inv_l in H3 as ->.
  rewrite last_of_snoc. simpl. by rewrite <- (chr_eq_word _ _ Ht).
Qed.

Lemma ends_nonword_last a b :
  ends_nonword (a ++ b) -> b <> [] -> exists b' c, b = b' ++ [c] /\ is_word c = false.
Proof.
  intros He Hb. destruct (text_last_case b) as [->|(b' & c & ->)]; [done|].
  exists b', c. split; [done|]. unfold ends_nonword in He.
  by rewrite app_assoc, last_of_snoc in He.
Qed.

(** Inside a text that ends outside a word, a match attempt sees the same
    whether or not an occurrence of the idiom follows the text. *)
Lemma idiom_local a b occ post :
  ends_nonword (a ++ b) -> b <> [] -> same_ignoring_case autoincrement_idiom occ ->
  match_at true ToPostgres.autoincrement_pattern (last_of None a) (b ++ occ ++ post)
  = match_at true ToPostgres.autoincrement_pattern (last_of None a) b.
Proof.
  intros He Hb Hocc. unfold ToPostgres.autoincrement_pattern.
  rewrite !whole_word_match. fold autoincrement_idiom.
  assert (head (b ++ occ ++ post) = head b) as -> by (by destruct b).
  destruct (at_boundary (last_of None a) (head b)); [|done].
  destruct (ends_nonword_last a b He Hb) as (b' & c & -> & Hc).
  destruct (Nat.lt_ge_cases (length b') 33) as [Hshort|Hlong].
  - rewrite <- !app_assoc. simpl app.
    destruct (idiom_head occ Hocc) as (o & r & -> & Ho).
    rewrite (idiom_not_across b' c _ Hc Hshort) by done.
    pose proof (idiom_not_across b' c [] Hc Hshort I) as ->. done.
  - rewrite lit_prefix_inside
      by (rewrite length_app; change (length autoincrement_idiom) with 33; simpl; lia).
    destruct (lit_prefix true autoincrement_idiom (b' ++ [c])) as [[u r]|] eqn:E; [|done].
    pose proof (lit_prefix_length _ _ _ _ _ E) as Hlen.
    change (length autoincrement_idiom) with 33 in Hlen.
    apply lit_prefix_spec in E as [Hs _].
    apply (f_equal (@length ascii)) in Hs. rewrite !length_app in Hs. simpl in Hs.
    destruct r as [|x r]; [simpl in Hs; lia | done].
Qed.

Lemma idiom_match prev occ post :
  word_at prev = false -> same_ignoring_case autoincrement_idiom occ ->
  starts_nonword post ->
  match_at true ToPostgres.autoincrement_pattern prev (occ ++ post)
  = Some {| whole := occ; groups := [] |}.
Proof.
  intros Hprev Hocc Hpost. unfold ToPostgres.autoincrement_pattern.
  rewrite whole_word_match. fold autoincrement_idiom.
  destruct (idiom_head occ Hocc) as (o & r & Ho & Hi).
  assert (at_boundary prev (head (occ ++ post)) = true) as ->.
  { rewrite Ho. unfold at_boundary. rewrite Hprev. simpl.
    by rewrite <- (chr_eq_word _ _ Hi). }
  rewrite (lit_prefix_intro true autoincrement_idiom occ post Hocc).
  unfold at_boundary. rewrite (idiom_last occ prev Hocc).
  unfold starts_nonword in Hpost. by rewrite Hpost.
Qed.

Lemma idiom_scan_start p1 p2 post :
  starts_nonword post ->
  scan true ToPostgres.autoincrement_pattern 0 p1 post
  = scan true ToPostgres.autoincrement_pattern 0 p2 post.
Proof.
  destruct post as [|c post]; [done|]. intros Hc. unfold starts_nonword in Hc; simpl in Hc.
  assert (forall p, match_at true ToPostgres.autoincrement_pattern p (c :: post) = None) as H.
  { intros p. unfold ToPostgres.autoincrement_pattern. rewrite whole_word_match.
    destruct (at_boundary p _); [|done]. cbn [txt list_ascii_of_string lit_prefix].
    destruct (chr_eq true "I" c) eqn:E; [|done].
    apply chr_eq_word in E. rewrite Hc in E. discriminate E. }
  by rewrite !scan_keep by apply H.
Qed.

(** An occurrence of the idiom between word boundaries is replaced, and
    what stands before and after it is rewritten on its own. *)
Lemma serial_at pre occ post :
  same_ignoring_case autoincrement_idiom occ -> ends_nonword pre -> starts_nonword post ->
  ToPostgres.serial_primary_key (pre ++ occ ++ post)
  = ToPostgres.serial_primary_key pre ++ txt "SERIAL PRIMARY KEY"
    ++ ToPostgres.serial_primary_key post.
Proof.
  intros Hocc Hpre Hpost.
  unfold ToPostgres.serial_primary_key, re_sub_i, sub_with, finditer.
  rewrite scan_local; [|lia|].
  2:{ intros a b -> Hb. by apply idiom_local. }
  rewrite (scan_hit true _ _ occ post {| whole := occ; groups := [] |}).
  - rewrite flat_map_app. cbn [flat_map seg_out]. rewrite expand_rlits.
    by rewrite (idiom_scan_start _ None post Hpost).
  - by apply idiom_match.
  - done.
  - destruct (idiom_head occ Hocc) as (o & r & -> & _). done.
Qed.

(** C6, as stated, fails: not every identifier wrapped in backticks is
    re-emitted wrapped in double quotes.  The backtick rule pairs the
    backticks from the left, so after a stray backtick the wrapped
    identifier [users] keeps its closing backtick and gets its opening
    double quote from the wrong pair; and the type-name rules, which come
    later, turn the requoted identifier [text] into [TEXT]. *)
Lemma backticks_not_all_requoted :
  ToPostgres.requote_backticks (txt "it`s `users`")
  = txt "it" ++ dq :: txt "s " ++ dq :: txt "users`" /\
  ToPostgres.rewrite (txt "it`s `users`")
  = txt "it" ++ dq :: txt "s " ++ dq :: txt "users`" /\
  ToPostgres.rewrite (txt "CREATE TABLE t (`text` TEXT);")
  = txt "CREATE TABLE t (" ++ dq :: txt "TEXT" ++ dq :: txt " TEXT);".
Proof. repeat split; vm_compute; reflexivity. Qed.

(** C6, amended: the Schema-and-Data Converter applies, after the PRAGMA
    rule, the backtick rule, the type-name rules and the rule for the
    autoincrement idiom, in this order, before its other rules.  The
    backtick rule re-emits an identifier wrapped in backticks wrapped in
    double quotes when the text before it holds no backtick, and treats the
    text after it the same way, so it requotes every identifier of a text
    whose backticks come in such pairs.  The autoincrement rule replaces an
    occurrence of INTEGER PRIMARY KEY AUTOINCREMENT in any mix of upper and
    lower case between word boundaries by SERIAL PRIMARY KEY.  On a table
    definition with both, the converter does both. *)
Theorem backticks_and_autoincrement (pre id post pre' occ post' content : text) :
  bt ∉ pre -> id <> [] -> bt ∉ id ->
  same_ignoring_case autoincrement_idiom occ -> ends_nonword pre' -> starts_nonword post' ->
  ToPostgres.requote_backticks (pre ++ bt :: id ++ bt :: post)
  = pre ++ dq :: id ++ dq :: ToPostgres.requote_backticks post /\
  ToPostgres.serial_primary_key (pre' ++ occ ++ post')
  = ToPostgres.serial_primary_key pre' ++ txt "SERIAL PRIMARY KEY"
    ++ ToPostgres.serial_primary_key post' /\
  ToPostgres.rewrite content
  = rules_after_autoincrement
      (ToPostgres.serial_primary_key
         (ToPostgres.upcase_types
            (ToPostgres.requote_backticks (ToPostgres.strip_pragmas content)))) /\
  ToPostgres.rewrite (txt "CREATE TABLE `users` (`id` integer primary key autoincrement);")
  = txt "CREATE TABLE " ++ dq :: txt "users" ++ dq :: txt " (" ++ dq :: txt "id" ++ dq
      :: txt " SERIAL PRIMARY KEY);".
Proof.
  intros Hpre Hne Hid Hocc Hpre' Hpost'. split; [|split; [|split]].
  - by apply requote_first.
  - by apply serial_at.
  - reflexivity.
  - vm_compute. reflexivity.
Qed.

Lemma backticks_and_autoincrement_witness :
  (bt ∉ txt "CREATE TABLE ") /\ txt "users" <> [] /\ (bt ∉ txt "users") /\
  same_ignoring_case autoincrement_idiom (txt "integer Primary Key AUTOINCREMENT") /\
  ends_nonword (txt "id ") /\ starts_nonword (txt ", name TEXT") /\
  ToPostgres.requote_backticks (txt "CREATE TABLE " ++ bt :: txt "users" ++ bt :: txt " (")
  = txt "CREATE TABLE " ++ dq :: txt "users" ++ dq :: ToPostgres.requote_backticks (txt " (") /\
  ToPostgres.serial_primary_key
    (txt "id " ++ txt "integer Primary Key AUTOINCREMENT" ++ txt ", name TEXT")
  = ToPostgres.serial_primary_key (txt "id ") ++ txt "SERIAL PRIMARY KEY"
    ++ ToPostgres.serial_primary_key (txt ", name TEXT").
Proof.
  assert (bt ∉ txt "CREATE TABLE ") as H1 by no_nl.
  assert (txt "users" <> []) as H2 by discriminate.
  assert (bt ∉ txt "users") as H3 by no_nl.
  assert (same_ignoring_case autoincrement_idiom (txt "integer Primary Key AUTOINCREMENT")) as H4
    by (repeat constructor).
  assert (ends_nonword (txt "id ")) as H5 by reflexivity.
  assert (starts_nonword (txt ", name TEXT")) as H6 by reflexivity.
  destruct (backticks_and_autoincrement _ _ (txt " (") _ _ _ [] H1 H2 H3 H4 H5 H6)
    as (H7 & H8 & _).
  exact (conj H1 (conj H2 (conj H3 (conj H4 (conj H5 (conj H6 (conj H7 H8))))))).
Defined.

(** * Lines *)

Lemma split_cons_ne sep c s :
  Ascii.eqb c sep = false ->
  exists l ls, split sep s = l :: ls /\ split sep (c :: s) = (c :: l) :: ls.
Proof.
  intros Hc. simpl. rewrite Hc.
  destruct (split sep s) as [|l ls] eqn:E.
  - exfalso. destruct s as [|x s]; simpl in E; [discriminate|].
    destruct (Ascii.eqb x sep); [discriminate|]. by destruct (split sep s).
  - by exists l, ls.
Qed.

Lemma split_no_sep sep s : Forall (fun l => sep ∉ l) (split sep s).
Proof.
  induction s as [|c s IH]; simpl.
  - constructor; [apply not_elem_of_nil | constructor].
  - destruct (Ascii.eqb_spec c sep) as [->|Hne].
    + constructor; [apply not_elem_of_nil | done].
    + destruct (split sep s) as [|l ls]; [repeat constructor; by rewrite list_elem_of_singleton|].
      pose proof (Forall_inv IH) as Hl. pose proof (Forall_inv_tail IH) as Hls.
      constructor; [|done].
      rewrite elem_of_cons. intros [->|Hin]; [done | by apply Hl].
Qed.

Lemma split_line sep l :
  sep ∉ l -> split sep l = [l].
Proof.
  induction l as [|c l IH]; intros Hl; [done|]. simpl.
  destruct (Ascii.eqb_spec c sep) as [->|Hne]; [exfalso; apply Hl; by left|].
  rewrite IH; [done|]. intros Hin. apply Hl. by right.
Qed.

Lemma split_app_sep sep l rest :
  sep ∉ l -> split sep (l ++ sep :: rest) = l :: split sep rest.
Proof.
  induction l as [|c l IH]; intros Hl; simpl.
  - by rewrite Ascii.eqb_refl.
  - destruct (Ascii.eqb_spec c sep) as [->|Hne]; [exfalso; apply Hl; by left|].
    rewrite IH; [done|]. intros Hin. apply Hl. by right.
Qed.

(** Splitting undoes joining when no piece contains the separator. *)
Lemma split_join sep ls :
  ls <> [] -> Forall (fun l => sep ∉ l) ls -> split sep (join sep ls) = ls.
Proof.
  induction ls as [|l ls IH]; intros Hne Hls; [done|].
  pose proof (Forall_inv Hls) as Hl. apply Forall_inv_tail in Hls.
  destruct ls as [|l' ls]; [by apply split_line|].
  change (join sep (l :: l' :: ls)) with (l ++ sep :: join sep (l' :: ls)).
  rewrite split_app_sep by done. f_equal. by apply IH.
Qed.

Lemma unquote_app a b : unquote (a ++ b) = unquote a ++ unquote b.
Proof. apply filter_app. Qed.

Lemma unquote_join ls : unquote (join nl ls) = join nl (map unquote ls).
Proof.
  induction ls as [|l ls IH]; [done|]. destruct ls as [|l' ls]; [done|].
  change (join nl (l :: l' :: ls)) with (l ++ nl :: join nl (l' :: ls)).
  rewrite unquote_app. change (unquote (nl :: ?x)) with (nl :: unquote x).
  by rewrite IH.
Qed.

Lemma unquote_split s : split nl (unquote s) = map unquote (split nl s).
Proof.
  induction s as [|c s IH]; [done|].
  destruct (Ascii.eqb_spec c nl) as [->|Hne].
  - change (unquote (nl :: s)) with (nl :: unquote s). simpl.
    by rewrite IH.
  - destruct (split_cons_ne nl c s) as (l & ls & Hs & ->);
      [by apply Ascii.eqb_neq|].
    rewrite Hs in IH. unfold unquote. simpl filter. fold (unquote s).
    destruct (Ascii.eqb_spec c dq) as [->|Hq]; simpl.
    + rewrite IH. simpl. unfold unquote at 2. simpl. done.
    + apply Ascii.eqb_neq in Hne. rewrite Hne, IH. simpl.
      unfold unquote at 2. simpl. apply Ascii.eqb_neq in Hq. by rewrite Hq.
Qed.

(** ** Rules that cannot cross a newline work line by line *)

Lemma sub_with_join icase pat repl ls :
  rejects icase nl pat ->
  sub_with icase pat repl (join nl ls) = join nl (map (sub_with icase pat repl) ls).
Proof.
  intros Hrej. induction ls as [|l ls IH]; [done|]. destruct ls as [|l' ls]; [done|].
  change (join nl (l :: l' :: ls)) with (l ++ nl :: join nl (l' :: ls)).
  change (map _ (l :: l' :: ls))
    with (sub_with icase pat repl l :: map (sub_with icase pat repl) (l' :: ls)).
  change (join nl (sub_with icase pat repl l :: map (sub_with icase pat repl) (l' :: ls)))
    with (sub_with icase pat repl l
          ++ nl :: join nl (map (sub_with icase pat repl) (l' :: ls))).
  rewrite <- IH. unfold sub_with, finditer.
  rewrite (scan_cut icase pat nl _ Hrej eq_refl l 0 None) by lia.
  rewrite flat_map_app. cbn [flat_map seg_out app].
  by rewrite (scan_prev icase pat _ 0 (Some nl) None).
Qed.

(** What a rule writes holds a character only if its input or its
    replacements do. *)
Lemma sub_with_avoids c icase pat repl s :
  c ∉ s ->
  (forall prev s' m, match_at icase pat prev s' = Some m -> c ∉ whole m -> c ∉ repl m) ->
  c ∉ sub_with icase pat repl s.
Proof.
  intros Hs Hrepl. unfold sub_with, finditer. generalize 0 (@None ascii).
  induction s as [|x s IH]; intros n prev; [apply not_elem_of_nil|].
  assert (c ∉ s) as Hs' by (intros Hin; apply Hs; by right).
  cbn [scan]. destruct n as [|n]; [|by apply IH].
  destruct (match_at icase pat prev (x :: s)) as [m|] eqn:E.
  - destruct (length (whole m)) as [|j] eqn:El.
    + cbn [flat_map seg_out app]. rewrite elem_of_cons.
      intros [->|Hin]; [apply Hs; by left | by apply (IH Hs' 0 (Some x))].
    + cbn [flat_map seg_out]. rewrite elem_of_app. intros [Hin|Hin].
      * apply (Hrepl _ _ _ E); [|done].
        apply match_at_prefix in E as [s' Hw]. intros Hc. apply Hs.
        rewrite Hw, elem_of_app. by left.
      * by apply (IH Hs' j (Some x)).
  - cbn [flat_map seg_out app]. rewrite elem_of_cons.
    intros [->|Hin]; [apply Hs; by left | by apply (IH Hs' 0 (Some x))].
Qed.
(** ** The rules of the Data-Only Converter, line by line *)

Lemma lits_rejects_nl w : nl ∉ txt w -> rejects false nl (lits w).
Proof.
  unfold rejects, lits. induction (txt w) as [|c l IH]; intros Hn; [constructor|].
  simpl. constructor.
  - unfold chr_eq. apply Ascii.eqb_neq. intros ->. apply Hn. by left.
  - apply IH. intros Hin. apply Hn. by right.
Qed.

Lemma insert_rejects_nl : rejects false nl insert_pattern.
Proof.
  unfold insert_pattern. apply Forall_app. split.
  - apply lits_rejects_nl. no_nl.
  - repeat constructor.
Qed.

Lemma ts_rejects_nl : rejects false nl DataOnly.ts_pattern.
Proof. by apply ts_rejects. Qed.

Lemma re_sub_join pat tpl ls :
  rejects false nl pat -> re_sub pat tpl (join nl ls) = join nl (map (re_sub pat tpl) ls).
Proof. apply sub_with_join. Qed.

Lemma booleans_join ls :
  DataOnly.convert_booleans (join nl ls) = join nl (map DataOnly.convert_booleans ls).
Proof.
  unfold DataOnly.convert_booleans.
  rewrite !re_sub_join by (apply lits_rejects_nl; no_nl).
  by rewrite !map_map.
Qed.

Lemma rewrite_line_join tz ls :
  null_to_default
    (DataOnly.convert_booleans
       (sub_with false DataOnly.ts_pattern (ts_replacement tz)
          (quote_table_names (join nl ls))))
  = join nl (map (rewrite_line tz) ls).
Proof.
  unfold quote_table_names at 1. rewrite re_sub_join by apply insert_rejects_nl.
  rewrite sub_with_join by apply ts_rejects_nl.
  rewrite booleans_join. unfold null_to_default at 1.
  rewrite re_sub_join by (apply lits_rejects_nl; no_nl).
  by rewrite !map_map.
Qed.

(** ** No rule writes a newline *)

Lemma re_sub_lits_avoids pat w s :
  nl ∉ s -> nl ∉ txt w -> nl ∉ re_sub pat (rlits w) s.
Proof.
  intros Hs Hw. apply sub_with_avoids; [done|]. intros prev s' m _ _.
  by rewrite expand_rlits.
Qed.

Lemma quote_avoids_nl s : nl ∉ s -> nl ∉ quote_table_names s.
Proof.
  intros Hs. apply sub_with_avoids; [done|]. intros prev s' m Hm Hw.
  rewrite insert_match in Hm.
  destruct (lit_prefix false (txt "INSERT INTO ") s') as [[u r]|]; [|discriminate].
  destruct (span name_chr r) as [name rest]. destruct (1 <=? length name); [|discriminate].
  injection Hm as <-. cbn [whole] in Hw. unfold expand, insert_template.
  assert (nl ∉ name) as Hname.
  { intros Hin. apply Hw. rewrite !elem_of_cons. do 12 right. done. }
  cbn [rlits txt list_ascii_of_string map app flat_map group groups nth].
  rewrite !elem_of_cons, elem_of_app, !elem_of_cons, elem_of_nil.
  intros H. repeat (destruct H as [H|H]; [discriminate H|]).
  destruct H as [H|[H|[]]]; [done | discriminate H].
Qed.

Lemma booleans_avoid_nl s : nl ∉ s -> nl ∉ DataOnly.convert_booleans s.
Proof.
  intros Hs. unfold DataOnly.convert_booleans.
  repeat (apply re_sub_lits_avoids; [|no_nl]). done.
Qed.

Lemma digit_chr_digit v : (0 <= v <= 9)%Z -> is_digit (digit_chr v) = true.
Proof.
  intros Hv.
  assert (v = 0 \/ v = 1 \/ v = 2 \/ v = 3 \/ v = 4 \/ v = 5 \/ v = 6 \/ v = 7
          \/ v = 8 \/ v = 9)%Z as H by lia.
  by repeat (destruct H as [->|H]; [done|]); subst.
Qed.

Lemma dec_digits_digits fuel : forall n acc,
  Forall (fun c => is_digit c = true) acc ->
  Forall (fun c => is_digit c = true) (dec_digits fuel n acc).
Proof.
  induction fuel as [|fuel IH]; intros n acc Hacc; simpl; [done|].
  assert (Forall (fun c => is_digit c = true) (digit_chr (n mod 10) :: acc)) as H.
  { constructor; [|done]. apply digit_chr_digit.
    pose proof (Z.mod_pos_bound n 10). lia. }
  destruct (n <? 10)%Z; [done | by apply IH].
Qed.

Lemma str_of_Z_digits n : Forall (fun c => is_digit c = true) (str_of_Z n).
Proof. apply dec_digits_digits. constructor. Qed.

Lemma pad2_digits n : Forall (fun c => is_digit c = true) (pad2 n).
Proof.
  unfold pad2. destruct (n <? 10)%Z; [constructor; [done|]|]; apply str_of_Z_digits.
Qed.

Lemma digits_no_nl (s : text) : Forall (fun c => is_digit c = true) s -> nl ∉ s.
Proof.
  intros H Hin. rewrite Forall_forall in H. apply list_elem_of_In, H in Hin.
  discriminate Hin.
Qed.

Lemma no_nl_sep (a b : text) c :
  nl ∉ a -> c <> nl -> nl ∉ b -> nl ∉ a ++ c :: b.
Proof.
  intros Ha Hc Hb. rewrite elem_of_app, elem_of_cons.
  intros [H|[H|H]]; [done | by subst | done].
Qed.

Lemma strftime_no_nl dt : nl ∉ strftime dt.
Proof.
  unfold strftime.
  repeat (apply no_nl_sep;
          [apply digits_no_nl; first [apply str_of_Z_digits | apply pad2_digits]
          | discriminate |]).
  apply digits_no_nl, pad2_digits.
Qed.

Lemma quoted_no_nl s : nl ∉ s -> nl ∉ DataOnly.quoted s.
Proof.
  intros Hs. unfold DataOnly.quoted.
  rewrite elem_of_cons, elem_of_app, list_elem_of_singleton.
  intros [H|[H|H]]; [discriminate H | done | discriminate H].
Qed.

Lemma timestamps_avoid_nl tz s :
  nl ∉ s -> nl ∉ sub_with false DataOnly.ts_pattern (ts_replacement tz) s.
Proof.
  intros Hs. apply sub_with_avoids; [done|]. intros prev s' m Hm Hw.
  apply ts_hit_group in Hm as [Hd Hwg].
  unfold ts_replacement. rewrite (callback_unfold tz m _ eq_refl Hd).
  destruct (fromtimestamp tz _) as [dt|[]];
    try apply not_elem_of_nil.
  - apply quoted_no_nl, strftime_no_nl.
  - apply quoted_no_nl. by rewrite <- Hwg.
  - apply quoted_no_nl. by rewrite <- Hwg.
Qed.

Lemma rewrite_line_no_nl tz l : nl ∉ l -> nl ∉ rewrite_line tz l.
Proof.
  intros Hl. unfold rewrite_line, null_to_default.
  apply re_sub_lits_avoids; [|no_nl].
  by apply booleans_avoid_nl, timestamps_avoid_nl, quote_avoids_nl.
Qed.
(** ** The doubled-quote cleanup only removes quotes *)

Lemma unquote_sub icase pat repl :
  (forall prev s m, match_at icase pat prev s = Some m ->
     unquote (repl m) = unquote (whole m)) ->
  forall s n prev,
  unquote (flat_map (seg_out repl) (scan icase pat n prev s)) = unquote (skipn n s).
Proof.
  intros Hrepl. induction s as [|c s IH]; intros n prev.
  - by destruct n.
  - cbn [scan]. destruct n as [|n]; [|apply IH].
    assert (unquote (flat_map (seg_out repl) (Keep c :: scan icase pat 0 (Some c) s))
            = unquote (skipn 0 (c :: s))) as Hkeep.
    { cbn [flat_map seg_out skipn]. change ([c] ++ ?x) with ([c] ++ x).
      rewrite unquote_app, IH. by rewrite <- unquote_app. }
    destruct (match_at icase pat prev (c :: s)) as [m|] eqn:E; [|done].
    destruct (length (whole m)) as [|j] eqn:El; [done|].
    cbn [flat_map seg_out]. rewrite unquote_app, IH, (Hrepl _ _ _ E), <- unquote_app.
    apply match_at_prefix in E as [s' Hs].
    destruct (whole m) as [|x u]; [discriminate|].
    simpl in Hs, El. injection Hs as <- ->. injection El as <-.
    by rewrite skipn_app, skipn_all, Nat.sub_diag.
Qed.

Lemma undouble_match prev s m :
  match_at false DataOnly.undouble_pattern prev s = Some m ->
  exists g, whole m = dq :: dq :: g ++ [dq; dq] /\ groups m = [g].
Proof.
  unfold match_at, DataOnly.undouble_pattern. cbn [match_items].
  destruct s as [|c1 [|c2 s]]; try discriminate.
  { by destruct (chr_eq false dq c1). }
  destruct (chr_eq false dq c1) eqn:E1; [|discriminate].
  destruct (chr_eq false dq c2) eqn:E2; [|discriminate].
  apply chr_eq_exact in E1 as <-. apply chr_eq_exact in E2 as <-.
  intros (ds & r & _ & _ & _ & _ & Hk)%rep_sound.
  cbn [match_items] in Hk.
  destruct r as [|x1 [|x2 r]]; try discriminate.
  { by destruct (chr_eq false dq x1). }
  destruct (chr_eq false dq x1) eqn:E3; [|discriminate].
  destruct (chr_eq false dq x2) eqn:E4; [|discriminate].
  apply chr_eq_exact in E3 as <-. apply chr_eq_exact in E4 as <-.
  injection Hk as <-. exists ds.
  unfold finish, push, gclose, pushes, gopen. cbn [taken mark caps mstart].
  rewrite !app_nil_l. simpl length. simpl. split; [|done].
  by rewrite <- !app_assoc.
Qed.

Lemma unquote_dq s : unquote (dq :: s) = unquote s.
Proof. done. Qed.

Lemma unquote_undouble s : unquote (DataOnly.undouble_quotes s) = unquote s.
Proof.
  unfold DataOnly.undouble_quotes, re_sub, sub_with, finditer.
  rewrite unquote_sub; [done|]. intros prev s' m (g & Hw & Hg)%undouble_match.
  rewrite Hw. unfold expand. cbn [flat_map group]. rewrite Hg. cbn [nth app].
  rewrite !unquote_dq, !unquote_app. done.
Qed.

(** What the run writes when it selected at least one line. *)
Lemma insert_lines_rewritten (w : world) (input_file output_file : string)
    (content generated : text) :
  files w !! input_file = Some content ->
  DataOnly.insert_lines content <> [] ->
  (forall t, - 86400 < utcoffset w t < 86400)%Z ->
  DataOnly.now_text w = Ok generated ->
  output_file ∉ locked w ->
  exists body,
    files_after (DataOnly.convert_sqlite_data_to_postgres w input_file output_file)
      !! output_file
    = Some (DataOnly.preamble generated ++ body ++ DataOnly.postamble) /\
    DataOnly.rewrite (utcoffset w) (join nl (DataOnly.insert_lines content)) = Ok body /\
    length (split nl body) = length (DataOnly.insert_lines content) /\
    map unquote (split nl body)
    = map (fun line => unquote (rewrite_line (utcoffset w) line))
        (DataOnly.insert_lines content).
Proof.
  intros Hread Hlines Htz Hnow Hfree.
  set (ls := DataOnly.insert_lines content) in *.
  set (body := DataOnly.undouble_quotes (join nl (map (rewrite_line (utcoffset w)) ls))).
  assert (DataOnly.rewrite (utcoffset w) (join nl ls) = Ok body) as Hbody.
  { rewrite data_rewrite_ok by done. by rewrite rewrite_line_join. }
  assert (map unquote (split nl body)
          = map (fun line => unquote (rewrite_line (utcoffset w) line)) ls) as Hmap.
  { rewrite <- unquote_split. unfold body. rewrite unquote_undouble, unquote_split.
    rewrite split_join.
    - by rewrite map_map.
    - by destruct ls.
    - apply Forall_map. unfold ls, DataOnly.insert_lines.
      apply Forall_forall. intros l Hl. apply rewrite_line_no_nl.
      apply filter_In in Hl as [Hl _].
      pose proof (split_no_sep nl content) as Hall. rewrite Forall_forall in Hall.
      by apply Hall. }
  exists body. split; [|split; [done|split; [|done]]].
  - unfold DataOnly.convert_sqlite_data_to_postgres, read_file. rewrite Hread.
    fold (DataOnly.insert_lines content). fold ls.
    destruct ls as [|l ls'] eqn:Els; [done|]. rewrite Hbody, Hnow.
    unfold write_file. destruct (decide (output_file ∈ locked w)); [done|].
    cbn [files_after]. apply lookup_insert_eq.
  - apply (f_equal (@length text)) in Hmap. by rewrite !length_map in Hmap.
Qed.
(** * Rules that start with a keyword *)

Lemma startswith_spec p s : startswith p s = true <-> exists r, s = p ++ r.
Proof.
  revert s. induction p as [|a p IH]; intros s; simpl.
  - split; [by exists s | done].
  - destruct s as [|c s].
    + split; [done | by intros [r Hr]].
    + rewrite andb_true_iff, IH. split.
      * intros [->%Ascii.eqb_eq [r ->]]. by exists r.
      * intros [r [= -> ->]]. split; [apply Ascii.eqb_refl | by exists r].
Qed.

Lemma occurs_spec w s : occurs w s = true <-> exists a b, s = a ++ w ++ b.
Proof.
  induction s as [|c s IH].
  - simpl. rewrite orb_false_r, startswith_spec. split.
    + intros [r Hr]. by exists [], r.
    + intros (a & b & H). symmetry in H. apply app_eq_nil in H as [-> H].
      apply app_eq_nil in H as [-> ->]. by exists [].
  - cbn [occurs]. rewrite orb_true_iff, startswith_spec, IH. split.
    + intros [[r Hr]|(a & b & ->)]; [by exists [], r | by exists (c :: a), b].
    + intros (a & b & H). destruct a as [|x a].
      * left. by exists b.
      * right. injection H as -> ->. by exists a, b.
Qed.

Lemma occurs_none w s : occurs w s = false -> ~ exists a b, s = a ++ w ++ b.
Proof. intros H H'. apply occurs_spec in H'. congruence. Qed.

(** Where no match attempt inside [pre] succeeds, [pre] is copied. *)
Lemma scan_keeps icase pat rest : forall pre prev,
  (forall a b, pre = a ++ b -> b <> [] ->
     forall prev', match_at icase pat prev' (b ++ rest) = None) ->
  scan icase pat 0 prev (pre ++ rest)
  = map Keep pre ++ scan icase pat 0 (last_of prev pre) rest.
Proof.
  induction pre as [|c pre IH]; intros prev H; [done|].
  change ((c :: pre) ++ rest) with (c :: (pre ++ rest)).
  rewrite scan_keep.
  - simpl. f_equal. apply IH. intros a b -> Hb prev'. by apply (H (c :: a) b).
  - by apply (H [] (c :: pre)).
Qed.

(** Before the first occurrence of a border-free keyword no pattern that
    starts with the keyword matches. *)
Lemma no_match_before w tail pre rest :
  border_free w = true -> occurs w pre = false ->
  forall a b, pre = a ++ b -> b <> [] ->
  forall prev, match_at false (map Lit w ++ tail) prev (b ++ w ++ rest) = None.
Proof.
  intros Hbf Hocc%occurs_none a b -> Hb prev. unfold match_at. rewrite match_lits.
  destruct (lit_prefix false w (b ++ w ++ rest)) as [[u r]|] eqn:E; [|done].
  exfalso. apply lit_prefix_exact in E as [_ Hs].
  apply app_eq_inv in Hs as [(k & -> & Hk)|(k & -> & Hk)].
  - apply Hocc. exists a, k. done.
  - destruct k as [|x k]; [apply Hocc; exists a, []; by rewrite !app_nil_r|].
    destruct b as [|y b]; [done|].
    apply app_eq_inv in Hk as [(j & Hj & _)|(j & Hj & _)].
    2:{ apply (f_equal (@length ascii)) in Hj. rewrite !length_app in Hj. simpl in Hj. lia. }
    unfold border_free in Hbf. rewrite forallb_forall in Hbf.
    specialize (Hbf (length (y :: b))).
    rewrite negb_true_iff in Hbf.
    assert (startswith (skipn (length (y :: b)) ((y :: b) ++ x :: k)) ((y :: b) ++ x :: k)
            = true) as Hst.
    { rewrite drop_app_length. apply startswith_spec. by exists j. }
    rewrite Hbf in Hst; [done|]. apply in_seq. rewrite length_app. simpl. lia.
Qed.

Lemma sub_at_first_keyword w tail repl pre u post m :
  border_free w = true -> occurs w pre = false ->
  Forall (fun it => it <> Bound) tail ->
  (exists v, u = w ++ v) -> u <> [] ->
  match_at false (map Lit w ++ tail) None (u ++ post) = Some m -> whole m = u ->
  sub_with false (map Lit w ++ tail) repl (pre ++ u ++ post)
  = pre ++ repl m ++ sub_with false (map Lit w ++ tail) repl post.
Proof.
  intros Hbf Hocc Htail [v ->] Hu Hm Hw. unfold sub_with, finditer.
  assert (forall p1 p2 s, match_at false (map Lit w ++ tail) p1 s
                          = match_at false (map Lit w ++ tail) p2 s) as Hfree.
  { intros p1 p2 s. apply match_items_prev_free. apply Forall_app. split; [|done].
    apply Forall_forall. intros it Hit. apply in_map_iff in Hit as (c & <- & _). done. }
  rewrite scan_keeps.
  - rewrite flat_map_app, flat_map_keep. f_equal.
    rewrite (scan_hit false _ _ (w ++ v) post m); [|by rewrite (Hfree _ None)|done|done].
    cbn [flat_map seg_out]. f_equal.
    by rewrite (scan_prev_free false _ Hfree post 0 _ None).
  - intros a b Hab Hb prev'. rewrite <- app_assoc.
    by apply (no_match_before w tail pre (v ++ post) Hbf Hocc a b).
Qed.

(** Where the keyword does not occur at all, nothing changes. *)
Lemma sub_without_keyword w tail repl s :
  occurs w s = false -> sub_with false (map Lit w ++ tail) repl s = s.
Proof.
  intros Hocc%occurs_none. unfold sub_with, finditer.
  pose proof (scan_keeps false (map Lit w ++ tail) [] s None) as H.
  rewrite app_nil_r in H. rewrite H; [by rewrite app_nil_r, flat_map_keep|].
  intros a b -> Hb prev'. rewrite app_nil_r. unfold match_at. rewrite match_lits.
  destruct (lit_prefix false w b) as [[u r]|] eqn:E; [|done].
  exfalso. apply lit_prefix_exact in E as [_ ->]. apply Hocc. by exists a, r.
Qed.

(** ** Literal replacements *)

Lemma literal_rule w w' pre post :
  border_free (txt w) = true -> txt w <> [] -> occurs (txt w) pre = false ->
  re_sub (lits w) (rlits w') pre = pre /\
  re_sub (lits w) (rlits w') (pre ++ txt w ++ post)
  = pre ++ txt w' ++ re_sub (lits w) (rlits w') post.
Proof.
  intros Hbf Hne Hocc. unfold re_sub, lits.
  rewrite <- (app_nil_r (map Lit (txt w))). split.
  - by apply sub_without_keyword.
  - rewrite (sub_at_first_keyword (txt w) [] _ pre (txt w) post
               {| whole := txt w; groups := [] |}); try done.
    + by rewrite expand_rlits.
    + exists []. by rewrite app_nil_r.
    + unfold match_at. rewrite match_lits, lit_prefix_same. simpl.
      unfold finish, pushes. simpl. done.
Qed.

(** X1: a NULL that stands first in a VALUES list becomes DEFAULT, at every
    occurrence (the text after the first one is treated the same way), and
    a text without [VALUES(NULL,] is returned as it is. *)
Theorem null_first_value_becomes_default (pre post : text) :
  occurs (txt "VALUES(NULL,") pre = false ->
  null_to_default pre = pre /\
  null_to_default (pre ++ txt "VALUES(NULL," ++ post)
  = pre ++ txt "VALUES(DEFAULT," ++ null_to_default post.
Proof. intros H. by apply literal_rule. Qed.

(** X2: the parenthesised default [DEFAULT (CURRENT_TIMESTAMP)] loses its
    parentheses at every occurrence, and a text without it is returned as
    it is. *)
Theorem default_timestamp_unparenthesised (pre post : text) :
  occurs (txt "DEFAULT (CURRENT_TIMESTAMP)") pre = false ->
  ToPostgres.default_parenthesised pre = pre /\
  ToPostgres.default_parenthesised (pre ++ txt "DEFAULT (CURRENT_TIMESTAMP)" ++ post)
  = pre ++ txt "DEFAULT CURRENT_TIMESTAMP" ++ ToPostgres.default_parenthesised post.
Proof. intros H. by apply literal_rule. Qed.

(** A beginning of the text inside which no match attempt succeeds is
    copied, and the rest is rewritten as if it stood alone. *)
Lemma sub_with_keeps pat repl pre rest :
  Forall (fun it => it <> Bound) pat ->
  (forall a b, pre = a ++ b -> b <> [] ->
     forall prev, match_at false pat prev (b ++ rest) = None) ->
  sub_with false pat repl (pre ++ rest) = pre ++ sub_with false pat repl rest.
Proof.
  intros Hpat H. unfold sub_with, finditer.
  rewrite scan_keeps by done. rewrite flat_map_app, flat_map_keep. f_equal.
  f_equal. apply scan_prev_free. intros p1 p2 s. by apply match_items_prev_free.
Qed.

Lemma default_timestamp_unparenthesised_witness :
  occurs (txt "DEFAULT (CURRENT_TIMESTAMP)") (txt "created_at TIMESTAMP ") = false /\
  ToPostgres.default_parenthesised
    (txt "created_at TIMESTAMP " ++ txt "DEFAULT (CURRENT_TIMESTAMP)" ++ txt ",")
  = txt "created_at TIMESTAMP " ++ txt "DEFAULT CURRENT_TIMESTAMP"
    ++ ToPostgres.default_parenthesised (txt ",").
Proof.
  assert (occurs (txt "DEFAULT (CURRENT_TIMESTAMP)") (txt "created_at TIMESTAMP ") = false)
    as H by reflexivity.
  exact (conj H (proj2 (default_timestamp_unparenthesised _ (txt ",") H))).
Defined.

Lemma null_first_value_becomes_default_witness :
  occurs (txt "VALUES(NULL,") (txt "INSERT INTO t ") = false /\
  null_to_default (txt "INSERT INTO t " ++ txt "VALUES(NULL," ++ txt "'a');")
  = txt "INSERT INTO t " ++ txt "VALUES(DEFAULT," ++ null_to_default (txt "'a');").
Proof.
  assert (occurs (txt "VALUES(NULL,") (txt "INSERT INTO t ") = false) as H by reflexivity.
  exact (conj H (proj2 (null_first_value_becomes_default _ (txt "'a');") H))).
Defined.

Lemma suffix_cases (pre w a b : text) :
  pre ++ w = a ++ b ->
  (exists k, w = k ++ b) \/ (exists k, k <> [] /\ pre = a ++ k /\ b = k ++ w).
Proof.
  intros [(k & -> & Hk)|(k & -> & Hk)]%app_eq_inv.
  - destruct k as [|x k].
    + left. exists []. by rewrite Hk.
    + right. by exists (x :: k).
  - left. by exists k.
Qed.

(** ** PRAGMA statements *)

Lemma pragma_match prev body post :
  body <> [] -> ";"%char ∉ body ->
  match_at false ToPostgres.pragma_pattern prev (txt "PRAGMA" ++ body ++ ";"%char :: post)
  = Some {| whole := txt "PRAGMA" ++ body ++ [";"%char]; groups := [] |}.
Proof.
  intros Hne Hbody. unfold match_at, ToPostgres.pragma_pattern, lits.
  rewrite match_lits, lit_prefix_same. cbn [match_items].
  apply rep_greedy.
  - by apply not_chr_Forall.
  - done.
  - destruct body; [done | simpl; lia].
  - done.
  - cbn [match_items]. change (chr_eq false ";" ";") with true. cbv iota.
    unfold finish, push, pushes. cbn [taken mark caps mstart].
    by rewrite app_nil_l, <- app_assoc.
Qed.

Lemma pragma_needs_semicolon prev s m :
  match_at false ToPostgres.pragma_pattern prev s = Some m -> ";"%char ∈ s.
Proof.
  unfold match_at, ToPostgres.pragma_pattern, lits. rewrite match_lits.
  destruct (lit_prefix false (txt "PRAGMA") s) as [[u r]|] eqn:E; [|done].
  apply lit_prefix_exact in E as [-> ->]. cbn [match_items].
  intros (ds & r' & -> & _ & _ & _ & Hk)%rep_sound.
  destruct r' as [|c r']; [done|].
  destruct (chr_eq false ";" c) eqn:Ec; [|done].
  apply chr_eq_exact in Ec as <-.
  rewrite !elem_of_app. right. right. apply elem_of_cons. by left.
Qed.

Lemma pragma_no_bound : Forall (fun it => it <> Bound) ToPostgres.pragma_pattern.
Proof. repeat constructor; done. Qed.

(** X3: a PRAGMA statement, from the keyword to the first semicolon after
    it, is deleted, whatever stands between them (line breaks included),
    and the text after the semicolon is treated the same way. *)
Theorem pragma_statement_deleted (pre body post : text) :
  occurs (txt "PRAGMA") pre = false -> body <> [] -> ";"%char ∉ body ->
  ToPostgres.strip_pragmas (pre ++ txt "PRAGMA" ++ body ++ ";"%char :: post)
  = pre ++ ToPostgres.strip_pragmas post.
Proof.
  intros Hpre Hne Hbody. unfold ToPostgres.strip_pragmas, re_sub.
  pose proof (pragma_match None body post Hne Hbody) as Hm.
  pose proof (sub_at_first_keyword (txt "PRAGMA") [Rep (not_chr ";") 1 None; Lit ";"%char]
                (expand []) pre (txt "PRAGMA" ++ body ++ [";"%char]) post
                {| whole := txt "PRAGMA" ++ body ++ [";"%char]; groups := [] |}
                eq_refl Hpre) as H.
  rewrite <- !app_assoc in H. apply H; clear H.
  - repeat constructor; done.
  - by exists (body ++ [";"%char]).
  - done.
  - exact Hm.
  - done.
Qed.

Lemma pragma_statement_deleted_witness :
  occurs (txt "PRAGMA") (txt "-- dump") = false /\
  nl :: txt " foreign_keys=OFF" <> [] /\
  (";"%char ∉ nl :: txt " foreign_keys=OFF") /\
  ToPostgres.strip_pragmas
    (txt "-- dump" ++ txt "PRAGMA" ++ (nl :: txt " foreign_keys=OFF") ++ ";"%char :: txt "BEGIN;")
  = txt "-- dump" ++ ToPostgres.strip_pragmas (txt "BEGIN;").
Proof.
  assert (occurs (txt "PRAGMA") (txt "-- dump") = false) as H1 by reflexivity.
  assert (nl :: txt " foreign_keys=OFF" <> []) as H2 by discriminate.
  assert (";"%char ∉ nl :: txt " foreign_keys=OFF") as H3 by no_nl.
  exact (conj H1 (conj H2 (conj H3 (pragma_statement_deleted _ _ (txt "BEGIN;") H1 H2 H3)))).
Defined.

(** X4: the keyword directly followed by a semicolon is not a PRAGMA
    statement for the rule and stays, and a text without any semicolon is
    returned as it is. *)
Theorem pragma_without_body_kept (pre post s : text) :
  occurs (txt "PRAGMA") pre = false -> ";"%char ∉ s ->
  ToPostgres.strip_pragmas (pre ++ txt "PRAGMA;" ++ post)
  = pre ++ txt "PRAGMA;" ++ ToPostgres.strip_pragmas post /\
  ToPostgres.strip_pragmas s = s.
Proof.
  intros Hpre Hs. unfold ToPostgres.strip_pragmas, re_sub. split.
  - rewrite !(app_assoc pre).
    apply sub_with_keeps; [apply pragma_no_bound|].
    intros a b [[k Hk]|(k & Hk & -> & ->)]%suffix_cases Hb prev.
    + cbn in Hk.
      repeat (destruct k as [|? k];
        [cbn [app] in Hk; subst b; try done
        |cbn [app] in Hk; first [discriminate Hk | injection Hk as _ Hk]]).
    + rewrite <- app_assoc.
      change (txt "PRAGMA;" ++ post) with (txt "PRAGMA" ++ ";"%char :: post).
      apply (no_match_before (txt "PRAGMA")
               [Rep (not_chr ";") 1 None; Lit ";"%char] (a ++ k) (";"%char :: post)
               eq_refl Hpre a k eq_refl Hk).
  - rewrite <- (app_nil_r s) at 1. rewrite sub_with_keeps; [by rewrite app_nil_r|..].
    + apply pragma_no_bound.
    + intros a b -> Hb prev. rewrite app_nil_r.
      destruct (match_at false ToPostgres.pragma_pattern prev b) as [m|] eqn:E; [|done].
      apply pragma_needs_semicolon in E. exfalso. apply Hs.
      rewrite elem_of_app. by right.
Qed.

Lemma pragma_without_body_kept_witness :
  occurs (txt "PRAGMA") (txt "-- ") = false /\
  (";"%char ∉ txt "PRAGMA foreign_keys=OFF") /\
  ToPostgres.strip_pragmas (txt "-- " ++ txt "PRAGMA;" ++ txt " BEGIN")
  = txt "-- " ++ txt "PRAGMA;" ++ ToPostgres.strip_pragmas (txt " BEGIN") /\
  ToPostgres.strip_pragmas (txt "PRAGMA foreign_keys=OFF") = txt "PRAGMA foreign_keys=OFF".
Proof.
  assert (occurs (txt "PRAGMA") (txt "-- ") = false) as H1 by reflexivity.
  assert (";"%char ∉ txt "PRAGMA foreign_keys=OFF") as H2 by no_nl.
  exact (conj H1 (conj H2 (pragma_without_body_kept _ (txt " BEGIN") _ H1 H2))).
Defined.

(** ** REFERENCES clauses *)

Lemma references_match prev t c post :
  t <> [] -> "("%char ∉ t -> c <> [] -> ")"%char ∉ c ->
  match_at false ToPostgres.references_pattern prev
    (txt "REFERENCES " ++ t ++ "("%char :: c ++ ")"%char :: post)
  = Some {| whole := txt "REFERENCES " ++ t ++ "("%char :: c ++ [")"%char];
            groups := [t; c] |}.
Proof.
  intros Ht1 Ht2 Hc1 Hc2. unfold match_at, ToPostgres.references_pattern, lits.
  rewrite match_lits, lit_prefix_same. cbn [match_items].
  apply rep_greedy.
  - by apply not_chr_Forall.
  - done.
  - destruct t; [done | simpl; lia].
  - done.
  - cbn [match_items]. change (chr_eq false "(" "(") with true. cbv iota.
    apply rep_greedy.
    + by apply not_chr_Forall.
    + done.
    + destruct c; [done | simpl; lia].
    + done.
    + cbn [match_items]. change (chr_eq false ")" ")") with true. cbv iota.
      unfold finish, push, gclose, pushes, gopen. cbn [taken mark caps mstart].
      rewrite !app_nil_l, !drop_app_length. cbn [app].
      by rewrite <- !app_assoc.
Qed.

(** X5: after the keyword REFERENCES and one space, whatever stands
    before the next opening parenthesis and whatever stands between that
    parenthesis and the next closing one are each wrapped in double quotes:
    a space between the table name and the parenthesis ends up inside the
    quotes.  The text after the closing parenthesis is treated the same
    way. *)
Theorem references_clause_quoted (pre t c post : text) :
  occurs (txt "REFERENCES ") pre = false ->
  t <> [] -> "("%char ∉ t -> c <> [] -> ")"%char ∉ c ->
  ToPostgres.quote_references
    (pre ++ txt "REFERENCES " ++ t ++ "("%char :: c ++ ")"%char :: post)
  = pre ++ txt "REFERENCES " ++ dq :: t ++ dq :: "("%char :: dq :: c ++ dq :: ")"%char
        :: ToPostgres.quote_references post.
Proof.
  intros Hpre Ht1 Ht2 Hc1 Hc2. unfold ToPostgres.quote_references, re_sub.
  pose proof (references_match None t c post Ht1 Ht2 Hc1 Hc2) as Hm.
  pose proof (sub_at_first_keyword (txt "REFERENCES ")
                [GOpen; Rep (not_chr "(") 1 None; GClose; Lit "("%char;
                 GOpen; Rep (not_chr ")") 1 None; GClose; Lit ")"%char]
                (expand ToPostgres.references_template) pre
                (txt "REFERENCES " ++ t ++ "("%char :: c ++ [")"%char]) post
                {| whole := txt "REFERENCES " ++ t ++ "("%char :: c ++ [")"%char];
                   groups := [t; c] |}
                eq_refl Hpre) as H.
  replace ((txt "REFERENCES " ++ t ++ "("%char :: c ++ [")"%char]) ++ post)
    with (txt "REFERENCES " ++ t ++ "("%char :: c ++ ")"%char :: post) in H
    by (by rewrite <- !app_assoc; cbn [app]; rewrite <- !app_assoc).
  unfold ToPostgres.references_pattern, lits. rewrite H; clear H.
  - f_equal.
    change (expand ToPostgres.references_template
              {| whole := txt "REFERENCES " ++ t ++ "("%char :: c ++ [")"%char];
                 groups := [t; c] |})
      with (txt "REFERENCES " ++ [dq] ++ t ++ [dq; "("%char; dq] ++ c ++ [dq; ")"%char] ++ []).
    rewrite app_nil_r, <- !app_assoc. done.
  - repeat constructor; done.
  - by exists (t ++ "("%char :: c ++ [")"%char]).
  - done.
  - exact Hm.
  - done.
Qed.

Lemma references_clause_quoted_witness :
  occurs (txt "REFERENCES ") (txt "user_id INTEGER ") = false /\
  txt "users " <> [] /\ ("("%char ∉ txt "users ") /\
  txt "id" <> [] /\ (")"%char ∉ txt "id") /\
  ToPostgres.quote_references
    (txt "user_id INTEGER " ++ txt "REFERENCES " ++ txt "users " ++ "("%char :: txt "id"
       ++ ")"%char :: txt ",")
  = txt "user_id INTEGER " ++ txt "REFERENCES " ++ dq :: txt "users " ++ dq :: "("%char
      :: dq :: txt "id" ++ dq :: ")"%char :: ToPostgres.quote_references (txt ",").
Proof.
  assert (occurs (txt "REFERENCES ") (txt "user_id INTEGER ") = false) as H1 by reflexivity.
  assert (txt "users " <> []) as H2 by discriminate.
  assert ("("%char ∉ txt "users ") as H3 by no_nl.
  assert (txt "id" <> []) as H4 by discriminate.
  assert (")"%char ∉ txt "id") as H5 by no_nl.
  exact (conj H1 (conj H2 (conj H3 (conj H4 (conj H5
           (references_clause_quoted _ _ _ (txt ",") H1 H2 H3 H4 H5)))))).
Defined.

(** ** Table names of INSERT statements *)

(** X6: the table name of an INSERT statement, which is the run of
    characters after [INSERT INTO ] up to the first double quote, white
    space or opening parenthesis, is wrapped in double quotes, and the text
    after it is treated the same way. *)
Theorem insert_table_name_quoted (pre name rest : text) :
  occurs (txt "INSERT INTO ") pre = false ->
  name <> [] -> Forall (fun x => name_chr x = true) name -> stops name_chr rest ->
  quote_table_names (pre ++ txt "INSERT INTO " ++ name ++ rest)
  = pre ++ txt "INSERT INTO " ++ dq :: name ++ dq :: quote_table_names rest.
Proof.
  intros Hpre Hne Hname Hrest. unfold quote_table_names, re_sub.
  assert (match_at false insert_pattern None (txt "INSERT INTO " ++ name ++ rest)
          = Some {| whole := txt "INSERT INTO " ++ name; groups := [name] |}) as Hm.
  { rewrite insert_match, lit_prefix_same, span_intro by done.
    destruct name; [done|]. done. }
  pose proof (sub_at_first_keyword (txt "INSERT INTO ") [GOpen; Rep name_chr 1 None; GClose]
                (expand insert_template) pre (txt "INSERT INTO " ++ name) rest
                {| whole := txt "INSERT INTO " ++ name; groups := [name] |}
                eq_refl Hpre) as H.
  rewrite <- !app_assoc in H. unfold insert_pattern, lits. rewrite H; clear H.
  - f_equal.
    change (expand insert_template
              {| whole := txt "INSERT INTO " ++ name; groups := [name] |})
      with (txt "INSERT INTO " ++ [dq] ++ name ++ [dq] ++ []).
    rewrite app_nil_r, <- !app_assoc. done.
  - repeat constructor; done.
  - by exists name.
  - done.
  - exact Hm.
  - done.
Qed.

Lemma insert_table_name_quoted_witness :
  occurs (txt "INSERT INTO ") (txt "  ") = false /\
  txt "users" <> [] /\ Forall (fun x => name_chr x = true) (txt "users") /\
  stops name_chr (txt " VALUES(1);") /\
  quote_table_names (txt "  " ++ txt "INSERT INTO " ++ txt "users" ++ txt " VALUES(1);")
  = txt "  " ++ txt "INSERT INTO " ++ dq :: txt "users" ++ dq
      :: quote_table_names (txt " VALUES(1);").
Proof.
  assert (occurs (txt "INSERT INTO ") (txt "  ") = false) as H1 by reflexivity.
  assert (txt "users" <> []) as H2 by discriminate.
  assert (Forall (fun x => name_chr x = true) (txt "users")) as H3
    by (repeat constructor).
  assert (stops name_chr (txt " VALUES(1);")) as H4 by reflexivity.
  exact (conj H1 (conj H2 (conj H3 (conj H4
           (insert_table_name_quoted _ _ _ H1 H2 H3 H4))))).
Defined.

(** * What the rules leave alone *)

(** A view of the text that every replacement respects is the same before
    and after the substitution. *)
Lemma sub_view (v : text -> text) icase pat repl :
  (forall a b, v (a ++ b) = v a ++ v b) ->
  (forall prev s m, match_at icase pat prev s = Some m -> v (repl m) = v (whole m)) ->
  forall s, v (sub_with icase pat repl s) = v s.
Proof.
  intros Hv Hrepl s. unfold sub_with, finditer.
  assert (forall prev n,
            v (flat_map (seg_out repl) (scan icase pat n prev s)) = v (skipn n s)) as H;
    [|apply (H None 0)].
  induction s as [|c s IH]; intros prev n.
  - by destruct n.
  - cbn [scan]. destruct n as [|n]; [|apply IH].
    assert (v (flat_map (seg_out repl) (Keep c :: scan icase pat 0 (Some c) s))
            = v (skipn 0 (c :: s))) as Hkeep.
    { cbn [flat_map seg_out skipn]. change (c :: s) with ([c] ++ s).
      by rewrite !Hv, IH. }
    destruct (match_at icase pat prev (c :: s)) as [m|] eqn:E; [|done].
    destruct (length (whole m)) as [|j] eqn:El; [done|].
    cbn [flat_map seg_out]. rewrite Hv, IH, (Hrepl _ _ _ E), <- Hv.
    apply match_at_prefix in E as [s' Hs].
    destruct (whole m) as [|x u]; [discriminate|].
    simpl in Hs, El. injection Hs as <- ->. injection El as <-.
    by rewrite skipn_app, skipn_all, Nat.sub_diag.
Qed.

(** Where no replacement is longer than what it replaces, the text does not
    grow. *)
Lemma sub_no_longer icase pat repl :
  (forall prev s m, match_at icase pat prev s = Some m ->
     length (repl m) <= length (whole m)) ->
  forall s, length (sub_with icase pat repl s) <= length s.
Proof.
  intros Hrepl s. unfold sub_with, finditer.
  assert (forall prev n,
            length (flat_map (seg_out repl) (scan icase pat n prev s))
            <= length (skipn n s)) as H; [|apply (H None 0)].
  induction s as [|c s IH]; intros prev n.
  - by destruct n.
  - cbn [scan]. destruct n as [|n]; [|apply IH].
    assert (length (flat_map (seg_out repl) (Keep c :: scan icase pat 0 (Some c) s))
            <= length (skipn 0 (c :: s))) as Hkeep.
    { cbn [flat_map seg_out skipn app length]. specialize (IH (Some c) 0).
      change (skipn 0 s) with s in IH. lia. }
    destruct (match_at icase pat prev (c :: s)) as [m|] eqn:E; [|done].
    destruct (length (whole m)) as [|j] eqn:El; [done|].
    cbn [flat_map seg_out]. rewrite length_app.
    pose proof (Hrepl _ _ _ E) as Hr. specialize (IH (Some c) j).
    apply match_at_prefix in E as [s' Hs].
    destruct (whole m) as [|x u]; [discriminate|].
    simpl in Hs, El. injection Hs as <- ->. injection El as <-.
    rewrite skipn_app, skipn_all, Nat.sub_diag in IH.
    change (skipn 0 s') with s' in IH. cbn [app] in IH.
    change (skipn 0 (c :: u ++ s')) with (c :: u ++ s').
    cbn [length] in *. rewrite length_app. lia.
Qed.

Lemma references_match_inv prev s m :
  match_at false ToPostgres.references_pattern prev s = Some m ->
  exists t c, whole m = txt "REFERENCES " ++ t ++ "("%char :: c ++ [")"%char] /\
              groups m = [t; c].
Proof.
  unfold match_at, ToPostgres.references_pattern, lits. rewrite match_lits.
  destruct (lit_prefix false (txt "REFERENCES ") s) as [[u r]|] eqn:E; [|done].
  apply lit_prefix_exact in E as [-> ->]. cbn [match_items].
  intros (t & r' & -> & _ & _ & _ & Hk)%rep_sound. cbn [match_items] in Hk.
  destruct r' as [|x r']; [done|].
  destruct (chr_eq false "(" x) eqn:Ex; [|done]. apply chr_eq_exact in Ex as <-.
  apply rep_sound in Hk as (c & r'' & -> & _ & _ & _ & Hk). cbn [match_items] in Hk.
  destruct r'' as [|y r'']; [done|].
  destruct (chr_eq false ")" y) eqn:Ey; [|done]. apply chr_eq_exact in Ey as <-.
  injection Hk as <-. exists t, c.
  unfold finish, push, gclose, pushes, gopen. cbn [taken mark caps mstart whole groups].
  rewrite !app_nil_l, !drop_app_length. cbn [app]. by rewrite <- !app_assoc.
Qed.

Lemma insert_match_inv prev s m :
  match_at false insert_pattern prev s = Some m ->
  exists name, whole m = txt "INSERT INTO " ++ name /\ groups m = [name].
Proof.
  rewrite insert_match.
  destruct (lit_prefix false (txt "INSERT INTO ") s) as [[u r]|]; [|done].
  destruct (span name_chr r) as [name rest].
  destruct (1 <=? length name); [|done]. intros [= <-]. by exists name.
Qed.

(** X7: the two quoting rules only add double quotes: without its double
    quotes the text is the same before and after. *)
Theorem quoting_rules_only_add_quotes (s : text) :
  unquote (quote_table_names s) = unquote s /\
  unquote (ToPostgres.quote_references s) = unquote s.
Proof.
  split.
  - apply sub_view; [apply unquote_app|].
    intros prev s' m (name & Hw & Hg)%insert_match_inv.
    destruct m as [wh gs]. cbn [whole groups] in Hw, Hg. subst.
    change (expand insert_template _)
      with (txt "INSERT INTO " ++ [dq] ++ name ++ [dq] ++ []).
    cbn [whole]. by rewrite !unquote_app, app_nil_r.
  - apply sub_view; [apply unquote_app|].
    intros prev s' m (t & c & Hw & Hg)%references_match_inv.
    destruct m as [wh gs]. cbn [whole groups] in Hw, Hg. subst.
    change (expand ToPostgres.references_template _)
      with (txt "REFERENCES " ++ [dq] ++ t ++ [dq; "("%char; dq] ++ c ++ [dq; ")"%char] ++ []).
    cbn [whole]. change ("("%char :: c ++ [")"%char]) with (["("%char] ++ c ++ [")"%char]).
    by rewrite !unquote_app, app_nil_r.
Qed.

(** ** Letter case *)

Lemma same_case_lower w u : same_ignoring_case w u -> map lower u = map lower w.
Proof.
  induction 1 as [|a c w u Hac _ IH]; [done|]. simpl.
  by rewrite IH, (chr_eq_lower _ _ Hac).
Qed.

Lemma upcase_rule_lower icase w W s :
  map lower (txt W) = map lower (txt w) ->
  map lower (sub_with icase (ToPostgres.whole_word w) (expand (rlits W)) s) = map lower s.
Proof.
  intros HW. apply sub_view; [apply map_app|].
  intros prev s' m Hm. rewrite expand_rlits, HW.
  rewrite whole_word_match in Hm.
  destruct (at_boundary prev (head s')); [|done].
  destruct (lit_prefix icase (txt w) s') as [[u r]|] eqn:E; [|done].
  destruct (at_boundary _ _); [|done]. injection Hm as <-. cbn [whole].
  apply lit_prefix_spec in E as [_ HF]. symmetry. destruct icase.
  - by apply same_case_lower.
  - assert (u = txt w) as ->; [|done].
    clear HW. revert HF. generalize (txt w). intros l HF.
    induction HF as [|a c w' u Hac _ IH]; [done|].
    apply chr_eq_exact in Hac. by subst.
Qed.

(** A relation between characters that every replacement respects holds
    between the text and the result of the substitution, character by
    character. *)
Lemma sub_pointwise (R : ascii -> ascii -> Prop) icase pat repl :
  (forall a, R a a) ->
  (forall prev s m, match_at icase pat prev s = Some m -> Forall2 R (whole m) (repl m)) ->
  forall s, Forall2 R s (sub_with icase pat repl s).
Proof.
  intros Hrefl Hrepl s. unfold sub_with, finditer.
  assert (forall prev n,
            Forall2 R (skipn n s) (flat_map (seg_out repl) (scan icase pat n prev s))) as H;
    [|apply (H None 0)].
  induction s as [|c s IH]; intros prev n.
  - destruct n; constructor.
  - cbn [scan]. destruct n as [|n]; [|apply IH].
    assert (Forall2 R (skipn 0 (c :: s))
              (flat_map (seg_out repl) (Keep c :: scan icase pat 0 (Some c) s))) as Hkeep.
    { cbn [flat_map seg_out app]. constructor; [done | apply (IH (Some c) 0)]. }
    destruct (match_at icase pat prev (c :: s)) as [m|] eqn:E; [|done].
    destruct (length (whole m)) as [|j] eqn:El; [done|].
    cbn [flat_map seg_out]. pose proof (Hrepl _ _ _ E) as Hm.
    apply match_at_prefix in E as [s' Hs]. specialize (IH (Some c) j).
    destruct (whole m) as [|x u]; [discriminate|].
    simpl in Hs, El. injection Hs as <- ->. injection El as <-.
    rewrite skipn_app, skipn_all, Nat.sub_diag in IH.
    change (skipn 0 (c :: u ++ s')) with ((c :: u) ++ s').
    by apply Forall2_app.
Qed.

Lemma upcased_refl a : upcased a a.
Proof. by left. Qed.

Lemma upcased_trans (s1 s2 s3 : text) :
  Forall2 upcased s1 s2 -> Forall2 upcased s2 s3 -> Forall2 upcased s1 s3.
Proof.
  intros H. revert s3. induction H as [|a b s1 s2 Hab _ IH]; intros s3 H'.
  - by inversion H'.
  - inversion H' as [|? c ? s3' Hbc H'']; subst. constructor; [|by apply IH].
    destruct Hbc as [->|Hc]; [done | by right].
Qed.

Lemma upcased_word (u W : text) :
  length u = length W -> Forall (fun c => in_range 65 90 c = true) W ->
  Forall2 upcased u W.
Proof.
  intros Hlen HW. revert u Hlen. induction HW as [|c W Hc _ IH]; intros [|a u] Hlen.
  - constructor.
  - discriminate Hlen.
  - discriminate Hlen.
  - constructor; [by right | apply IH; by injection Hlen].
Qed.

Lemma upcase_rule_upcased icase w W s :
  length (txt W) = length (txt w) ->
  Forall (fun c => in_range 65 90 c = true) (txt W) ->
  Forall2 upcased s (sub_with icase (ToPostgres.whole_word w) (expand (rlits W)) s).
Proof.
  intros Hlen HW. apply sub_pointwise; [apply upcased_refl|].
  intros prev s' m Hm. rewrite expand_rlits. rewrite whole_word_match in Hm.
  destruct (at_boundary prev (head s')); [|done].
  destruct (lit_prefix icase (txt w) s') as [[u r]|] eqn:E; [|done].
  destruct (at_boundary _ _); [|done]. injection Hm as <-. cbn [whole].
  apply lit_prefix_spec in E as [_ HF]. apply upcased_word; [|done].
  rewrite Hlen. symmetry. exact (Forall2_length HF).
Qed.

(** X8: the rules for the type names and for the words false and true
    keep the length of the text and change a character only into an
    upper-case ASCII letter; the rules for false and true, which match
    with regard to case, change nothing but the case of letters. *)
Theorem keyword_rules_change_case_only (s : text) :
  Forall2 upcased s (ToPostgres.upcase_types s) /\
  Forall2 upcased s (ToPostgres.upcase_booleans s) /\
  map lower (ToPostgres.upcase_booleans s) = map lower s.
Proof.
  unfold ToPostgres.upcase_types, ToPostgres.upcase_booleans, re_sub_i, re_sub.
  split; [|split].
  - do 3 (eapply upcased_trans;
          [|apply upcase_rule_upcased; [reflexivity | repeat constructor]]).
    apply upcase_rule_upcased; [reflexivity | repeat constructor].
  - eapply upcased_trans; apply upcase_rule_upcased; first [reflexivity | repeat constructor].
  - by rewrite !upcase_rule_lower.
Qed.

(** ** Backticks and nothing else *)

Lemma backtick_match_inv prev s m :
  match_at false ToPostgres.backtick_pattern prev s = Some m ->
  exists id, whole m = bt :: id ++ [bt] /\ groups m = [id] /\ bt ∈ s.
Proof.
  unfold match_at, ToPostgres.backtick_pattern. cbn [match_items].
  destruct s as [|x s]; [done|].
  destruct (chr_eq false bt x) eqn:Ex; [|done]. apply chr_eq_exact in Ex as <-.
  intros (id & r & -> & _ & _ & _ & Hk)%rep_sound. cbn [match_items] in Hk.
  destruct r as [|y r]; [done|].
  destruct (chr_eq false bt y) eqn:Ey; [|done]. apply chr_eq_exact in Ey as <-.
  injection Hk as <-. exists id.
  unfold finish, push, gclose, pushes, gopen. cbn [taken mark caps mstart whole groups].
  rewrite !app_nil_l, (drop_app_length [bt]).
  split; [done|]. split; [done|]. apply elem_of_cons. by left.
Qed.

(** X9: the backtick rule changes nothing but backticks into double
    quotes, so every other character stays where it is, and a text without
    backticks is returned as it is. *)
Theorem backtick_rule_only_requotes (s : text) :
  backticks_as_quotes (ToPostgres.requote_backticks s) = backticks_as_quotes s /\
  (bt ∉ s -> ToPostgres.requote_backticks s = s).
Proof.
  split.
  - apply sub_view; [apply map_app|].
    intros prev s' m (id & Hw & Hg & _)%backtick_match_inv.
    destruct m as [wh gs]. cbn [whole groups] in Hw, Hg. subst.
    change (expand _ _) with ([dq] ++ id ++ [dq] ++ []). cbn [whole].
    change (bt :: id ++ [bt]) with ([bt] ++ id ++ [bt]).
    unfold backticks_as_quotes. by rewrite !map_app, app_nil_r.
  - intros Hs. unfold ToPostgres.requote_backticks, re_sub.
    rewrite <- (app_nil_r s) at 1. rewrite sub_with_keeps; [by rewrite app_nil_r|..].
    + repeat constructor; done.
    + intros a b -> Hb prev. rewrite app_nil_r.
      destruct (match_at false ToPostgres.backtick_pattern prev b) as [m|] eqn:E; [|done].
      apply backtick_match_inv in E as (_ & _ & _ & E). exfalso. apply Hs.
      rewrite elem_of_app. by right.
Qed.

Lemma backtick_rule_only_requotes_witness :
  (bt ∉ txt "CREATE TABLE t") /\
  ToPostgres.requote_backticks (txt "CREATE TABLE t") = txt "CREATE TABLE t".
Proof.
  assert (bt ∉ txt "CREATE TABLE t") as H by no_nl.
  exact (conj H (proj2 (backtick_rule_only_requotes _) H)).
Defined.

(** * Blank lines *)

(** Where the rest of the pattern fails at every position of a run, the
    repetition fails. *)
Lemma rep_none p k : forall ds lo prev st post,
  Forall (fun c => p c = true) ds -> stops p post ->
  (forall a b, ds = a ++ b -> k (last_of prev a) (b ++ post) (pushes a st) = None) ->
  rep p lo None k prev (ds ++ post) st = None.
Proof.
  induction ds as [|c ds IH]; intros lo prev st post Hds Hpost Hk.
  - pose proof (Hk [] [] eq_refl) as H0. rewrite pushes_nil in H0. simpl in H0.
    simpl. destruct post as [|c post]; [by destruct lo|].
    simpl in Hpost. cbn [rep]. rewrite Hpost. by destruct lo.
  - pose proof (Hk [] (c :: ds) eq_refl) as H0. rewrite pushes_nil in H0. simpl in H0.
    change ((c :: ds) ++ post) with (c :: (ds ++ post)). cbn [rep].
    rewrite (Forall_inv Hds). cbn [may_take andb less].
    rewrite IH; [by destruct lo | by apply Forall_inv_tail in Hds | done |].
    intros a b ->. specialize (Hk (c :: a) b eq_refl).
    by rewrite pushes_cons.
Qed.

(** The repetition gives back characters until the rest of the pattern
    succeeds. *)
Lemma rep_backtrack p k : forall ds1 ds2 lo prev st post m,
  Forall (fun c => p c = true) ds1 -> Forall (fun c => p c = true) ds2 ->
  stops p post -> lo <= length ds1 ->
  k (last_of prev ds1) (ds2 ++ post) (pushes ds1 st) = Some m ->
  (forall a b, ds2 = a ++ b -> a <> [] ->
     k (last_of prev (ds1 ++ a)) (b ++ post) (pushes (ds1 ++ a) st) = None) ->
  rep p lo None k prev (ds1 ++ ds2 ++ post) st = Some m.
Proof.
  induction ds1 as [|c ds1 IH]; intros ds2 lo prev st post m H1 H2 Hpost Hlo Hm Hk.
  - simpl in Hlo. assert (lo = 0) as -> by lia.
    rewrite pushes_nil in Hm. simpl in Hm. simpl app.
    destruct ds2 as [|c ds2].
    + simpl in *. destruct post as [|c post]; [done|]. simpl in Hpost.
      cbn [rep]. by rewrite Hpost.
    + change ((c :: ds2) ++ post) with (c :: (ds2 ++ post)) in *. cbn [rep].
      rewrite (Forall_inv H2). cbn [may_take andb less pred].
      rewrite rep_none; [done | by apply Forall_inv_tail in H2 | done |].
      intros a b ->. specialize (Hk (c :: a) b eq_refl).
      rewrite pushes_cons. apply Hk. done.
  - change ((c :: ds1) ++ ds2 ++ post) with (c :: (ds1 ++ ds2 ++ post)). cbn [rep].
    rewrite (Forall_inv H1). cbn [may_take andb less].
    rewrite (IH ds2 (pred lo) (Some c) (push c st) post m); try done.
    + by apply Forall_inv_tail in H1.
    + simpl in Hlo. lia.
    + by rewrite pushes_cons.
    + intros a b Hab Ha. specialize (Hk a b Hab Ha).
      by rewrite pushes_cons.
Qed.

(** A replacement at the very beginning of the text. *)
Lemma sub_with_hit pat repl u s m :
  Forall (fun it => it <> Bound) pat ->
  match_at false pat None (u ++ s) = Some m -> whole m = u -> u <> [] ->
  sub_with false pat repl (u ++ s) = repl m ++ sub_with false pat repl s.
Proof.
  intros Hpat Hm Hw Hu. unfold sub_with, finditer.
  rewrite (scan_hit false pat None u s m) by done. cbn [flat_map seg_out]. f_equal.
  f_equal. apply scan_prev_free. intros p1 p2 s'. by apply match_items_prev_free.
Qed.

Lemma blank_no_bound : Forall (fun it => it <> Bound) ToPostgres.blank_lines_pattern.
Proof. repeat constructor; done. Qed.

Lemma blank_starts_nl prev c s :
  c <> nl -> match_at false ToPostgres.blank_lines_pattern prev (c :: s) = None.
Proof.
  intros Hc. unfold match_at, ToPostgres.blank_lines_pattern. cbn [match_items].
  destruct (chr_eq false nl c) eqn:E; [|done]. by apply chr_eq_exact in E.
Qed.

Lemma nl_is_space : is_space nl = true.
Proof. reflexivity. Qed.

Lemma space_stops_nl post : stops is_space post -> head post <> Some nl.
Proof.
  destruct post as [|c post]; [done|]. simpl. intros Hc [= ->].
  by rewrite nl_is_space in Hc.
Qed.

Lemma head_not_nl (ws post : text) :
  nl ∉ ws -> head post <> Some nl -> head (ws ++ post) <> Some nl.
Proof.
  destruct ws as [|c ws]; [done|]. simpl. intros Hws _ [= ->]. apply Hws.
  apply elem_of_cons. by left.
Qed.

Lemma lit_nl_fails prev s st :
  head s <> Some nl -> match_items false [Lit nl] prev s st = None.
Proof.
  destruct s as [|c s]; [done|]. cbn [match_items head]. intros Hc.
  destruct (chr_eq false nl c) eqn:E; [|done]. apply chr_eq_exact in E as <-. done.
Qed.

(** A line break followed by white space without a further line break
    does not start a match. *)
Lemma blank_no_match prev ws post :
  Forall (fun c => is_space c = true) ws -> nl ∉ ws -> stops is_space post ->
  match_at false ToPostgres.blank_lines_pattern prev (nl :: ws ++ post) = None.
Proof.
  intros Hws Hnl Hpost. unfold match_at, ToPostgres.blank_lines_pattern.
  cbn [match_items]. change (chr_eq false nl nl) with true. cbv iota.
  apply rep_none; [done..|].
  intros a b ->. apply (lit_nl_fails None). apply head_not_nl.
  - intros Hb. apply Hnl. rewrite elem_of_app. by right.
  - by apply space_stops_nl.
Qed.

(** The match runs to the last line break of the white space. *)
Lemma blank_match prev ws1 ws2 post :
  Forall (fun c => is_space c = true) ws1 ->
  Forall (fun c => is_space c = true) ws2 -> nl ∉ ws2 -> stops is_space post ->
  match_at false ToPostgres.blank_lines_pattern prev (nl :: ws1 ++ nl :: ws2 ++ post)
  = Some {| whole := nl :: ws1 ++ [nl]; groups := [] |}.
Proof.
  intros H1 H2 Hnl Hpost. unfold match_at, ToPostgres.blank_lines_pattern.
  cbn [match_items]. change (chr_eq false nl nl) with true. cbv iota.
  change (nl :: ws2 ++ post) with ((nl :: ws2) ++ post).
  apply rep_backtrack.
  - done.
  - constructor; [apply nl_is_space | done].
  - done.
  - lia.
  - cbn [app match_items]. change (chr_eq false nl nl) with true. cbv iota.
    unfold finish, push, pushes. cbn [taken mark caps mstart]. by rewrite app_nil_l.
  - intros a b Hab Ha. apply (lit_nl_fails None). destruct a as [|x a]; [done|].
    injection Hab as <- ->. apply head_not_nl.
    + intros Hb. apply Hnl. rewrite elem_of_app. by right.
    + by apply space_stops_nl.
Qed.

Lemma collapse_keeps_line (pre rest : text) :
  nl ∉ pre ->
  ToPostgres.collapse_blank_lines (pre ++ rest)
  = pre ++ ToPostgres.collapse_blank_lines rest.
Proof.
  intros Hpre. apply sub_with_keeps; [apply blank_no_bound|].
  intros a b -> Hb prev. destruct b as [|c b]; [done|].
  apply blank_starts_nl. intros ->. apply Hpre.
  rewrite elem_of_app. right. apply elem_of_cons. by left.
Qed.

Lemma collapse_keeps_indent (ws post : text) :
  Forall (fun c => is_space c = true) ws -> nl ∉ ws -> stops is_space post ->
  ToPostgres.collapse_blank_lines (nl :: ws ++ post)
  = nl :: ws ++ ToPostgres.collapse_blank_lines post.
Proof.
  intros Hws Hnl Hpost.
  change (nl :: ws ++ post) with ([nl] ++ ws ++ post).
  unfold ToPostgres.collapse_blank_lines, re_sub.
  rewrite sub_with_keeps;
    [cbn [app]; f_equal; exact (collapse_keeps_line ws post Hnl) | apply blank_no_bound |].
  intros a b Hab Hb prev. destruct a as [|x a].
  - simpl in Hab. subst b. exact (blank_no_match prev ws post Hws Hnl Hpost).
  - injection Hab as _ Hab. symmetry in Hab. apply app_eq_nil in Hab as [_ ->]. done.
Qed.

(** X10: a line break followed by white space that holds a further line
    break is replaced, up to the last of these line breaks, by two line
    breaks: any number of blank or white-space-only lines becomes one empty
    line, and the indentation of the next line stays.  A line break
    followed only by indentation is kept. *)
Theorem blank_lines_collapsed (pre ws1 ws2 post : text) :
  nl ∉ pre ->
  Forall (fun c => is_space c = true) ws1 ->
  Forall (fun c => is_space c = true) ws2 -> nl ∉ ws2 -> stops is_space post ->
  ToPostgres.collapse_blank_lines (pre ++ nl :: ws1 ++ nl :: ws2 ++ post)
  = pre ++ nl :: nl :: ws2 ++ ToPostgres.collapse_blank_lines post /\
  ToPostgres.collapse_blank_lines (pre ++ nl :: ws2 ++ post)
  = pre ++ nl :: ws2 ++ ToPostgres.collapse_blank_lines post.
Proof.
  intros Hpre H1 H2 Hnl Hpost. split.
  - rewrite collapse_keeps_line by done. f_equal.
    pose proof (sub_with_hit ToPostgres.blank_lines_pattern (expand [RLit nl; RLit nl])
                  (nl :: ws1 ++ [nl]) (ws2 ++ post)
                  {| whole := nl :: ws1 ++ [nl]; groups := [] |} blank_no_bound) as H.
    replace ((nl :: ws1 ++ [nl]) ++ ws2 ++ post) with (nl :: ws1 ++ nl :: ws2 ++ post) in H
      by (by rewrite <- app_comm_cons, <- app_assoc).
    unfold ToPostgres.collapse_blank_lines, re_sub at 1. rewrite H; try done.
    + cbn [expand flat_map app]. do 2 f_equal. by apply collapse_keeps_line.
    + by apply blank_match.
  - rewrite collapse_keeps_line by done. f_equal. by apply collapse_keeps_indent.
Qed.

Lemma blank_lines_collapsed_witness :
  (nl ∉ txt "a; ") /\
  Forall (fun c => is_space c = true) (" "%char :: nl :: txt "  ") /\
  Forall (fun c => is_space c = true) (txt "  ") /\ (nl ∉ txt "  ") /\
  stops is_space (txt "b;") /\
  ToPostgres.collapse_blank_lines
    (txt "a; " ++ nl :: (" "%char :: nl :: txt "  ") ++ nl :: txt "  " ++ txt "b;")
  = txt "a; " ++ nl :: nl :: txt "  " ++ ToPostgres.collapse_blank_lines (txt "b;") /\
  ToPostgres.collapse_blank_lines (txt "a; " ++ nl :: txt "  " ++ txt "b;")
  = txt "a; " ++ nl :: txt "  " ++ ToPostgres.collapse_blank_lines (txt "b;").
Proof.
  assert (nl ∉ txt "a; ") as H1 by no_nl.
  assert (Forall (fun c => is_space c = true) (" "%char :: nl :: txt "  ")) as H2
    by (repeat constructor).
  assert (Forall (fun c => is_space c = true) (txt "  ")) as H3 by (repeat constructor).
  assert (nl ∉ txt "  ") as H4 by no_nl.
  assert (stops is_space (txt "b;")) as H5 by reflexivity.
  exact (conj H1 (conj H2 (conj H3 (conj H4 (conj H5
           (blank_lines_collapsed _ _ _ _ H1 H2 H3 H4 H5)))))).
Defined.

Lemma blank_match_inv prev s m :
  match_at false ToPostgres.blank_lines_pattern prev s = Some m ->
  exists ws, Forall (fun c => is_space c = true) ws /\ whole m = nl :: ws ++ [nl].
Proof.
  unfold match_at, ToPostgres.blank_lines_pattern. cbn [match_items].
  destruct s as [|x s]; [done|].
  destruct (chr_eq false nl x) eqn:Ex; [|done]. apply chr_eq_exact in Ex as <-.
  intros (ws & r & -> & Hws & _ & _ & Hk)%rep_sound. cbn [match_items] in Hk.
  destruct r as [|y r]; [done|].
  destruct (chr_eq false nl y) eqn:Ey; [|done]. apply chr_eq_exact in Ey as <-.
  injection Hk as <-. exists ws. split; [done|].
  unfold finish, push, pushes. cbn [taken mark caps mstart whole]. by rewrite app_nil_l.
Qed.

Lemma unspace_app a b : unspace (a ++ b) = unspace a ++ unspace b.
Proof. apply filter_app. Qed.

Lemma unspace_spaces ws : Forall (fun c => is_space c = true) ws -> unspace ws = [].
Proof.
  induction 1 as [|c ws Hc _ IH]; [done|]. unfold unspace in *. simpl. by rewrite Hc.
Qed.

(** X11: the blank-line rule only removes white space: without its white
    space the text is the same before and after, and the result is never
    longer than the text. *)
Theorem blank_line_rule_only_drops_space (s : text) :
  unspace (ToPostgres.collapse_blank_lines s) = unspace s /\
  length (ToPostgres.collapse_blank_lines s) <= length s.
Proof.
  split.
  - apply sub_view; [apply unspace_app|].
    intros prev s' m (ws & Hws & Hw)%blank_match_inv. rewrite Hw.
    change (nl :: ws ++ [nl]) with ([nl] ++ ws ++ [nl]).
    by rewrite !unspace_app, (unspace_spaces ws).
  - apply sub_no_longer.
    intros prev s' m (ws & Hws & Hw)%blank_match_inv. rewrite Hw.
    cbn [expand flat_map app length]. rewrite length_app. simpl. lia.
Qed.

(** * Selecting the INSERT lines *)

Lemma lstrip_spec s :
  exists ws, s = ws ++ lstrip s /\ Forall (fun c => is_space c = true) ws /\
             stops is_space (lstrip s).
Proof.
  induction s as [|c s (ws & Hs & Hws & Hst)]; [by exists []|].
  simpl. destruct (is_space c) eqn:Hc.
  - exists (c :: ws). split; [simpl; by f_equal | by split; [constructor|]].
  - by exists [].
Qed.

Lemma lstrip_spaces ws t :
  Forall (fun c => is_space c = true) ws -> lstrip (ws ++ t) = lstrip t.
Proof. induction 1 as [|c ws Hc _ IH]; [done|]. simpl. by rewrite Hc. Qed.

Lemma lstrip_stops t : stops is_space t -> lstrip t = t.
Proof. destruct t as [|c t]; [done|]. simpl. by intros ->. Qed.

Lemma lstrip_before x c y : is_space c = false ->
  exists x', lstrip (x ++ c :: y) = x' ++ c :: y.
Proof.
  intros Hc. induction x as [|d x [x' IH]]; simpl.
  - rewrite Hc. by exists [].
  - destruct (is_space d); [by exists x' | by exists (d :: x)].
Qed.

(** Stripping at the right end does not reach a character that is not
    white space. *)
Lemma rstrip_after a c r : is_space c = false ->
  exists r', rstrip (a ++ c :: r) = a ++ c :: r'.
Proof.
  intros Hc. unfold rstrip. rewrite rev_app_distr. simpl. rewrite <- app_assoc. simpl.
  destruct (lstrip_before (rev r) c (rev a) Hc) as [x' ->].
  exists (rev x'). rewrite rev_app_distr. simpl. by rewrite rev_involutive, <- app_assoc.
Qed.

Lemma rstrip_prefix s : exists ws, s = rstrip s ++ ws.
Proof.
  unfold rstrip. destruct (lstrip_spec (rev s)) as (ws & Hs & _).
  exists (rev ws). rewrite <- rev_app_distr, <- Hs. by rewrite rev_involutive.
Qed.

Lemma is_insert_line_spec (line : text) :
  DataOnly.is_insert_line line = true <-> insert_statement line.
Proof.
  unfold insert_statement, DataOnly.is_insert_line, strip. rewrite startswith_spec. split.
  - intros [r Hr]. destruct (lstrip_spec line) as (ws & Hline & Hws & _).
    destruct (rstrip_prefix (lstrip line)) as [ws' Hws'].
    exists ws, (r ++ ws'). split; [done|].
    rewrite Hline at 1. f_equal. rewrite Hws' at 1. by rewrite Hr, <- app_assoc.
  - intros (ws & rest & Hws & ->). rewrite lstrip_spaces by done.
    rewrite lstrip_stops by done.
    change (txt "INSERT INTO" ++ rest) with (txt "INSERT INT" ++ "O"%char :: rest).
    destruct (rstrip_after (txt "INSERT INT") "O" rest eq_refl) as [r' ->].
    by exists r'.
Qed.

(** X12: a line is selected exactly when, after leading white space, it
    goes on with the upper-case text INSERT INTO; what follows the keyword,
    and white space at the end of the line, play no role. *)
Theorem insert_line_selected (line : text) :
  DataOnly.is_insert_line line = true <->
  exists ws rest, Forall (fun c => is_space c = true) ws /\
                  line = ws ++ txt "INSERT INTO" ++ rest.
Proof. apply is_insert_line_spec. Qed.

Lemma insert_line_selected_witness :
  Forall (fun c => is_space c = true) (txt "  ") /\
  DataOnly.is_insert_line (txt "  " ++ txt "INSERT INTO" ++ txt "t VALUES(1);  ") = true.
Proof.
  assert (Forall (fun c => is_space c = true) (txt "  ")) as H by (repeat constructor).
  exact (conj H (proj2 (insert_line_selected _)
                   (ex_intro _ _ (ex_intro _ _ (conj H eq_refl))))).
Defined.

Lemma split_nonempty sep s : split sep s <> [].
Proof.
  destruct s as [|c s]; [done|]. simpl.
  destruct (Ascii.eqb c sep); [done|]. by destruct (split sep s).
Qed.

Lemma join_split sep s : join sep (split sep s) = s.
Proof.
  induction s as [|c s IH]; [done|]. cbn [split].
  pose proof (split_nonempty sep s) as Hne.
  destruct (split sep s) as [|l ls]; [done|].
  destruct (Ascii.eqb_spec c sep) as [->|Hc].
  - change (join sep ([] :: l :: ls)) with (sep :: join sep (l :: ls)). by rewrite IH.
  - destruct ls as [|l' ls]; [simpl in *; by subst|].
    change (join sep ((c :: l) :: l' :: ls)) with (c :: (l ++ sep :: join sep (l' :: ls))).
    f_equal. exact IH.
Qed.

Lemma filter_Forall_id {A} (f : A -> bool) (l : list A) :
  Forall (fun x => f x = true) l -> filter f l = l.
Proof. induction 1 as [|x l Hx _ IH]; [done|]. simpl. by rewrite Hx, IH. Qed.

Lemma filter_twice {A} (f : A -> bool) (l : list A) : filter f (filter f l) = filter f l.
Proof.
  apply filter_Forall_id. apply Forall_forall. intros x Hx. by apply filter_In in Hx as [_ Hx].
Qed.

(** X13: splitting a text at its line breaks and joining the pieces gives
    the text back, so a dump that consists of INSERT lines only reaches the
    rewriting unchanged; and the lines selected from the joined selection
    are the selection itself. *)
Theorem insert_selection_stable (content : text) :
  join nl (split nl content) = content /\
  (Forall (fun l => DataOnly.is_insert_line l = true) (split nl content) ->
   join nl (DataOnly.insert_lines content) = content) /\
  DataOnly.insert_lines (join nl (DataOnly.insert_lines content))
  = DataOnly.insert_lines content.
Proof.
  split; [apply join_split|]. split.
  - intros H. unfold DataOnly.insert_lines. rewrite filter_Forall_id by done. apply join_split.
  - unfold DataOnly.insert_lines.
    destruct (filter DataOnly.is_insert_line (split nl content)) as [|l ls] eqn:E; [done|].
    rewrite split_join.
    + by rewrite <- E, filter_twice.
    + done.
    + apply Forall_forall. intros x Hx. rewrite <- E in Hx.
      apply filter_In in Hx as [Hx _].
      pose proof (split_no_sep nl content) as H. rewrite Forall_forall in H. by apply H.
Qed.

Lemma insert_selection_stable_witness :
  Forall (fun l => DataOnly.is_insert_line l = true)
    (split nl (txt "INSERT INTO a VALUES(1);" ++ nl :: txt "INSERT INTO b VALUES(2);")) /\
  join nl (DataOnly.insert_lines
             (txt "INSERT INTO a VALUES(1);" ++ nl :: txt "INSERT INTO b VALUES(2);"))
  = txt "INSERT INTO a VALUES(1);" ++ nl :: txt "INSERT INTO b VALUES(2);".
Proof.
  assert (Forall (fun l => DataOnly.is_insert_line l = true)
            (split nl (txt "INSERT INTO a VALUES(1);" ++ nl :: txt "INSERT INTO b VALUES(2);")))
    as H by (repeat constructor).
  exact (conj H (proj1 (proj2 (insert_selection_stable _)) H)).
Defined.

(** ** The body of the data-only output *)

Lemma filter_selection (ls : list text) :
  selection insert_statement ls (filter DataOnly.is_insert_line ls).
Proof.
  induction ls as [|l ls IH]; simpl; [constructor|].
  destruct (DataOnly.is_insert_line l) eqn:E.
  - apply selection_keep; [by apply is_insert_line_spec | done].
  - apply selection_drop; [|done]. intros H%is_insert_line_spec. congruence.
Qed.

Lemma filter_some (ls : list text) :
  Exists insert_statement ls -> filter DataOnly.is_insert_line ls <> [].
Proof.
  induction 1 as [l ls H|l ls _ IH]; simpl.
  - apply is_insert_line_spec in H. by rewrite H.
  - by destruct (DataOnly.is_insert_line l).
Qed.

(** C1: when the input has at least one line that begins, after leading
    white space, with INSERT INTO, the Data-Only Converter writes the
    preamble, a body and the postamble.  The body is made from the lines
    [kept], which are exactly the input lines of that form, in the order
    of the input: it has one line for each of them, and its k-th line is
    the k-th of them as the table-name, timestamp, boolean and NULL rules
    rewrite it, up to the double quotes that the final cleanup of doubled
    quotes removes.  No other input line contributes to the body.  The run
    is one that reaches the write: the clock converts, the output path can
    be written, and the offset of the local time zone is less than a
    day. *)
Theorem one_output_line_per_insert (w : world) (input_file output_file : string)
    (content generated : text) :
  files w !! input_file = Some content ->
  Exists insert_statement (split nl content) ->
  (forall t, - 86400 < utcoffset w t < 86400)%Z ->
  DataOnly.now_text w = Ok generated ->
  output_file ∉ locked w ->
  exists kept body,
    selection insert_statement (split nl content) kept /\
    files_after (DataOnly.convert_sqlite_data_to_postgres w input_file output_file)
      !! output_file
    = Some (DataOnly.preamble generated ++ body ++ DataOnly.postamble) /\
    DataOnly.rewrite (utcoffset w) (join nl kept) = Ok body /\
    length (split nl body) = length kept /\
    map unquote (split nl body)
    = map (fun line => unquote (rewrite_line (utcoffset w) line)) kept.
Proof.
  intros Hread Hsome Htz Hnow Hfree.
  destruct (insert_lines_rewritten w input_file output_file content generated)
    as (body & Hbody); try done.
  - by apply filter_some.
  - exists (DataOnly.insert_lines content), body. split; [|done].
    apply filter_selection.
Qed.

Lemma one_output_line_per_insert_witness :
  files (world_at small_dump 1700000000 (fun _ => 0%Z)) !! "dump.sql"%string = Some small_dump /\
  Exists insert_statement (split nl small_dump) /\
  (forall t : Z, - 86400 < 0 < 86400)%Z /\
  DataOnly.now_text (world_at small_dump 1700000000 (fun _ => 0%Z))
  = Ok (txt "2023-11-14 22:13:20") /\
  ("out.sql"%string ∉ locked (world_at small_dump 1700000000 (fun _ => 0%Z))) /\
  exists kept body,
    selection insert_statement (split nl small_dump) kept /\
    DataOnly.rewrite (fun _ => 0%Z) (join nl kept) = Ok body /\
    length (split nl body) = length kept.
Proof.
  assert (files (world_at small_dump 1700000000 (fun _ => 0%Z)) !! "dump.sql"%string
          = Some small_dump) as H1 by reflexivity.
  assert (Exists insert_statement (split nl small_dump)) as H2.
  { apply Exists_cons_tl, Exists_cons_hd.
    exists [], (txt " t VALUES(1,0);"). split; [constructor | reflexivity]. }
  assert (DataOnly.now_text (world_at small_dump 1700000000 (fun _ => 0%Z))
          = Ok (txt "2023-11-14 22:13:20")) as H3 by (vm_compute; reflexivity).
  assert ("out.sql"%string ∉ locked (world_at small_dump 1700000000 (fun _ => 0%Z))) as H4
    by apply not_elem_of_empty.
  assert (forall t : Z, - 86400 < 0 < 86400)%Z as H0 by (intros; lia).
  destruct (one_output_line_per_insert _ "dump.sql" "out.sql" _ _ H1 H2 H0 H3 H4)
    as (kept & body & H5 & _ & H6 & H7 & _).
  exact (conj H1 (conj H2 (conj H0 (conj H3 (conj H4
           (ex_intro _ kept (ex_intro _ body (conj H5 (conj H6 H7))))))))).
Defined.

(** * The doubled-quote cleanup *)

Lemma undouble_no_bound : Forall (fun it => it <> Bound) DataOnly.undouble_pattern.
Proof. repeat constructor; done. Qed.

Lemma undouble_match_at prev g post :
  g <> [] -> dq ∉ g ->
  match_at false DataOnly.undouble_pattern prev (dq :: dq :: g ++ dq :: dq :: post)
  = Some {| whole := dq :: dq :: g ++ [dq; dq]; groups := [g] |}.
Proof.
  intros Hne Hg. unfold match_at, DataOnly.undouble_pattern. cbn [match_items].
  change (chr_eq false dq dq) with true. cbv iota.
  apply rep_greedy.
  - by apply not_chr_Forall.
  - done.
  - destruct g; [done | simpl; lia].
  - done.
  - cbn [match_items]. change (chr_eq false dq dq) with true. cbv iota.
    unfold finish, push, gclose, pushes, gopen. cbn [taken mark caps mstart].
    rewrite !app_nil_l, (drop_app_length [dq; dq]). cbn [app].
    by rewrite <- !app_assoc.
Qed.

(** X14: a name between doubled double quotes loses one quote on each
    side, and the text after it is treated the same way. *)
Theorem doubled_quotes_undone (pre g post : text) :
  dq ∉ pre -> g <> [] -> dq ∉ g ->
  DataOnly.undouble_quotes (pre ++ dq :: dq :: g ++ dq :: dq :: post)
  = pre ++ dq :: g ++ dq :: DataOnly.undouble_quotes post.
Proof.
  intros Hpre Hne Hg. unfold DataOnly.undouble_quotes, re_sub.
  rewrite sub_with_keeps; [f_equal | apply undouble_no_bound |].
  - pose proof (sub_with_hit DataOnly.undouble_pattern
                  (expand [RLit dq; RGroup 1; RLit dq])
                  (dq :: dq :: g ++ [dq; dq]) post
                  {| whole := dq :: dq :: g ++ [dq; dq]; groups := [g] |}
                  undouble_no_bound) as H.
    replace ((dq :: dq :: g ++ [dq; dq]) ++ post) with (dq :: dq :: g ++ dq :: dq :: post) in H
      by (by rewrite <- !app_comm_cons, <- app_assoc).
    rewrite H; try done.
    + change (expand _ _) with ([dq] ++ g ++ [dq] ++ []).
      by rewrite app_nil_r, <- !app_assoc.
    + by apply undouble_match_at.
  - intros a b -> Hb prev. destruct b as [|c b]; [done|].
    unfold match_at, DataOnly.undouble_pattern. cbn [app match_items].
    destruct (chr_eq false dq c) eqn:E; [|done]. apply chr_eq_exact in E as <-.
    exfalso. apply Hpre. rewrite elem_of_app. right. apply elem_of_cons. by left.
Qed.

Lemma doubled_quotes_undone_witness :
  (dq ∉ txt "INSERT INTO ") /\ txt "t" <> [] /\ (dq ∉ txt "t") /\
  DataOnly.undouble_quotes (txt "INSERT INTO " ++ dq :: dq :: txt "t" ++ dq :: dq :: txt " VALUES(1);")
  = txt "INSERT INTO " ++ dq :: txt "t" ++ dq :: DataOnly.undouble_quotes (txt " VALUES(1);").
Proof.
  assert (dq ∉ txt "INSERT INTO ") as H1 by no_nl.
  assert (txt "t" <> []) as H2 by discriminate.
  assert (dq ∉ txt "t") as H3 by no_nl.
  exact (conj H1 (conj H2 (conj H3 (doubled_quotes_undone _ _ (txt " VALUES(1);") H1 H2 H3)))).
Defined.

(** * The runs *)

(** X15: no run of either converter, whether it succeeds or fails and
    however the write fails, changes a file other than the one under the
    output path. *)
Theorem runs_touch_only_output (w : world) (input_file output_file path : string) :
  path <> output_file ->
  fs (ToPostgres.main w input_file output_file) !! path = files w !! path /\
  fs (DataOnly.main w input_file output_file) !! path = files w !! path.
Proof.
  intros Hp.
  assert (forall content, (write_file w output_file content).1 !! path = files w !! path)
    as Hwrite.
  { intros content. unfold write_file.
    destruct (decide (output_file ∈ locked w)); [destruct (failure w output_file)|];
      simpl; try done; by apply lookup_insert_ne. }
  split.
  - unfold ToPostgres.main, ToPostgres.convert_sqlite_to_postgres, ToPostgres.raised.
    destruct (read_file w input_file) as [content|e]; simpl; [|done].
    specialize (Hwrite (ToPostgres.preamble ++ ToPostgres.rewrite content)).
    by destruct (write_file w output_file _) as [files' [[]|e]].
  - unfold DataOnly.main, DataOnly.convert_sqlite_data_to_postgres, DataOnly.raised.
    destruct (read_file w input_file) as [content|e]; simpl; [|done].
    destruct (filter DataOnly.is_insert_line (split nl content)) as [|l ls]; simpl;
      [done|].
    destruct (DataOnly.rewrite _ _) as [body|e]; simpl; [|done].
    destruct (DataOnly.now_text w) as [generated|e]; simpl; [|done].
    specialize (Hwrite (DataOnly.preamble generated ++ body ++ DataOnly.postamble)).
    by destruct (write_file w output_file _) as [files' [[]|e]].
Qed.

Lemma runs_touch_only_output_witness :
  "dump.sql"%string <> "out.sql"%string /\
  fs (ToPostgres.main (world_locked one_insert (AfterOpen 5 OSError) 0 (fun _ => 0%Z))
        "dump.sql" "out.sql") !! "dump.sql"%string
  = files (world_locked one_insert (AfterOpen 5 OSError) 0 (fun _ => 0%Z)) !! "dump.sql"%string /\
  fs (DataOnly.main (world_locked one_insert (AfterOpen 5 OSError) 0 (fun _ => 0%Z))
        "dump.sql" "out.sql") !! "dump.sql"%string
  = files (world_locked one_insert (AfterOpen 5 OSError) 0 (fun _ => 0%Z)) !! "dump.sql"%string.
Proof.
  assert ("dump.sql"%string <> "out.sql"%string) as H by discriminate.
  exact (conj H (runs_touch_only_output _ "dump.sql" "out.sql" "dump.sql" H)).
Defined.

(** X16: when the input file does not exist, either converter reports
    FileNotFoundError for it and ends with exit code 1. *)
Theorem missing_input_reported (w : world) (input_file output_file : string) :
  files w !! input_file = None ->
  ToPostgres.main w input_file output_file
  = {| fs := files w; stdout := []; reported := Some (FileNotFoundError input_file);
       exit_code := 1 |} /\
  DataOnly.main w input_file output_file
  = {| fs := files w; stdout := []; reported := Some (FileNotFoundError input_file);
       exit_code := 1 |}.
Proof.
  intros H.
  unfold ToPostgres.main, ToPostgres.convert_sqlite_to_postgres, ToPostgres.raised,
    DataOnly.main, DataOnly.convert_sqlite_data_to_postgres, DataOnly.raised, read_file.
  by rewrite H.
Qed.

Lemma missing_input_reported_witness :
  files (world_at one_insert 0 (fun _ => 0%Z)) !! "other.sql"%string = None /\
  exit_code (ToPostgres.main (world_at one_insert 0 (fun _ => 0%Z)) "other.sql" "out.sql") = 1%Z /\
  exit_code (DataOnly.main (world_at one_insert 0 (fun _ => 0%Z)) "other.sql" "out.sql") = 1%Z.
Proof.
  assert (files (world_at one_insert 0 (fun _ => 0%Z)) !! "other.sql"%string = None) as H
    by reflexivity.
  destruct (missing_input_reported _ "other.sql" "out.sql" H) as [H1 H2].
  exact (conj H (conj (f_equal exit_code H1) (f_equal exit_code H2))).
Defined.

(** X17: when the write to the output fails, either converter prints
    nothing on standard output, reports the exception that [open], [write]
    or the closing of the file raised, and ends with exit code 1.  When
    [open] itself failed, whatever its exception (PermissionError,
    FileNotFoundError for a missing directory, IsADirectoryError, ...), no
    file is changed; when the failure came after [open], the output path
    holds the beginning of the text that was to be written.  For the
    Data-Only Converter this is the case of an input with an INSERT line,
    the only one in which it writes. *)
Theorem locked_output_reported (w : world) (input_file output_file : string)
    (content generated : text) :
  files w !! input_file = Some content ->
  output_file ∈ locked w ->
  ToPostgres.main w input_file output_file
  = {| fs := stored output_file
               (left_behind (failure w output_file)
                  (ToPostgres.preamble ++ ToPostgres.rewrite content))
               (files w);
       stdout := []; reported := Some (error_of (failure w output_file));
       exit_code := 1 |} /\
  (DataOnly.insert_lines content <> [] ->
   (forall t, - 86400 < utcoffset w t < 86400)%Z ->
   DataOnly.now_text w = Ok generated ->
   exists body,
     DataOnly.rewrite (utcoffset w) (join nl (DataOnly.insert_lines content)) = Ok body /\
     DataOnly.main w input_file output_file
     = {| fs := stored output_file
                  (left_behind (failure w output_file)
                     (DataOnly.preamble generated ++ body ++ DataOnly.postamble))
                  (files w);
          stdout := []; reported := Some (error_of (failure w output_file));
          exit_code := 1 |}).
Proof.
  intros Hread Hlock. split.
  - unfold ToPostgres.main, ToPostgres.convert_sqlite_to_postgres, ToPostgres.raised,
      read_file, write_file.
    rewrite Hread. destruct (decide (output_file ∈ locked w)); [|done].
    by destruct (failure w output_file).
  - intros Hins Htz Hnow.
    eexists. split; [by apply data_rewrite_ok|].
    unfold DataOnly.main, DataOnly.convert_sqlite_data_to_postgres, DataOnly.raised,
      read_file, write_file.
    rewrite Hread. unfold DataOnly.insert_lines in *.
    destruct (filter DataOnly.is_insert_line (split nl content)) as [|l ls]; [done|].
    rewrite data_rewrite_ok by done. rewrite Hnow.
    destruct (decide (output_file ∈ locked w)); [|done].
    by destruct (failure w output_file).
Qed.

Lemma locked_output_reported_witness :
  files (world_locked one_insert (AtOpen (IsADirectoryError "out.sql")) 1700000000
           (fun _ => 0%Z)) !! "dump.sql"%string
  = Some one_insert /\
  ("out.sql"%string
   ∈ locked (world_locked one_insert (AtOpen (IsADirectoryError "out.sql")) 1700000000
               (fun _ => 0%Z))) /\
  DataOnly.insert_lines one_insert <> [] /\
  (forall t : Z, - 86400 < 0 < 86400)%Z /\
  DataOnly.now_text (world_locked one_insert (AtOpen (IsADirectoryError "out.sql"))
                       1700000000 (fun _ => 0%Z))
  = Ok (txt "2023-11-14 22:13:20") /\
  reported (ToPostgres.main
              (world_locked one_insert (AtOpen (IsADirectoryError "out.sql")) 1700000000
                 (fun _ => 0%Z)) "dump.sql" "out.sql")
  = Some (IsADirectoryError "out.sql") /\
  reported (DataOnly.main
              (world_locked one_insert (AtOpen (IsADirectoryError "out.sql")) 1700000000
                 (fun _ => 0%Z)) "dump.sql" "out.sql")
  = Some (IsADirectoryError "out.sql").
Proof.
  assert (files (world_locked one_insert (AtOpen (IsADirectoryError "out.sql")) 1700000000
                   (fun _ => 0%Z)) !! "dump.sql"%string
          = Some one_insert) as H1 by reflexivity.
  assert ("out.sql"%string
          ∈ locked (world_locked one_insert (AtOpen (IsADirectoryError "out.sql")) 1700000000
                      (fun _ => 0%Z))) as H2
    by (change ("out.sql"%string ∈ ({[ "out.sql"%string ]} : gset string));
        apply elem_of_singleton_2; reflexivity).
  assert (DataOnly.insert_lines one_insert <> []) as H3 by (vm_compute; discriminate).
  assert (forall t : Z, - 86400 < 0 < 86400)%Z as H4 by (intros; lia).
  assert (DataOnly.now_text (world_locked one_insert (AtOpen (IsADirectoryError "out.sql"))
                               1700000000 (fun _ => 0%Z))
          = Ok (txt "2023-11-14 22:13:20")) as H5 by (vm_compute; reflexivity).
  destruct (locked_output_reported _ "dump.sql" "out.sql" _ (txt "2023-11-14 22:13:20") H1 H2)
    as [H6 H7].
  destruct (H7 H3 H4 H5) as (body & _ & H8).
  exact (conj H1 (conj H2 (conj H3 (conj H4 (conj H5
           (conj (f_equal reported H6) (f_equal reported H8))))))).
Defined.

(** X18: a run of the Schema-and-Data Converter on an existing input and a
    writable output stores the preamble followed by the rewritten input
    under the output path, leaves every other file as it was, prints its
    two messages and ends with exit code 0.  The input file itself is
    overwritten when both paths are the same. *)
Theorem schema_run_writes_output (w : world) (input_file output_file : string)
    (content : text) :
  files w !! input_file = Some content ->
  output_file ∉ locked w ->
  fs (ToPostgres.main w input_file output_file) !! output_file
  = Some (ToPostgres.preamble ++ ToPostgres.rewrite content) /\
  (forall path, path <> output_file ->
     fs (ToPostgres.main w input_file output_file) !! path = files w !! path) /\
  stdout (ToPostgres.main w input_file output_file)
  = [txt "Converted " ++ txt input_file ++ txt " to " ++ txt output_file;
     txt "Conversion completed successfully!"] /\
  reported (ToPostgres.main w input_file output_file) = None /\
  exit_code (ToPostgres.main w input_file output_file) = 0%Z.
Proof.
  intros Hread Hlock.
  unfold ToPostgres.main, ToPostgres.convert_sqlite_to_postgres, read_file, write_file.
  rewrite Hread. destruct (decide (output_file ∈ locked w)); [done|]. simpl.
  split; [apply lookup_insert_eq|]. split; [|done].
  intros path Hp. by apply lookup_insert_ne.
Qed.

Lemma schema_run_writes_output_witness :
  files (world_at one_insert 0 (fun _ => 0%Z)) !! "dump.sql"%string = Some one_insert /\
  ("dump.sql"%string ∉ locked (world_at one_insert 0 (fun _ => 0%Z))) /\
  fs (ToPostgres.main (world_at one_insert 0 (fun _ => 0%Z)) "dump.sql" "dump.sql")
    !! "dump.sql"%string
  = Some (ToPostgres.preamble ++ ToPostgres.rewrite one_insert).
Proof.
  assert (files (world_at one_insert 0 (fun _ => 0%Z)) !! "dump.sql"%string = Some one_insert)
    as H1 by reflexivity.
  assert ("dump.sql"%string ∉ locked (world_at one_insert 0 (fun _ => 0%Z))) as H2
    by apply not_elem_of_empty.
  exact (conj H1 (conj H2 (proj1 (schema_run_writes_output _ "dump.sql" "dump.sql" _ H1 H2)))).
Defined.

(** X19: a run of the Data-Only Converter that reaches the write reports
    the number of selected lines in its first message, prints its closing
    message, leaves every file but the output as it was and ends with exit
    code 0. *)
Theorem data_run_reports_count (w : world) (input_file output_file : string)
    (content generated : text) :
  files w !! input_file = Some content ->
  DataOnly.insert_lines content <> [] ->
  (forall t, - 86400 < utcoffset w t < 86400)%Z ->
  DataOnly.now_text w = Ok generated ->
  output_file ∉ locked w ->
  stdout (DataOnly.main w input_file output_file)
  = [txt "Converted " ++ str_of_Z (Z.of_nat (length (DataOnly.insert_lines content)))
       ++ txt " INSERT statements from " ++ txt input_file ++ txt " to " ++ txt output_file;
     txt "Data conversion completed successfully!"] /\
  (forall path, path <> output_file ->
     fs (DataOnly.main w input_file output_file) !! path = files w !! path) /\
  reported (DataOnly.main w input_file output_file) = None /\
  exit_code (DataOnly.main w input_file output_file) = 0%Z.
Proof.
  intros Hread Hlines Htz Hnow Hfree.
  unfold DataOnly.main, DataOnly.convert_sqlite_data_to_postgres, read_file, write_file.
  rewrite Hread. fold (DataOnly.insert_lines content).
  destruct (DataOnly.insert_lines content) as [|l ls] eqn:E; [done|].
  rewrite data_rewrite_ok by done. rewrite Hnow.
  destruct (decide (output_file ∈ locked w)); [done|]. simpl.
  split; [done|]. split; [|done]. intros path Hp. by apply lookup_insert_ne.
Qed.

Lemma data_run_reports_count_witness :
  files (world_at small_dump 1700000000 (fun _ => 0%Z)) !! "dump.sql"%string = Some small_dump /\
  DataOnly.insert_lines small_dump <> [] /\
  (forall t : Z, - 86400 < 0 < 86400)%Z /\
  DataOnly.now_text (world_at small_dump 1700000000 (fun _ => 0%Z))
  = Ok (txt "2023-11-14 22:13:20") /\
  ("out.sql"%string ∉ locked (world_at small_dump 1700000000 (fun _ => 0%Z))) /\
  exit_code (DataOnly.main (world_at small_dump 1700000000 (fun _ => 0%Z)) "dump.sql" "out.sql")
  = 0%Z.
Proof.
  assert (files (world_at small_dump 1700000000 (fun _ => 0%Z)) !! "dump.sql"%string
          = Some small_dump) as H1 by reflexivity.
  assert (DataOnly.insert_lines small_dump <> []) as H2 by (vm_compute; discriminate).
  assert (DataOnly.now_text (world_at small_dump 1700000000 (fun _ => 0%Z))
          = Ok (txt "2023-11-14 22:13:20")) as H3 by (vm_compute; reflexivity).
  assert ("out.sql"%string ∉ locked (world_at small_dump 1700000000 (fun _ => 0%Z))) as H4
    by apply not_elem_of_empty.
  assert (forall t : Z, - 86400 < 0 < 86400)%Z as H0 by (intros; lia).
  destruct (data_run_reports_count _ "dump.sql" "out.sql" _ _ H1 H2 H0 H3 H4)
    as (_ & _ & _ & H5).
  exact (conj H1 (conj H2 (conj H0 (conj H3 (conj H4 H5))))).
Defined.

(** * The rule for INSERT statements with a first NULL is covered *)

Lemma insert_null_no_bound : Forall (fun it => it <> Bound) ToPostgres.insert_null_pattern.
Proof. repeat constructor; done. Qed.

Lemma null_no_bound : Forall (fun it => it <> Bound) (lits "VALUES(NULL,").
Proof. repeat constructor; done. Qed.

Lemma insert_null_match_inv prev s m :
  match_at false ToPostgres.insert_null_pattern prev s = Some m ->
  exists name rest,
    s = insert_head name ++ txt "VALUES(NULL," ++ rest /\
    whole m = insert_head name ++ txt "VALUES(NULL," /\ groups m = [name].
Proof.
  unfold match_at, ToPostgres.insert_null_pattern, lits. rewrite match_lits.
  destruct (lit_prefix false (txt "INSERT INTO ") s) as [[u r]|] eqn:E; [|done].
  apply lit_prefix_exact in E as [-> ->]. cbn [match_items app].
  destruct r as [|x r]; [done|].
  destruct (chr_eq false dq x) eqn:Ex; [|done]. apply chr_eq_exact in Ex as <-.
  intros (name & r' & -> & _ & _ & _ & Hk)%rep_sound. cbn [match_items] in Hk.
  destruct r' as [|y r']; [done|].
  destruct (chr_eq false dq y) eqn:Ey; [|done]. apply chr_eq_exact in Ey as <-.
  rewrite <- (app_nil_r (map Lit (txt " VALUES(NULL,"))), match_lits in Hk.
  destruct (lit_prefix false (txt " VALUES(NULL,") r') as [[u r'']|] eqn:E; [|done].
  apply lit_prefix_exact in E as [-> ->]. cbn [match_items] in Hk.
  injection Hk as <-. exists name, r''. unfold insert_head.
  unfold finish, push, gclose, pushes, gopen. cbn [taken mark caps mstart whole groups].
  rewrite !app_nil_l.
  change (txt " VALUES(NULL,") with (" "%char :: txt "VALUES(NULL,").
  split; [|split].
  - rewrite <- !app_assoc. cbn [app]. by rewrite <- !app_assoc.
  - rewrite <- !app_assoc. cbn [app]. by rewrite <- !app_assoc.
  - by rewrite drop_app_length.
Qed.

Lemma insert_null_head prev c s :
  c <> "I"%char -> match_at false ToPostgres.insert_null_pattern prev (c :: s) = None.
Proof.
  intros Hc. unfold match_at, ToPostgres.insert_null_pattern, lits.
  cbn [txt list_ascii_of_string map app match_items].
  destruct (chr_eq false "I" c) eqn:E; [|done]. by apply chr_eq_exact in E.
Qed.

(** What the rule does at the beginning of a text. *)
Lemma insert_null_step c s :
  ToPostgres.insert_null_to_default (c :: s)
  = c :: ToPostgres.insert_null_to_default s \/
  exists name rest,
    c :: s = insert_head name ++ txt "VALUES(NULL," ++ rest /\
    ToPostgres.insert_null_to_default (c :: s)
    = insert_head name ++ txt "VALUES(DEFAULT," ++ ToPostgres.insert_null_to_default rest.
Proof.
  destruct (match_at false ToPostgres.insert_null_pattern None (c :: s)) as [m|] eqn:E.
  - right. pose proof E as (name & rest & Hs & Hw & Hg)%insert_null_match_inv.
    exists name, rest. split; [done|].
    unfold ToPostgres.insert_null_to_default, re_sub. rewrite Hs in E |- *.
    rewrite app_assoc in E |- *.
    rewrite (sub_with_hit _ _ _ _ m insert_null_no_bound E Hw).
    + rewrite (app_assoc (insert_head name) (txt "VALUES(DEFAULT,")). f_equal.
      destruct m as [wh gs]. cbn [groups] in Hg. subst gs.
      unfold insert_head.
      change (expand ToPostgres.insert_null_template _)
        with (txt "INSERT INTO " ++ [dq] ++ name ++ [dq] ++ txt " VALUES(DEFAULT," ++ []).
      rewrite app_nil_r, <- (app_assoc (txt "INSERT INTO ")). f_equal. cbn [app].
      by rewrite <- app_assoc.
    + unfold insert_head. by destruct (txt "INSERT INTO ").
  - left. change (c :: s) with ([c] ++ s).
    unfold ToPostgres.insert_null_to_default, re_sub.
    rewrite sub_with_keeps; [done | apply insert_null_no_bound |].
    intros a b Hab Hb prev. destruct a as [|x a].
    + simpl in Hab. subst b.
      unfold match_at in *.
      rewrite (match_items_prev_free false _ insert_null_no_bound prev None). exact E.
    + injection Hab as _ Hab. symmetry in Hab. by apply app_eq_nil in Hab as [_ ->].
Qed.

(** A beginning without the letter I of what the rule returns is a
    beginning of the text. *)
Lemma insert_null_prefix x : forall t r,
  "I"%char ∉ t -> ToPostgres.insert_null_to_default x = t ++ r -> exists r', x = t ++ r'.
Proof.
  induction x as [|c s IH]; intros t r Ht H.
  - destruct t; [by exists [] | done].
  - destruct t as [|a t]; [by exists (c :: s)|].
    destruct (insert_null_step c s) as [Hq|(name & rest & _ & Hq)]; rewrite Hq in H.
    + injection H as <- H. destruct (IH t r) as [r' ->]; [|done|by exists r'].
      intros Hin. apply Ht. apply elem_of_cons. by right.
    + exfalso. apply Ht. injection H as <- _. apply elem_of_cons. by left.
Qed.

Lemma lit_prefix_startswith w s :
  startswith w s = false -> lit_prefix false w s = None.
Proof.
  intros H. destruct (lit_prefix false w s) as [[u r]|] eqn:E; [|done].
  apply lit_prefix_exact in E as [_ ->].
  assert (startswith w (w ++ r) = true) as H' by (apply startswith_spec; by exists r).
  congruence.
Qed.

Lemma null_step_other c s :
  startswith (txt "VALUES(NULL,") (c :: s) = false ->
  null_to_default (c :: s) = c :: null_to_default s.
Proof.
  intros H. change (c :: s) with ([c] ++ s). unfold null_to_default, re_sub.
  rewrite sub_with_keeps; [done | apply null_no_bound |].
  intros a b Hab Hb prev. destruct a as [|x a].
  - simpl in Hab. subst b. unfold match_at, lits.
    rewrite <- (app_nil_r (map Lit _)), match_lits.
    change ([c] ++ s) with (c :: s). by rewrite lit_prefix_startswith.
  - injection Hab as _ Hab. symmetry in Hab. by apply app_eq_nil in Hab as [_ ->].
Qed.

Lemma null_step_keyword r :
  null_to_default (txt "VALUES(NULL," ++ r) = txt "VALUES(DEFAULT," ++ null_to_default r.
Proof. exact (proj2 (literal_rule "VALUES(NULL," "VALUES(DEFAULT," [] r eq_refl
                       ltac:(discriminate) eq_refl)). Qed.

(** The keyword holds no space, so no match runs across one. *)
Lemma null_after_space b y :
  null_to_default (b ++ " "%char :: y)
  = null_to_default b ++ " "%char :: null_to_default y.
Proof.
  unfold null_to_default, re_sub, sub_with, finditer.
  rewrite scan_cut; [| repeat constructor | done | lia].
  rewrite flat_map_app. cbn [flat_map seg_out app]. do 3 f_equal.
  apply scan_prev_free. intros p1 p2 s. apply match_items_prev_free, null_no_bound.
Qed.

Lemma null_after_default y :
  null_to_default (txt "VALUES(DEFAULT," ++ y)
  = txt "VALUES(DEFAULT," ++ null_to_default y.
Proof.
  unfold null_to_default, re_sub.
  apply sub_with_keeps; [apply null_no_bound|].
  intros a b Hab Hb prev. symmetry in Hab. cbn in Hab.
  repeat (destruct a as [|? a];
    [cbn [app] in Hab; subst b; try done
    |cbn [app] in Hab; first [discriminate Hab | injection Hab as _ Hab]]).
Qed.

Lemma insert_null_after_keyword r :
  ToPostgres.insert_null_to_default (txt "VALUES(NULL," ++ r)
  = txt "VALUES(NULL," ++ ToPostgres.insert_null_to_default r.
Proof.
  unfold ToPostgres.insert_null_to_default, re_sub.
  apply sub_with_keeps; [apply insert_null_no_bound|].
  intros a b Hab Hb prev. symmetry in Hab. cbn in Hab.
  repeat (destruct a as [|? a];
    [cbn [app] in Hab; subst b; try (by apply insert_null_head)
    |cbn [app] in Hab; first [discriminate Hab | injection Hab as _ Hab]]).
  done.
Qed.

Lemma insert_head_space name y :
  insert_head name ++ y = (txt "INSERT INTO " ++ dq :: name ++ [dq]) ++ " "%char :: y.
Proof. unfold insert_head. rewrite <- !app_assoc. cbn [app]. by rewrite <- !app_assoc. Qed.

Lemma insert_null_covered s :
  null_to_default (ToPostgres.insert_null_to_default s) = null_to_default s.
Proof.
  remember (length s) as n eqn:Hn. revert s Hn.
  induction n as [n IH] using lt_wf_ind. intros [|c s] Hn; [done|].
  destruct (insert_null_step c s) as [Hq|(name & rest & Hs & Hq)].
  - destruct (startswith (txt "VALUES(NULL,") (c :: s)) eqn:Est.
    + apply startswith_spec in Est as [r Hr]. rewrite Hr.
      rewrite insert_null_after_keyword, !null_step_keyword. f_equal.
      apply (IH (length r)); [|done].
      rewrite Hn, Hr, length_app. simpl. lia.
    + rewrite Hq, (null_step_other c s Est).
      rewrite null_step_other.
      * f_equal. apply (IH (length s)); [|done]. rewrite Hn. simpl. lia.
      * destruct (startswith _ (c :: ToPostgres.insert_null_to_default s)) eqn:E; [|done].
        apply startswith_spec in E as [r Hr]. rewrite <- Hq in Hr.
        apply insert_null_prefix in Hr as [r' Hr']; [|by no_nl].
        assert (startswith (txt "VALUES(NULL,") (c :: s) = true) as H'
          by (apply startswith_spec; by exists r').
        congruence.
  - rewrite Hq, Hs, !insert_head_space, !null_after_space.
    rewrite null_after_default, null_step_keyword. do 3 f_equal.
    apply (IH (length rest)); [|done].
    rewrite Hn. apply (f_equal (@length ascii)) in Hs. rewrite !length_app in Hs.
    simpl in Hs. simpl. lia.
Qed.

(** X20: the rule that turns the NULL after the VALUES keyword of an INSERT
    statement for a quoted table into DEFAULT changes nothing that the rule
    for [VALUES(NULL,], which runs right after it, would not change as
    well: without it the converter returns the same text. *)
Theorem insert_null_rule_covered (content : text) :
  null_to_default (ToPostgres.insert_null_to_default content) = null_to_default content /\
  rewrite_without_insert_null content = ToPostgres.rewrite content.
Proof.
  split; [apply insert_null_covered|].
  unfold rewrite_without_insert_null, ToPostgres.rewrite.
  by rewrite insert_null_covered.
Qed.

(** * Words the timestamp rule leaves alone *)

(** Where no match attempt inside [pre] succeeds, [pre] is copied; each
    attempt sees the character before it. *)
Lemma scan_keeps_at icase pat rest : forall pre prev,
  (forall a b, pre = a ++ b -> b <> [] ->
     match_at icase pat (last_of prev a) (b ++ rest) = None) ->
  scan icase pat 0 prev (pre ++ rest)
  = map Keep pre ++ scan icase pat 0 (last_of prev pre) rest.
Proof.
  induction pre as [|c pre IH]; intros prev H; [done|].
  change ((c :: pre) ++ rest) with (c :: (pre ++ rest)).
  rewrite scan_keep.
  - simpl. f_equal. apply IH. intros a b -> Hb. by apply (H (c :: a) b).
  - by apply (H [] (c :: pre)).
Qed.

Lemma word_run_last prev (a : text) :
  Forall (fun c => is_word c = true) a -> a <> [] -> word_at (last_of prev a) = true.
Proof.
  intros H. revert prev. induction H as [|c a Hc Ha IH]; intros prev Hne; [done|].
  simpl. destruct a as [|x a]; [done|]. by apply IH.
Qed.

(** A match of the timestamp pattern ends before a character that is not
    a word character. *)
Lemma ts_match_end prev s m :
  match_at false DataOnly.ts_pattern prev s = Some m ->
  word_at prev = false /\
  exists ds r, s = "1"%char :: ds ++ r /\ Forall (fun c => is_digit c = true) ds /\
    9 <= length ds <= 12 /\ word_at (head r) = false.
Proof.
  unfold match_at, DataOnly.ts_pattern. cbn [match_items].
  destruct (at_boundary prev (head s)) eqn:Eb; [|discriminate].
  destruct s as [|c s]; [discriminate|].
  destruct (chr_eq false "1" c) eqn:Hc; [|discriminate].
  apply chr_eq_exact in Hc as <-.
  intros (ds & r & -> & Hds & Hlo & Hhi & Hk)%rep_sound. cbn [match_items] in Hk.
  destruct (at_boundary _ (head r)) eqn:Ee; [|discriminate].
  split.
  - unfold at_boundary in Eb. simpl in Eb. by destruct (word_at prev).
  - exists ds, r. simpl in Hlo, Hhi. repeat split; [done | lia | lia |].
    unfold at_boundary in Ee.
    rewrite (last_digit_word (Some "1"%char) ds Hds eq_refl) in Ee.
    by destruct (word_at (head r)).
Qed.

Lemma ts_digits_intro ds :
  Forall (fun c => is_digit c = true) ds -> 9 <= length ds <= 12 ->
  ts_digits ("1"%char :: ds) = true.
Proof.
  intros Hds Hlen. unfold ts_digits. cbv beta iota.
  apply andb_true_intro; split; [apply andb_true_intro; split|].
  - apply forallb_forall. intros c Hc. rewrite Forall_forall in Hds. by apply Hds.
  - apply Nat.leb_le; lia.
  - apply Nat.leb_le; lia.
Qed.

Lemma ts_word_no_match prev a b post :
  Forall (fun c => is_word c = true) (a ++ b) -> b <> [] ->
  ts_digits (a ++ b) = false -> starts_nonword post ->
  match_at false DataOnly.ts_pattern (last_of prev a) (b ++ post) = None.
Proof.
  intros Hw Hb Hd Hpost.
  destruct (match_at false DataOnly.ts_pattern (last_of prev a) (b ++ post)) as [m|] eqn:E;
    [|done].
  exfalso. apply ts_match_end in E as (Hprev & ds & r & Hs & Hds & Hlen & Hr).
  apply Forall_app in Hw as [Ha Hwb].
  destruct a as [|x a]; [|by rewrite (word_run_last prev (x :: a)) in Hprev].
  simpl app in Hd.
  change ("1"%char :: ds ++ r) with (("1"%char :: ds) ++ r) in Hs.
  apply app_eq_inv in Hs as [(k & Hk & Hp)|(k & Hk & Hp)].
  - destruct k as [|y k].
    + rewrite app_nil_r in Hk. subst b. by rewrite ts_digits_intro in Hd.
    + subst r. simpl in Hr. rewrite Forall_forall in Hwb.
      assert (is_word y = true) as Hy; [|congruence].
      apply Hwb. rewrite Hk. apply in_or_app. right. by left.
  - destruct k as [|y k].
    + rewrite app_nil_r in Hk. subst b. by rewrite ts_digits_intro in Hd.
    + subst post. unfold starts_nonword in Hpost. simpl in Hpost.
      assert (is_digit y = true) as Hy.
      { assert (In y ("1"%char :: ds)) as Hin
          by (rewrite Hk; apply in_or_app; right; by left).
        destruct Hin as [<-|Hin]; [done|]. rewrite Forall_forall in Hds. by apply Hds. }
      apply digit_is_word in Hy. congruence.
Qed.

(** X21: a run of word characters between two characters that are not
    word characters is left as it is by the timestamp rule unless it is a 1
    followed by 9 to 12 digits: shorter and longer numbers, numbers that
    begin with another digit and names that hold digits stay.  What stands
    before and after the run is rewritten on its own. *)
Theorem other_words_kept (tz : Z -> Z) (pre d post : text) :
  (forall x, - 86400 < tz x < 86400)%Z ->
  Forall (fun c => is_word c = true) d -> ts_digits d = false ->
  ends_nonword pre -> starts_nonword post ->
  exists out_pre out_post,
    DataOnly.convert_timestamps tz pre = Ok out_pre /\
    DataOnly.convert_timestamps tz post = Ok out_post /\
    DataOnly.convert_timestamps tz (pre ++ d ++ post) = Ok (out_pre ++ d ++ out_post).
Proof.
  intros Htz Hw Hd Hpre Hpost.
  exists (sub_with false DataOnly.ts_pattern (ts_replacement tz) pre),
    (sub_with false DataOnly.ts_pattern (ts_replacement tz) post).
  rewrite !convert_timestamps_ok by done. split; [done|]. split; [done|].
  f_equal. unfold sub_with, finditer.
  rewrite ts_scan_split by done. rewrite scan_keeps_at.
  - rewrite !flat_map_app, flat_map_keep. do 2 f_equal. by rewrite (ts_scan_start _ None).
  - intros a b -> Hb. by apply ts_word_no_match.
Qed.

Lemma other_words_kept_witness :
  (forall x : Z, - 86400 < 3600 < 86400)%Z /\
  Forall (fun c => is_word c = true) (txt "2000000000") /\
  ts_digits (txt "2000000000") = false /\
  ends_nonword (txt "VALUES(") /\ starts_nonword (txt ",5);") /\
  exists out_pre out_post,
    DataOnly.convert_timestamps (fun _ => 3600%Z) (txt "VALUES(" ++ txt "2000000000" ++ txt ",5);")
    = Ok (out_pre ++ txt "2000000000" ++ out_post).
Proof.
  assert (forall x : Z, - 86400 < 3600 < 86400)%Z as H1 by (intros; lia).
  assert (Forall (fun c => is_word c = true) (txt "2000000000")) as H2
    by (repeat constructor).
  assert (ts_digits (txt "2000000000") = false) as H3 by reflexivity.
  assert (ends_nonword (txt "VALUES(")) as H4 by reflexivity.
  assert (starts_nonword (txt ",5);")) as H5 by reflexivity.
  destruct (other_words_kept (fun _ => 3600%Z) _ _ _ H1 H2 H3 H4 H5)
    as (out_pre & out_post & _ & _ & H6).
  exact (conj H1 (conj H2 (conj H3 (conj H4 (conj H5
           (ex_intro _ out_pre (ex_intro _ out_post H6))))))).
Defined.

(** * Boolean values that stand alone *)

Lemma occurs_has w s c : occurs w s = true -> In c w -> c ∈ s.
Proof.
  intros (a & b & ->)%occurs_spec Hc. rewrite !elem_of_app. right. left.
  by apply list_elem_of_In.
Qed.

(** A literal rule does not fire on a text that lacks one of its
    characters. *)
Lemma literal_rule_absent (w W : string) (c : ascii) (s : text) :
  In c (txt w) -> c ∉ s -> re_sub (lits w) (rlits W) s = s.
Proof.
  intros Hc Hs. unfold re_sub, lits. rewrite <- (app_nil_r (map Lit (txt w))).
  apply sub_without_keyword.
  destruct (occurs (txt w) s) eqn:E; [|done].
  exfalso. apply Hs. by apply (occurs_has (txt w)).
Qed.

Lemma triple_match_at (l d r : ascii) prev s :
  match_at false (map Lit [l; d; r]) prev s
  = match s with
    | a :: b :: c :: _ =>
        if Ascii.eqb l a && Ascii.eqb d b && Ascii.eqb r c
        then Some {| whole := [a; b; c]; groups := [] |} else None
    | _ => None
    end.
Proof.
  unfold match_at. cbn [map match_items]. unfold chr_eq.
  destruct s as [|a [|b [|c s]]]; try done.
  - by destruct (Ascii.eqb l a).
  - by destruct (Ascii.eqb l a), (Ascii.eqb d b).
  - by destruct (Ascii.eqb l a), (Ascii.eqb d b), (Ascii.eqb r c).
Qed.

Lemma triple_no_bound (l d r : ascii) : Forall (fun it => it <> Bound) (map Lit [l; d; r]).
Proof. repeat constructor; done. Qed.

(** No match starts in a text without the digit, when what follows the
    text does not begin with the digit. *)
Lemma triple_not_before (l d r : ascii) pre rest :
  d ∉ pre -> head rest <> Some d ->
  forall a b, pre = a ++ b -> b <> [] ->
  forall prev, match_at false (map Lit [l; d; r]) prev (b ++ rest) = None.
Proof.
  intros Hpre Hrest a b -> Hb prev. rewrite triple_match_at.
  destruct b as [|x [|y b]]; [done|..].
  - destruct rest as [|y [|z rest]]; try done. cbn [app].
    destruct (Ascii.eqb_spec d y) as [<-|]; [done | by rewrite andb_false_r].
  - cbn [app]. destruct (b ++ rest) as [|z t]; [done|].
    destruct (Ascii.eqb_spec d y) as [<-|]; [|by rewrite andb_false_r].
    exfalso. apply Hpre. rewrite elem_of_app. right. apply elem_of_cons. right.
    apply elem_of_cons. by left.
Qed.

(** The rule fires on its own three characters between two texts without
    the digit. *)
Lemma triple_fires (w W : string) (l d r : ascii) (pre post : text) :
  txt w = [l; d; r] -> l <> d -> d ∉ pre -> d ∉ post ->
  re_sub (lits w) (rlits W) (pre ++ l :: d :: r :: post) = pre ++ txt W ++ post.
Proof.
  intros Hw Hl Hpre Hpost. unfold re_sub, lits. rewrite Hw.
  rewrite sub_with_keeps; [f_equal | apply triple_no_bound |].
  - change (l :: d :: r :: post) with ([l; d; r] ++ post).
    rewrite (sub_with_hit _ _ [l; d; r] post {| whole := [l; d; r]; groups := [] |}
               (triple_no_bound l d r)); try done.
    + rewrite expand_rlits. f_equal.
      pose proof (literal_rule_absent w W d post) as H. unfold re_sub, lits in H.
      rewrite Hw in H. apply H; [right; by left | done].
    + rewrite triple_match_at. cbn [app]. by rewrite !Ascii.eqb_refl.
  - apply triple_not_before; [done|]. simpl. by intros [= ->].
Qed.

(** The rule does not fire on three other characters between two texts
    without the digit. *)
Lemma triple_elsewhere (w W : string) (l d r l' d' r' : ascii) (pre post : text) :
  txt w = [l; d; r] -> l' <> d -> r' <> d ->
  (Ascii.eqb l l' && Ascii.eqb d d' && Ascii.eqb r r') = false ->
  d ∉ pre -> d ∉ post ->
  re_sub (lits w) (rlits W) (pre ++ l' :: d' :: r' :: post) = pre ++ l' :: d' :: r' :: post.
Proof.
  intros Hw Hl' Hr' Hne Hpre Hpost. unfold re_sub, lits. rewrite Hw.
  rewrite sub_with_keeps; [f_equal | apply triple_no_bound |].
  - change (l' :: d' :: r' :: post) with ([l'; d'; r'] ++ post).
    rewrite sub_with_keeps; [f_equal | apply triple_no_bound |].
    + pose proof (literal_rule_absent w W d post) as H. unfold re_sub, lits in H.
      rewrite Hw in H. apply H; [right; by left | done].
    + intros a b Hab Hb prev. rewrite triple_match_at.
      destruct a as [|x [|y [|z a]]]; cbn [app] in Hab.
      * subst b. cbn [app]. by rewrite Hne.
      * injection Hab as _ <-. cbn [app].
        destruct post as [|p post]; [done|].
        destruct (Ascii.eqb_spec d r') as [->|]; [done | by rewrite andb_false_r].
      * injection Hab as _ _ <-. cbn [app].
        destruct post as [|p [|q post]]; try done.
        destruct (Ascii.eqb_spec d p) as [<-|]; [|by rewrite andb_false_r].
        exfalso. apply Hpost. apply elem_of_cons. by left.
      * injection Hab as _ _ _ Hab. symmetry in Hab.
        by apply app_eq_nil in Hab as [_ ->].
  - apply triple_not_before; [done|]. simpl. by intros [= ->].
Qed.

(** X22: a 0 or 1 that stands between two of the separators the boolean
    rules know, in a text that holds no other 0 or 1, becomes FALSE or
    TRUE, except between an opening and a closing parenthesis: the only
    value of a one-column row stays a digit. *)
Theorem lone_boolean_converted (pre post : text) (l d r : ascii) :
  "0"%char ∉ pre -> "1"%char ∉ pre -> "0"%char ∉ post -> "1"%char ∉ post ->
  In l [","%char; "("%char] -> In r [","%char; ")"%char] -> In d ["0"%char; "1"%char] ->
  DataOnly.convert_booleans (pre ++ l :: d :: r :: post)
  = if Ascii.eqb l "(" && Ascii.eqb r ")" then pre ++ l :: d :: r :: post
    else pre ++ l :: boolean_word d ++ r :: post.
Proof.
  intros H0 H1 H0' H1' Hl Hr Hd.
  assert (forall W : string, "0"%char ∉ txt W -> "0"%char ∉ pre ++ txt W ++ post) as A0.
  { intros W HW. rewrite !elem_of_app. tauto. }
  assert (forall W : string, "1"%char ∉ txt W -> "1"%char ∉ pre ++ txt W ++ post) as A1.
  { intros W HW. rewrite !elem_of_app. tauto. }
  destruct Hl as [<-|[<-|[]]], Hr as [<-|[<-|[]]], Hd as [<-|[<-|[]]];
    unfold DataOnly.convert_booleans; cbv zeta;
    repeat match goal with
    | |- context [re_sub (lits ?w) (rlits ?W) (pre ++ ?a :: ?b :: ?c :: post)] =>
        first [ rewrite (triple_fires w W a b c pre post eq_refl) by done
              | rewrite (triple_elsewhere w W _ _ _ a b c pre post eq_refl) by done ]
    | |- context [re_sub (lits ?w) (rlits ?W) (pre ++ txt ?V ++ post)] =>
        first [ rewrite (literal_rule_absent w W "0" (pre ++ txt V ++ post))
                  by (first [right; by left | apply A0; by no_nl])
              | rewrite (literal_rule_absent w W "1" (pre ++ txt V ++ post))
                  by (first [right; by left | apply A1; by no_nl]) ]
    end; reflexivity.
Qed.

Lemma lone_boolean_converted_witness :
  ("0"%char ∉ txt "INSERT INTO t VALUES") /\ ("1"%char ∉ txt "INSERT INTO t VALUES") /\
  ("0"%char ∉ txt "'a');") /\ ("1"%char ∉ txt "'a');") /\
  In "("%char [","%char; "("%char] /\ In ","%char [","%char; ")"%char] /\
  In "1"%char ["0"%char; "1"%char] /\
  DataOnly.convert_booleans (txt "INSERT INTO t VALUES" ++ "("%char :: "1"%char :: ","%char :: txt "'a');")
  = txt "INSERT INTO t VALUES" ++ "("%char :: txt "TRUE" ++ ","%char :: txt "'a');".
Proof.
  assert ("0"%char ∉ txt "INSERT INTO t VALUES") as H1 by no_nl.
  assert ("1"%char ∉ txt "INSERT INTO t VALUES") as H2 by no_nl.
  assert ("0"%char ∉ txt "'a');") as H3 by no_nl.
  assert ("1"%char ∉ txt "'a');") as H4 by no_nl.
  assert (In "("%char [","%char; "("%char]) as H5 by (right; left; reflexivity).
  assert (In ","%char [","%char; ")"%char]) as H6 by (left; reflexivity).
  assert (In "1"%char ["0"%char; "1"%char]) as H7 by (right; left; reflexivity).
  exact (conj H1 (conj H2 (conj H3 (conj H4 (conj H5 (conj H6 (conj H7
           (lone_boolean_converted _ _ _ _ _ H1 H2 H3 H4 H5 H6 H7)))))))).
Defined.
